(** * Custom integrators of openmmtools: instruction sequences and their meaning

    [openmmtools/integrators.py] builds every integrator as an OpenMM
    [CustomIntegrator]: the constructor registers global and per-DOF variables
    and appends, in order, the computations that one call of [step] replays.
    This development embeds

    - the constructors of [MetropolisMonteCarloIntegrator], [HMCIntegrator],
      [GHMCIntegrator] and [LangevinSplittingIntegrator], statement by
      statement, as transformers of the integrator under construction;
    - the meaning of the emitted computations (the expression language of
      [CustomIntegrator], its blocks, its per-DOF and global stores), over the
      real numbers extended with a not-a-number value.

    Quantities carry no units here: every value is the number of its
    representation in OpenMM's unit system.  Double precision is idealised to
    exact real arithmetic; [NaN] is kept as a value of its own because the
    accept/reject logic is written with it in mind. *)

From Stdlib Require Import Reals Lra Lia List String Ascii Bool ZArith.
Import ListNotations.

Open Scope string_scope.
Open Scope R_scope.
Open Scope list_scope.

(* ================================================================= *)
(** ** Numbers *)

(** A scalar of the engine: a real, or not-a-number.  Infinities are not
    represented; an operation whose double-precision result would be an
    infinity (a division of a non-zero number by zero) is read as [NaN]. *)
Inductive num : Type :=
| Fin (r : R)
| NaN.

Definition lift1 (op : R -> R) (a : num) : num :=
  match a with
  | Fin r => Fin (op r)
  | NaN => NaN
  end.

Definition lift2 (op : R -> R -> R) (a b : num) : num :=
  match a, b with
  | Fin r1, Fin r2 => Fin (op r1 r2)
  | _, _ => NaN
  end.

Definition nadd : num -> num -> num := lift2 Rplus.
Definition nsub : num -> num -> num := lift2 Rminus.
Definition nmul : num -> num -> num := lift2 Rmult.
Definition nneg : num -> num := lift1 Ropp.
Definition nexp : num -> num := lift1 exp.

Definition ndiv (a b : num) : num :=
  match a, b with
  | Fin r1, Fin r2 => if Req_dec_T r2 0 then NaN else Fin (r1 / r2)
  | _, _ => NaN
  end.

Definition nsqrt (a : num) : num :=
  match a with
  | Fin r => if Rle_lt_dec 0 r then Fin (sqrt r) else NaN
  | NaN => NaN
  end.

(** [step(x)]: 0 if [x < 0], 1 otherwise.  What it returns on [NaN] is the
    evaluator's business and is a parameter [nan_step] of the engine: the
    engine computes [x >= 0 ? 1 : 0], which is 0 on [NaN]
    ([nan_step = false]); a statement that depends on the value of [step]
    on [NaN] says so. *)
Definition nstep (nan_step : bool) (a : num) : num :=
  match a with
  | Fin r => if Rle_lt_dec 0 r then Fin 1 else Fin 0
  | NaN => if nan_step then Fin 1 else Fin 0
  end.

(** [delta(x)]: 1 if [x] is zero, 0 otherwise. *)
Definition ndelta (a : num) : num :=
  match a with
  | Fin r => if Req_dec_T r 0 then Fin 1 else Fin 0
  | NaN => Fin 0
  end.

(** Comparison operators of a block condition.  Every ordered comparison with
    [NaN] is false and [!=] is true. *)
Inductive cmpop : Type := CmpEq | CmpNe | CmpLt | CmpGt | CmpLe | CmpGe.

Definition ncmp (op : cmpop) (a b : num) : bool :=
  match a, b with
  | Fin r1, Fin r2 =>
      match op with
      | CmpEq => if Req_dec_T r1 r2 then true else false
      | CmpNe => if Req_dec_T r1 r2 then false else true
      | CmpLt => if Rlt_dec r1 r2 then true else false
      | CmpGt => if Rlt_dec r2 r1 then true else false
      | CmpLe => if Rle_dec r1 r2 then true else false
      | CmpGe => if Rle_dec r2 r1 then true else false
      end
  | _, _ => match op with CmpNe => true | _ => false end
  end.

(* ================================================================= *)
(** ** Expressions and computations of a CustomIntegrator *)

(** The expressions the constructors pass as strings, as syntax trees: the
    tree is the parse of the string under the usual precedences.  [Var] covers
    the built-in names ([x], [v], [f], [m], [dt], [energy], [uniform],
    [gaussian]) as well as the registered variables. *)
Inductive expr : Type :=
| Const (c : R)
| Var (name : string)
| Neg (e : expr)
| Add (e1 e2 : expr)
| Sub (e1 e2 : expr)
| Mul (e1 e2 : expr)
| Div (e1 e2 : expr)
| Sqrt (e : expr)
| Exp (e : expr)
| Step (e : expr)
| Delta (e : expr).

Coercion Var : string >-> expr.
Coercion Const : R >-> expr.

Declare Scope expr_scope.
Delimit Scope expr_scope with E.
Bind Scope expr_scope with expr.
Notation "a + b" := (Add a b) : expr_scope.
Notation "a - b" := (Sub a b) : expr_scope.
Notation "a * b" := (Mul a b) : expr_scope.
Notation "a / b" := (Div a b) : expr_scope.
Notation "- a" := (Neg a) : expr_scope.

(** The condition of [beginIfBlock]: two expressions and a comparison. *)
Record condition : Type := Cond { cond_lhs : expr; cond_op : cmpop; cond_rhs : expr }.

Inductive computation : Type :=
| UpdateContextState
| ConstrainPositions
| ConstrainVelocities
| ComputeGlobal (variable : string) (expression : expr)
| ComputePerDof (variable : string) (expression : expr)
| ComputeSum (variable : string) (expression : expr)
| BeginIfBlock (c : condition)
| EndBlock.

(** The integrator under construction, as [mm.CustomIntegrator] keeps it. *)
Record CustomIntegrator : Type := mkCustomIntegrator {
  stepSize : R;
  globalVariables : list (string * R);
  perDofVariables : list (string * R);
  computations : list computation
}.

(** [super(...).__init__(timestep)] *)
Definition init (timestep : R) : CustomIntegrator :=
  {| stepSize := timestep; globalVariables := []; perDofVariables := [];
     computations := [] |}.

(** A statement of a constructor body: it mutates [self]. *)
Definition stmt : Type := CustomIntegrator -> CustomIntegrator.

Definition addGlobalVariable (name : string) (initialValue : R) : stmt :=
  fun self =>
    {| stepSize := stepSize self;
       globalVariables := globalVariables self ++ [(name, initialValue)];
       perDofVariables := perDofVariables self;
       computations := computations self |}.

Definition addPerDofVariable (name : string) (initialValue : R) : stmt :=
  fun self =>
    {| stepSize := stepSize self;
       globalVariables := globalVariables self;
       perDofVariables := perDofVariables self ++ [(name, initialValue)];
       computations := computations self |}.

Definition addComputation (c : computation) : stmt :=
  fun self =>
    {| stepSize := stepSize self;
       globalVariables := globalVariables self;
       perDofVariables := perDofVariables self;
       computations := computations self ++ [c] |}.

Definition addUpdateContextState : stmt := addComputation UpdateContextState.
Definition addConstrainPositions : stmt := addComputation ConstrainPositions.
Definition addConstrainVelocities : stmt := addComputation ConstrainVelocities.
Definition addComputeGlobal (variable : string) (e : expr) : stmt :=
  addComputation (ComputeGlobal variable e).
Definition addComputePerDof (variable : string) (e : expr) : stmt :=
  addComputation (ComputePerDof variable e).
Definition addComputeSum (variable : string) (e : expr) : stmt :=
  addComputation (ComputeSum variable e).
Definition beginIfBlock (c : condition) : stmt := addComputation (BeginIfBlock c).
Definition endBlock : stmt := addComputation EndBlock.

(** Statements in sequence, [if] without [else], and [for ... in ...]. *)
Definition pass : stmt := fun self => self.

Fixpoint seq_ (body : list stmt) : stmt :=
  match body with
  | [] => pass
  | s :: rest => fun self => seq_ rest (s self)
  end.

Definition when (b : bool) (s : stmt) : stmt := if b then s else pass.

Definition for_ {A : Type} (xs : list A) (body : A -> stmt) : stmt :=
  seq_ (map body xs).

(** [range(n)] for an integer [n]: empty when [n <= 0]. *)
Definition range (n : Z) : list Z := map Z.of_nat (seq 0 (Z.to_nat n)).

(** What a constructor call comes to: the object, or the [AssertionError]
    of a failed [assert]. *)
Inductive result (A : Type) : Type :=
| Ok (a : A)
| AssertionError
| KeyError.
Arguments Ok {A} a.
Arguments AssertionError {A}.
Arguments KeyError {A}.

(** A loop whose body can raise: the first exception ends it. *)
Definition for_raising {A : Type} (xs : list A)
    (body : A -> CustomIntegrator -> result CustomIntegrator)
    (self : CustomIntegrator) : result CustomIntegrator :=
  fold_left (fun acc x => match acc with Ok s => body x s | err => err end)
            xs (Ok self).

(* ----------------------------------------------------------------- *)
(** *** Strings of the host language *)

(** [str.upper()] on the letters a to z; every other character is kept. *)
Definition upper_char (c : ascii) : ascii :=
  let n := nat_of_ascii c in
  if (97 <=? n)%nat && (n <=? 122)%nat then ascii_of_nat (n - 32) else c.

Definition upper (s : string) : list ascii :=
  map upper_char (list_ascii_of_string s).

(** [set(a) == set(b)]: the same characters occur in both. *)
Definition mem_char (c : ascii) (l : list ascii) : bool :=
  existsb (Ascii.eqb c) l.

Definition set_eq (a b : list ascii) : bool :=
  forallb (fun c => mem_char c b) a && forallb (fun c => mem_char c a) b.

(** [sum([letter == c for letter in s])] *)
Definition count_letter (c : ascii) (s : list ascii) : nat :=
  list_sum (map (fun letter => if Ascii.eqb letter c then 1%nat else 0%nat) s).

(** [step in 'OB'] for a one-character [step]. *)
Definition in_str (step : ascii) (s : string) : bool :=
  mem_char step (list_ascii_of_string s).

(* ================================================================= *)
(** ** The constructors *)

Section Integrators.

(** [kB], imported from [openmmtools.constants]: the molar gas constant. *)
Variable kB : R.

(** [MetropolisMonteCarloIntegrator.__init__(temperature, sigma, timestep)] *)
Definition MetropolisMonteCarloIntegrator (temperature sigma timestep : R)
  : result CustomIntegrator :=
  (* Create a new Custom integrator. *)
  let self := init timestep in
  (* Compute the thermal energy. *)
  let kT := kB * temperature in
  Ok (seq_ [
    (* Integrator initialization. *)
    addGlobalVariable "naccept" 0;
    addGlobalVariable "ntrials" 0;
    addGlobalVariable "kT" kT;
    addPerDofVariable "sigma_x" sigma;
    addPerDofVariable "sigma_v" 0;
    addPerDofVariable "xold" 0;
    addGlobalVariable "Eold" 0;
    addGlobalVariable "Enew" 0;
    addGlobalVariable "accept" 0;
    (* Context state update. *)
    addUpdateContextState;
    (* Update velocities from Maxwell-Boltzmann distribution. *)
    addComputePerDof "sigma_v" (Sqrt ("kT" / "m"));
    addComputePerDof "v" ("sigma_v" * "gaussian");
    addConstrainVelocities;
    (* Store old positions and energy. *)
    addComputePerDof "xold" "x";
    addComputeGlobal "Eold" "energy";
    (* Gaussian particle displacements. *)
    addComputePerDof "x" ("x" + "sigma_x" * "gaussian");
    (* Accept or reject with Metropolis criteria. *)
    addComputeGlobal "accept" (Step (Exp (- ("energy" - "Eold") / "kT") - "uniform"));
    addComputePerDof "x" ((1 - "accept") * "xold" + "x" * "accept");
    (* Accumulate acceptance statistics. *)
    addComputeGlobal "naccept" ("naccept" + "accept");
    addComputeGlobal "ntrials" ("ntrials" + 1)
  ] self).

(** [HMCIntegrator.__init__(temperature, nsteps, timestep)] *)
Definition HMCIntegrator (temperature : R) (nsteps : Z) (timestep : R)
  : result CustomIntegrator :=
  let self := init timestep in
  (* Compute the thermal energy. *)
  let kT := kB * temperature in
  Ok (seq_ [
    (* Integrator initialization. *)
    addGlobalVariable "naccept" 0;
    addGlobalVariable "ntrials" 0;
    addGlobalVariable "kT" kT;
    addPerDofVariable "sigma" 0;
    addGlobalVariable "ke" 0;
    addPerDofVariable "xold" 0;
    addGlobalVariable "Eold" 0;
    addGlobalVariable "Enew" 0;
    addGlobalVariable "accept" 0;
    addPerDofVariable "x1" 0;
    (* Pre-computation. *)
    addComputePerDof "sigma" (Sqrt ("kT" / "m"));
    (* Allow Context updating here, outside of inner loop only. *)
    addUpdateContextState;
    (* Draw new velocity. *)
    addComputePerDof "v" ("sigma" * "gaussian");
    addConstrainVelocities;
    (* Store old position and energy. *)
    addComputeSum "ke" (0.5 * "m" * "v" * "v");
    addComputeGlobal "Eold" ("ke" + "energy");
    addComputePerDof "xold" "x";
    (* Inner symplectic steps using velocity Verlet. *)
    for_ (range nsteps) (fun step => seq_ [
      addComputePerDof "v" ("v" + 0.5 * "dt" * "f" / "m");
      addComputePerDof "x" ("x" + "dt" * "v");
      addComputePerDof "x1" "x";
      addConstrainPositions;
      addComputePerDof "v" ("v" + 0.5 * "dt" * "f" / "m" + ("x" - "x1") / "dt");
      addConstrainVelocities
    ]);
    (* Accept/reject step. *)
    addComputeSum "ke" (0.5 * "m" * "v" * "v");
    addComputeGlobal "Enew" ("ke" + "energy");
    addComputeGlobal "accept" (Step (Exp (- ("Enew" - "Eold") / "kT") - "uniform"));
    addComputePerDof "x" ("x" * "accept" + "xold" * (1 - "accept"));
    (* Accumulate statistics. *)
    addComputeGlobal "naccept" ("naccept" + "accept");
    addComputeGlobal "ntrials" ("ntrials" + 1)
  ] self).

(** [GHMCIntegrator.__init__(temperature, collision_rate, timestep)] *)
Definition GHMCIntegrator (temperature collision_rate timestep : R)
  : result CustomIntegrator :=
  (* Initialize constants. *)
  let kT := kB * temperature in
  let gamma := collision_rate in
  (* Create a new custom integrator. *)
  let self := init timestep in
  Ok (seq_ [
    (* Integrator initialization. *)
    addGlobalVariable "kT" kT;
    addGlobalVariable "b" (exp (- gamma * timestep));
    addPerDofVariable "sigma" 0;
    addGlobalVariable "ke" 0;
    addPerDofVariable "vold" 0;
    addPerDofVariable "xold" 0;
    addGlobalVariable "Eold" 0;
    addGlobalVariable "Enew" 0;
    addGlobalVariable "accept" 0;
    addGlobalVariable "naccept" 0;
    addGlobalVariable "ntrials" 0;
    addPerDofVariable "x1" 0;
    (* Pre-computation. *)
    addComputePerDof "sigma" (Sqrt ("kT" / "m"));
    (* Velocity randomization *)
    addComputePerDof "v" (Sqrt "b" * "v" + Sqrt (1 - "b") * "sigma" * "gaussian");
    addConstrainVelocities;
    (* Metropolized symplectic step. *)
    addConstrainPositions;
    addConstrainVelocities;
    (* Compute initial total energy *)
    addComputeSum "ke" (0.5 * "m" * "v" * "v");
    addComputeGlobal "Eold" ("ke" + "energy");
    addComputePerDof "xold" "x";
    addComputePerDof "vold" "v";
    (* Velocity Verlet step *)
    addComputePerDof "v" ("v" + 0.5 * "dt" * "f" / "m");
    addComputePerDof "x" ("x" + "v" * "dt");
    addComputePerDof "x1" "x";
    addConstrainPositions;
    addComputePerDof "v" ("v" + 0.5 * "dt" * "f" / "m" + ("x" - "x1") / "dt");
    addConstrainVelocities;
    (* Compute final total energy *)
    addComputeSum "ke" (0.5 * "m" * "v" * "v");
    addComputeGlobal "Enew" ("ke" + "energy");
    (* Accept/reject, ensuring rejection if energy is NaN *)
    addComputeGlobal "accept" (Step (Exp (- ("Enew" - "Eold") / "kT") - "uniform"));
    beginIfBlock (Cond "accept" CmpNe 1);
    addComputePerDof "x" "xold";
    addComputePerDof "v" (- "vold");
    endBlock;
    (* Velocity randomization *)
    addComputePerDof "v" (Sqrt "b" * "v" + Sqrt (1 - "b") * "sigma" * "gaussian");
    addConstrainVelocities;
    (* Accumulate statistics. *)
    addComputeGlobal "naccept" ("naccept" + "accept");
    addComputeGlobal "ntrials" ("ntrials" + 1)
  ] self).

(** [LangevinSplittingIntegrator.__init__(splitting, temperature,
    collision_rate, timestep, monitor_work, monitor_heat,
    position_constraints, velocity_constraints)] *)
Definition LangevinSplittingIntegrator (splitting : string)
    (temperature collision_rate timestep : R)
    (monitor_work monitor_heat position_constraints velocity_constraints : bool)
  : result CustomIntegrator :=
  (* Compute constants *)
  let kT := kB * temperature in
  let gamma := collision_rate in
  (* Make sure `splitting` string is uppercase, for convenience *)
  let splitting := upper splitting in
  (* Assert it contains at least one each of A,B,O, and no other characters *)
  if negb (set_eq splitting (list_ascii_of_string "ABO")) then AssertionError else
  (* Count how many times each step appears *)
  let n_A := count_letter "A" splitting in
  let n_B := count_letter "B" splitting in
  let n_O := count_letter "O" splitting in
  (* For now, don't split up the O step -- will relax this later! *)
  if negb (n_O =? 1)%nat then AssertionError else
  (* strings to pass to self.addComputePerDof(variable, expression) *)
  let update_equations : list (ascii * (string * expr)) := [
    ("A"%char, ("x", ("x" + ("dt" / INR n_A) * "v")%E));
    ("B"%char, ("v", ("v" + ("dt" / INR n_B) * "f")%E));
    ("O"%char, ("v", ("b" * "v" + Sqrt ("kT" * (1 - "b" * "b")) * "gaussian" / Sqrt "m")%E))
  ] in
  let lookup (step : ascii) :=
    option_map snd (find (fun kv => Ascii.eqb (fst kv) step) update_equations) in
  (* Define bookkeeping and constraint-application functions *)
  let kinetic_energy : expr := (0.5 * "m" * "v" * "v")%E in
  let compute_pre_step_energies (step : ascii) : stmt :=
    when (monitor_work || monitor_heat) (seq_ [
      when (in_str step "OB") (addComputeSum "old_ke" kinetic_energy);
      when (monitor_work && Ascii.eqb step "A") (addComputeGlobal "old_pe" "energy")
    ]) in
  let apply_constraints (step : ascii) : stmt :=
    seq_ [
      when (position_constraints && Ascii.eqb step "A") addConstrainPositions;
      when (velocity_constraints && in_str step "OB") addConstrainVelocities
    ] in
  let compute_post_step_energies (step : ascii) : stmt :=
    seq_ [
      when (Ascii.eqb step "O" && (monitor_work || monitor_heat))
        (addComputeSum "new_ke" kinetic_energy);
      when monitor_work
        (when (Ascii.eqb step "A") (addComputeGlobal "new_pe" "energy"))
    ] in
  let accumulate_heat_or_work (step : ascii) : stmt :=
    seq_ [
      when monitor_work (seq_ [
        when (Ascii.eqb step "A")
          (addComputeGlobal "shadow_work" ("shadow_work" + ("new_pe" - "old_pe")));
        when (Ascii.eqb step "B")
          (addComputeGlobal "shadow_work" ("shadow_work" + ("new_ke" - "old_ke")))
      ]);
      when monitor_heat
        (when (Ascii.eqb step "O")
          (addComputeGlobal "heat" ("heat" + ("new_ke" - "old_ke"))))
    ] in
  (* Create a new CustomIntegrator *)
  let self := init timestep in
  let self := seq_ [
    (* Initialize *)
    addGlobalVariable "kT" kT;
    addGlobalVariable "b" (exp (- gamma * timestep));
    (* Add bookkeeping variables *)
    when (monitor_work || monitor_heat) (seq_ [
      addGlobalVariable "old_ke" 0;
      addGlobalVariable "new_ke" 0;
      when monitor_work (seq_ [
        addGlobalVariable "shadow_work" 0;
        addGlobalVariable "old_pe" 0;
        addGlobalVariable "new_pe" 0
      ]);
      when monitor_heat (addGlobalVariable "heat" 0)
    ])
  ] self in
  (* Integrate, applying constraints or bookkeeping as necessary *)
  for_raising splitting (fun step self =>
    let self := compute_pre_step_energies step self in
    match lookup step with
    | None => KeyError
    | Some (variable, expression) =>
        Ok (seq_ [
          addComputePerDof variable expression;
          apply_constraints step;
          compute_post_step_energies step;
          accumulate_heat_or_work step
        ] self)
    end) self.

End Integrators.

(* ================================================================= *)
(** ** The engine and the state of a simulation *)

(** A source of random draws: the two sequences of values it will deliver
    and how many of each have been taken. *)
Record rng : Type := mkRng {
  gaussian_draws : nat -> num;
  uniform_draws : nat -> num;
  gaussian_used : nat;
  uniform_used : nat
}.

Definition draw_gaussian (r : rng) : num * rng :=
  (gaussian_draws r (gaussian_used r),
   mkRng (gaussian_draws r) (uniform_draws r) (S (gaussian_used r)) (uniform_used r)).

Definition draw_uniform (r : rng) : num * rng :=
  (uniform_draws r (uniform_used r),
   mkRng (gaussian_draws r) (uniform_draws r) (gaussian_used r) (S (uniform_used r))).

(** One degree of freedom: the built-in [x], [v], [m], the per-DOF variables
    registered by the integrator, and the draws this degree of freedom sees
    (draws are independent across degrees of freedom). *)
Record dof : Type := mkDof {
  pos : num;
  vel : num;
  mass : num;
  perdof : string -> option num;
  dof_rng : rng
}.

(** The state one [step] works on. *)
Record context : Type := mkContext {
  dofs : list dof;
  globals : string -> option num;
  dt : num;
  ctx_rng : rng
}.

Definition positions (c : context) : list num := map pos (dofs c).
Definition velocities (c : context) : list num := map vel (dofs c).

(** What the dynamics engine supplies: forces and potential energy as
    functions of the positions, the two constraint projections, what the
    forces of the system do in [updateContextState], and the value of
    [step] on [NaN].  Each vector-valued entry gives the component of one
    degree of freedom. *)
Record Engine : Type := mkEngine {
  force : list num -> nat -> num;
  potential : list num -> num;
  constrain_positions : list num -> nat -> num;
  constrain_velocities : list num -> list num -> nat -> num;
  update_positions : list num -> list num -> nat -> num;
  update_velocities : list num -> list num -> nat -> num;
  nan_step : bool
}.

Fixpoint mapi_from {A B : Type} (i : nat) (f : nat -> A -> B) (l : list A) : list B :=
  match l with
  | [] => []
  | a :: l' => f i a :: mapi_from (S i) f l'
  end.

Definition mapi {A B : Type} (f : nat -> A -> B) (l : list A) : list B :=
  mapi_from 0 f l.

Definition with_pos (a : num) (d : dof) : dof :=
  mkDof a (vel d) (mass d) (perdof d) (dof_rng d).
Definition with_vel (a : num) (d : dof) : dof :=
  mkDof (pos d) a (mass d) (perdof d) (dof_rng d).
Definition with_perdof (name : string) (a : num) (d : dof) : dof :=
  mkDof (pos d) (vel d) (mass d)
        (fun k => if (k =? name)%string then Some a else perdof d k) (dof_rng d).
Definition with_dof_rng (r : rng) (d : dof) : dof :=
  mkDof (pos d) (vel d) (mass d) (perdof d) r.

Definition with_dofs (ds : list dof) (c : context) : context :=
  mkContext ds (globals c) (dt c) (ctx_rng c).
Definition with_global (name : string) (a : num) (c : context) : context :=
  mkContext (dofs c)
            (fun k => if (k =? name)%string then Some a else globals c k)
            (dt c) (ctx_rng c).
Definition with_dt (a : num) (c : context) : context :=
  mkContext (dofs c) (globals c) a (ctx_rng c).
Definition with_ctx_rng (r : rng) (c : context) : context :=
  mkContext (dofs c) (globals c) (dt c) r.

(** Assignment to a per-DOF name and to a global name. *)
Definition set_perdof (name : string) (a : num) (d : dof) : dof :=
  if (name =? "x")%string then with_pos a d
  else if (name =? "v")%string then with_vel a d
  else with_perdof name a d.

Definition set_global (name : string) (a : num) (c : context) : context :=
  if (name =? "dt")%string then with_dt a c else with_global name a c.

Section Semantics.

Variable E : Engine.

(** The value of an expression; every occurrence of [gaussian] or [uniform]
    takes a fresh draw. *)
Fixpoint eval (rho : string -> num) (e : expr) (r : rng) : num * rng :=
  match e with
  | Const c => (Fin c, r)
  | Var name =>
      if (name =? "gaussian")%string then draw_gaussian r
      else if (name =? "uniform")%string then draw_uniform r
      else (rho name, r)
  | Neg a => let (va, r1) := eval rho a r in (nneg va, r1)
  | Add a b =>
      let (va, r1) := eval rho a r in
      let (vb, r2) := eval rho b r1 in (nadd va vb, r2)
  | Sub a b =>
      let (va, r1) := eval rho a r in
      let (vb, r2) := eval rho b r1 in (nsub va vb, r2)
  | Mul a b =>
      let (va, r1) := eval rho a r in
      let (vb, r2) := eval rho b r1 in (nmul va vb, r2)
  | Div a b =>
      let (va, r1) := eval rho a r in
      let (vb, r2) := eval rho b r1 in (ndiv va vb, r2)
  | Sqrt a => let (va, r1) := eval rho a r in (nsqrt va, r1)
  | Exp a => let (va, r1) := eval rho a r in (nexp va, r1)
  | Step a => let (va, r1) := eval rho a r in (nstep (nan_step E) va, r1)
  | Delta a => let (va, r1) := eval rho a r in (ndelta va, r1)
  end.

(** What a name stands for in a global expression and in the expression of
    one degree of freedom.  A name that is neither built in nor registered
    has no value; the engine refuses such an integrator when the context is
    created, and the lookup answers [NaN].  Built-in names come first. *)
Definition global_lookup (c : context) (name : string) : num :=
  if (name =? "dt")%string then dt c
  else if (name =? "energy")%string then potential E (positions c)
  else match globals c name with Some a => a | None => NaN end.

Definition dof_lookup (c : context) (i : nat) (d : dof) (name : string) : num :=
  if (name =? "x")%string then pos d
  else if (name =? "v")%string then vel d
  else if (name =? "m")%string then mass d
  else if (name =? "f")%string then force E (positions c) i
  else if (name =? "dt")%string then dt c
  else if (name =? "energy")%string then potential E (positions c)
  else match perdof d name with Some a => a | None => global_lookup c name end.

(** The computations.  A per-DOF computation evaluates its expression for
    every degree of freedom in the state before the computation. *)
Definition compute_global (name : string) (e : expr) (c : context) : context :=
  let (a, r) := eval (global_lookup c) e (ctx_rng c) in
  set_global name a (with_ctx_rng r c).

Definition compute_per_dof (name : string) (e : expr) (c : context) : context :=
  with_dofs
    (mapi (fun i d =>
             let (a, r) := eval (dof_lookup c i d) e (dof_rng d) in
             set_perdof name a (with_dof_rng r d))
          (dofs c)) c.

Definition compute_sum (name : string) (e : expr) (c : context) : context :=
  let terms := mapi (fun i d => eval (dof_lookup c i d) e (dof_rng d)) (dofs c) in
  let total := fold_left nadd (map fst terms) (Fin 0) in
  set_global name total
    (with_dofs (mapi (fun i d => with_dof_rng (snd (eval (dof_lookup c i d) e (dof_rng d))) d)
                     (dofs c)) c).

Definition apply_constrain_positions (c : context) : context :=
  with_dofs (mapi (fun i d => with_pos (constrain_positions E (positions c) i) d) (dofs c)) c.

Definition apply_constrain_velocities (c : context) : context :=
  with_dofs
    (mapi (fun i d => with_vel (constrain_velocities E (positions c) (velocities c) i) d)
          (dofs c)) c.

Definition apply_update_context_state (c : context) : context :=
  with_dofs
    (mapi (fun i d =>
             with_vel (update_velocities E (positions c) (velocities c) i)
               (with_pos (update_positions E (positions c) (velocities c) i) d))
          (dofs c)) c.

Definition test (k : condition) (c : context) : bool :=
  ncmp (cond_op k)
       (fst (eval (global_lookup c) (cond_lhs k) (ctx_rng c)))
       (fst (eval (global_lookup c) (cond_rhs k) (ctx_rng c))).

(** One computation outside of any skipped block. *)
Definition exec (i : computation) (c : context) : context :=
  match i with
  | UpdateContextState => apply_update_context_state c
  | ConstrainPositions => apply_constrain_positions c
  | ConstrainVelocities => apply_constrain_velocities c
  | ComputeGlobal name e => compute_global name e c
  | ComputePerDof name e => compute_per_dof name e c
  | ComputeSum name e => compute_sum name e c
  | BeginIfBlock _ | EndBlock => c
  end.

(** The computations in order.  The machine carries, next to the context,
    the number [skip] of blocks still open below a block whose condition
    was false: while it is not zero, nothing is run. *)
Definition advance (s : nat * context) (i : computation) : nat * context :=
  let (skip, c) := s in
  match skip with
  | S k =>
      match i with
      | BeginIfBlock _ => (S (S k), c)
      | EndBlock => (k, c)
      | _ => (S k, c)
      end
  | O =>
      match i with
      | BeginIfBlock k => if test k c then (O, c) else (1%nat, c)
      | EndBlock => (O, c)
      | _ => (O, exec i c)
      end
  end.

Definition run (p : list computation) (s : nat * context) : nat * context :=
  fold_left advance p s.

(** [integrator.step(1)] *)
Definition step (I : CustomIntegrator) (c : context) : context :=
  snd (run (computations I) (O, c)).

(** [integrator.step(n)] *)
Fixpoint steps (n : nat) (I : CustomIntegrator) (c : context) : context :=
  match n with
  | O => c
  | S n' => steps n' I (step I c)
  end.

End Semantics.

(** [Context(system, integrator)]: the registered variables take their
    initial values; the system gives each degree of freedom its mass,
    position and velocity. *)
Definition initial_values (vars : list (string * R)) (name : string) : option num :=
  option_map (fun kv => Fin (snd kv))
             (find (fun kv => (fst kv =? name)%string) vars).

Record particle : Type := mkParticle {
  p_mass : num; p_pos : num; p_vel : num; p_rng : rng
}.

Definition createContext (I : CustomIntegrator) (system : list particle) (r : rng)
  : context :=
  mkContext
    (map (fun p => mkDof (p_pos p) (p_vel p) (p_mass p)
                         (initial_values (perDofVariables I)) (p_rng p)) system)
    (initial_values (globalVariables I))
    (Fin (stepSize I)) r.

(* ================================================================= *)
(** ** The programs the constructors emit *)

(** Appending a run of computations to the integrator under construction. *)
Definition emit (cs : list computation) : stmt :=
  fun self =>
    {| stepSize := stepSize self;
       globalVariables := globalVariables self;
       perDofVariables := perDofVariables self;
       computations := computations self ++ cs |}.

(** The accept computation of [HMCIntegrator] and [GHMCIntegrator] and the
    two statistics updates that end every Metropolized program. *)
Definition metropolis_accept : computation :=
  ComputeGlobal "accept" (Step (Exp (- ("Enew" - "Eold") / "kT") - "uniform")).

Definition statistics : list computation := [
  ComputeGlobal "naccept" ("naccept" + "accept");
  ComputeGlobal "ntrials" ("ntrials" + 1)
].

(* ----------------------------------------------------------------- *)
(** *** [MetropolisMonteCarloIntegrator] *)

Definition mc_draw_velocities : list computation := [
  UpdateContextState;
  ComputePerDof "sigma_v" (Sqrt ("kT" / "m"));
  ComputePerDof "v" ("sigma_v" * "gaussian");
  ConstrainVelocities
].

Definition mc_snapshot : list computation := [
  ComputePerDof "xold" "x";
  ComputeGlobal "Eold" "energy"
].

Definition mc_propose : list computation := [
  ComputePerDof "x" ("x" + "sigma_x" * "gaussian")
].

Definition mc_accept : computation :=
  ComputeGlobal "accept" (Step (Exp (- ("energy" - "Eold") / "kT") - "uniform")).

Definition mc_restore : list computation := [
  ComputePerDof "x" ((1 - "accept") * "xold" + "x" * "accept")
].

Definition mc_program : list computation :=
  mc_draw_velocities ++ mc_snapshot ++ mc_propose ++ [mc_accept] ++ mc_restore
  ++ statistics.

(* ----------------------------------------------------------------- *)
(** *** [HMCIntegrator] *)

Definition hmc_draw_velocities : list computation := [
  ComputePerDof "sigma" (Sqrt ("kT" / "m"));
  UpdateContextState;
  ComputePerDof "v" ("sigma" * "gaussian");
  ConstrainVelocities
].

Definition total_energy (name : string) : list computation := [
  ComputeSum "ke" (0.5 * "m" * "v" * "v");
  ComputeGlobal name ("ke" + "energy")
].

Definition hmc_snapshot : list computation :=
  total_energy "Eold" ++ [ComputePerDof "xold" "x"].

Definition velocity_verlet : list computation := [
  ComputePerDof "v" ("v" + 0.5 * "dt" * "f" / "m");
  ComputePerDof "x" ("x" + "dt" * "v");
  ComputePerDof "x1" "x";
  ConstrainPositions;
  ComputePerDof "v" ("v" + 0.5 * "dt" * "f" / "m" + ("x" - "x1") / "dt");
  ConstrainVelocities
].

Definition hmc_propose (nsteps : Z) : list computation :=
  List.concat (repeat velocity_verlet (Z.to_nat nsteps)).

Definition hmc_restore : list computation := [
  ComputePerDof "x" ("x" * "accept" + "xold" * (1 - "accept"))
].

Definition hmc_program (nsteps : Z) : list computation :=
  hmc_draw_velocities ++ hmc_snapshot ++ hmc_propose nsteps
  ++ total_energy "Enew" ++ [metropolis_accept] ++ hmc_restore ++ statistics.

(* ----------------------------------------------------------------- *)
(** *** [GHMCIntegrator] *)

Definition velocity_randomization : computation :=
  ComputePerDof "v" (Sqrt "b" * "v" + Sqrt (1 - "b") * "sigma" * "gaussian").

Definition ghmc_randomize : list computation := [
  velocity_randomization;
  ConstrainVelocities
].

Definition ghmc_mix_velocities : list computation :=
  [ComputePerDof "sigma" (Sqrt ("kT" / "m"))] ++ ghmc_randomize
  ++ [ConstrainPositions; ConstrainVelocities].

Definition ghmc_snapshot : list computation :=
  total_energy "Eold" ++ [ComputePerDof "xold" "x"; ComputePerDof "vold" "v"].

(** The velocity Verlet step of [GHMCIntegrator], which writes [x + v*dt]
    where the loop body of [HMCIntegrator] writes [x + dt*v]. *)
Definition ghmc_propose : list computation := [
  ComputePerDof "v" ("v" + 0.5 * "dt" * "f" / "m");
  ComputePerDof "x" ("x" + "v" * "dt");
  ComputePerDof "x1" "x";
  ConstrainPositions;
  ComputePerDof "v" ("v" + 0.5 * "dt" * "f" / "m" + ("x" - "x1") / "dt");
  ConstrainVelocities
].

Definition ghmc_rollback : list computation := [
  BeginIfBlock (Cond "accept" CmpNe 1);
  ComputePerDof "x" "xold";
  ComputePerDof "v" (- "vold");
  EndBlock
].

Definition ghmc_program : list computation :=
  ghmc_mix_velocities ++ ghmc_snapshot ++ ghmc_propose ++ total_energy "Enew"
  ++ [metropolis_accept] ++ ghmc_rollback ++ ghmc_randomize ++ statistics.

(* ----------------------------------------------------------------- *)
(** *** [LangevinSplittingIntegrator] *)

(** The fraction of the time step one occurrence of a kind advances, and
    the three updates, as the constructor formats them from the counts. *)
Definition substep (n : nat) : expr := ("dt" / INR n)%E.

Definition drift_update (n_A : nat) : computation :=
  ComputePerDof "x" ("x" + substep n_A * "v").

Definition kick_update (n_B : nat) : computation :=
  ComputePerDof "v" ("v" + substep n_B * "f").

Definition ou_update : computation :=
  ComputePerDof "v" ("b" * "v" + Sqrt ("kT" * (1 - "b" * "b")) * "gaussian" / Sqrt "m").

Definition update_of (n_A n_B : nat) (symbol : ascii) : computation :=
  if Ascii.eqb symbol "A" then drift_update n_A
  else if Ascii.eqb symbol "B" then kick_update n_B
  else ou_update.

(** Everything one symbol of the splitting contributes, in the order of the
    loop body: energies before, the update, constraints, energies after,
    accumulation. *)
Definition langevin_block (n_A n_B : nat) (mw mh pc vc : bool) (symbol : ascii)
  : list computation :=
  let ke : expr := (0.5 * "m" * "v" * "v")%E in
  let on c := Ascii.eqb symbol c in
  (if (mw || mh) && (on "O"%char || on "B"%char) then [ComputeSum "old_ke" ke] else [])
  ++ (if (mw || mh) && mw && on "A"%char then [ComputeGlobal "old_pe" "energy"] else [])
  ++ [update_of n_A n_B symbol]
  ++ (if pc && on "A"%char then [ConstrainPositions] else [])
  ++ (if vc && (on "O"%char || on "B"%char) then [ConstrainVelocities] else [])
  ++ (if on "O"%char && (mw || mh) then [ComputeSum "new_ke" ke] else [])
  ++ (if mw && on "A"%char then [ComputeGlobal "new_pe" "energy"] else [])
  ++ (if mw && on "A"%char
      then [ComputeGlobal "shadow_work" ("shadow_work" + ("new_pe" - "old_pe"))] else [])
  ++ (if mw && on "B"%char
      then [ComputeGlobal "shadow_work" ("shadow_work" + ("new_ke" - "old_ke"))] else [])
  ++ (if mh && on "O"%char then [ComputeGlobal "heat" ("heat" + ("new_ke" - "old_ke"))] else []).

Definition langevin_program (n_A n_B : nat) (mw mh pc vc : bool) (scheme : list ascii)
  : list computation :=
  List.concat (map (langevin_block n_A n_B mw mh pc vc) scheme).

Definition is_per_dof (i : computation) : bool :=
  match i with ComputePerDof _ _ => true | _ => false end.

(** The per-DOF updates of a program, in order. *)
Definition per_dof_updates (p : list computation) : list computation :=
  filter is_per_dof p.

(** A valid splitting scheme, in the words of the specification: only the
    symbols A, B and O, each of them present, and O exactly once. *)
Definition valid_scheme (scheme : list ascii) : Prop :=
  (forall c, In c scheme -> c = "A"%char \/ c = "B"%char \/ c = "O"%char)
  /\ In "A"%char scheme /\ In "B"%char scheme /\ In "O"%char scheme
  /\ count_occ ascii_dec scheme "O"%char = 1%nat.

(* ================================================================= *)
(** ** Observations of a context *)

Definition get_global (c : context) (name : string) : num :=
  match globals c name with Some a => a | None => NaN end.

Definition get_perdof (name : string) (d : dof) : num :=
  match perdof d name with Some a => a | None => NaN end.

(** The draws the next [uniform] and the next [gaussian] will deliver. *)
Definition next_uniform (c : context) : num :=
  uniform_draws (ctx_rng c) (uniform_used (ctx_rng c)).

Definition next_gaussian (d : dof) : num :=
  gaussian_draws (dof_rng d) (gaussian_used (dof_rng d)).

(** Kinetic and potential energy of a context. *)
Definition kinetic_energy (c : context) : num :=
  fold_left nadd
    (map (fun d => nmul (nmul (nmul (Fin 0.5) (mass d)) (vel d)) (vel d)) (dofs c))
    (Fin 0).

Definition potential_energy (E : Engine) (c : context) : num :=
  potential E (positions c).

(** The context after a stretch of a program, run from outside any block. *)
Definition after (E : Engine) (p : list computation) (c : context) : context :=
  snd (run E p (O, c)).

(** A stretch without block delimiters. *)
Definition is_plain (i : computation) : bool :=
  match i with BeginIfBlock _ | EndBlock => false | _ => true end.

(** The global a computation assigns, if any, and the per-DOF name. *)
Definition global_target (i : computation) : option string :=
  match i with
  | ComputeGlobal name _ | ComputeSum name _ => Some name
  | _ => None
  end.

Definition keeps_global (name : string) (i : computation) : bool :=
  match global_target i with
  | Some n => negb (n =? name)%string
  | None => true
  end.

Definition keeps_perdof (name : string) (i : computation) : bool :=
  match i with
  | ComputePerDof n _ => negb (n =? name)%string
  | _ => true
  end.

(** Positions move only under a per-DOF assignment to [x], a projection of
    the positions, or the engine's context update; likewise velocities. *)
Definition keeps_positions (i : computation) : bool :=
  match i with
  | ComputePerDof n _ => negb (n =? "x")%string
  | ConstrainPositions | UpdateContextState => false
  | _ => true
  end.

Definition keeps_velocities (i : computation) : bool :=
  match i with
  | ComputePerDof n _ => negb (n =? "v")%string
  | ConstrainVelocities | UpdateContextState => false
  | _ => true
  end.

(** A stretch that leaves no block open: run from outside any block, it
    ends outside any block. *)
Definition closed (E : Engine) (p : list computation) : Prop :=
  forall c, fst (run E p (O, c)) = O.

(** The shape of a Metropolized program: a stretch [pre], the accept
    computation on a test quantity, a stretch [post], the statistics.  It is
    well formed when no block is left open by [pre] or by [post], [pre]
    leaves the counters alone and [post] the counters and [accept]. *)
Definition metropolized_program (pre : list computation) (e : expr)
    (post : list computation) : list computation :=
  pre ++ [ComputeGlobal "accept" (Step e)] ++ post ++ statistics.

Record metropolized (E : Engine) (pre post : list computation) : Prop := {
  m_pre_closed : closed E pre;
  m_post_closed : closed E post;
  m_pre_naccept : forallb (keeps_global "naccept") pre = true;
  m_pre_ntrials : forallb (keeps_global "ntrials") pre = true;
  m_post_accept : forallb (keeps_global "accept") post = true;
  m_post_naccept : forallb (keeps_global "naccept") post = true;
  m_post_ntrials : forallb (keeps_global "ntrials") post = true
}.

(** The test quantities of the accept computations and the stretches that
    precede them. *)
Definition metropolis_test : expr := (Exp (- ("Enew" - "Eold") / "kT") - "uniform")%E.
Definition mc_test : expr := (Exp (- ("energy" - "Eold") / "kT") - "uniform")%E.

Definition mc_pre : list computation :=
  mc_draw_velocities ++ mc_snapshot ++ mc_propose.
Definition hmc_pre (nsteps : Z) : list computation :=
  hmc_draw_velocities ++ hmc_snapshot ++ hmc_propose nsteps ++ total_energy "Enew".
Definition ghmc_pre : list computation :=
  ghmc_mix_velocities ++ ghmc_snapshot ++ ghmc_propose ++ total_energy "Enew".

(** The three Metropolized integrators, their constructors, the stretch of
    each program that precedes the accept computation, and the energy of
    the proposed state the accept computation reads: the register [Enew],
    or, for [MetropolisMonteCarloIntegrator], the potential energy itself. *)
Inductive variant : Type :=
| MetropolisMC
| HMC (nsteps : Z)
| GHMC.

Definition construct (kB temperature sigma collision_rate timestep : R)
    (k : variant) : result CustomIntegrator :=
  match k with
  | MetropolisMC => MetropolisMonteCarloIntegrator kB temperature sigma timestep
  | HMC nsteps => HMCIntegrator kB temperature nsteps timestep
  | GHMC => GHMCIntegrator kB temperature collision_rate timestep
  end.

Definition before_accept (k : variant) : list computation :=
  match k with
  | MetropolisMC => mc_pre
  | HMC nsteps => hmc_pre nsteps
  | GHMC => ghmc_pre
  end.

Definition accept_test (k : variant) : expr :=
  match k with
  | MetropolisMC => mc_test
  | _ => metropolis_test
  end.

Definition after_accept (k : variant) : list computation :=
  match k with
  | MetropolisMC => mc_restore
  | HMC _ => hmc_restore
  | GHMC => ghmc_rollback ++ ghmc_randomize
  end.

Definition proposed_energy (E : Engine) (k : variant) (c : context) : num :=
  match k with
  | MetropolisMC => potential_energy E c
  | _ => get_global c "Enew"
  end.

(** The stretch of each program that precedes the snapshot of the energy,
    and the stretch that ends with the proposal. *)
Definition before_snapshot (k : variant) : list computation :=
  match k with
  | MetropolisMC => mc_draw_velocities
  | HMC _ => hmc_draw_velocities
  | GHMC => ghmc_mix_velocities
  end.

Definition before_evaluation (k : variant) : list computation :=
  match k with
  | MetropolisMC => mc_draw_velocities ++ mc_snapshot ++ mc_propose
  | HMC nsteps => hmc_draw_velocities ++ hmc_snapshot ++ hmc_propose nsteps
  | GHMC => ghmc_mix_velocities ++ ghmc_snapshot ++ ghmc_propose
  end.

(** The value of the velocity randomization for one degree of freedom:
    [sqrt(b)*v + sqrt(1-b)*sigma*gaussian], with [b] and [sigma] as the
    context has them for that degree of freedom and the next gaussian draw. *)
Definition remix (E : Engine) (c : context) (i : nat) (d : dof) : num :=
  nadd (nmul (nsqrt (dof_lookup E c i d "b")) (vel d))
       (nmul (nmul (nsqrt (nsub (Fin 1) (dof_lookup E c i d "b")))
                   (dof_lookup E c i d "sigma"))
             (next_gaussian d)).

(** The velocity-constraint projection of a vector of velocities. *)
Definition project_velocities (E : Engine) (c : context) (vs : list num) : list num :=
  mapi (fun i _ => constrain_velocities E (positions c) vs i) (dofs c).

(** The quantity under [step] in the accept computation, for given
    energies, thermal energy and uniform draw. *)
Definition metropolis_margin (e_new e_old kT u : num) : num :=
  nsub (nexp (ndiv (nneg (nsub e_new e_old)) kT)) u.

(** The fraction of the time step an update advances by: the factor in
    front of the velocity in a drift, of the force in a kick. *)
Definition weight_of (target : string) (i : computation) : option expr :=
  match i with
  | ComputePerDof name (Add (Var y) (Mul w (Var _))) =>
      if ((name =? target) && (y =? target))%string then Some w else None
  | _ => None
  end.

Definition weights (target : string) (p : list computation) : list expr :=
  flat_map (fun i => match weight_of target i with Some w => [w] | None => [] end) p.

(** The sum of a kind's weights over one pass of a program, in a context. *)
Definition weight_sum (E : Engine) (c : context) (target : string)
    (p : list computation) : num :=
  fold_left nadd
    (map (fun w => fst (eval E (global_lookup E c) w (ctx_rng c))) (weights target p))
    (Fin 0).

(* ================================================================= *)
(** ** Test systems *)

(** Component [i] of a vector. *)
Definition component (xs : list num) (i : nat) : num := nth i xs NaN.

(** Independent harmonic oscillators of unit spring constant, without
    constraints: [U = sum x^2/2], [f = -x]. *)
Definition harmonic_oscillator (nan_step : bool) : Engine :=
  {| force := fun xs i => nneg (component xs i);
     potential := fun xs =>
       fold_left nadd (map (fun x => nmul (Fin 0.5) (nmul x x)) xs) (Fin 0);
     constrain_positions := component;
     constrain_velocities := fun _ vs => component vs;
     update_positions := fun xs _ => component xs;
     update_velocities := fun _ vs => component vs;
     nan_step := nan_step |}.

(** Two particles of unit mass in harmonic wells, held at distance 1 by a
    rigid bond: positions are projected by moving both particles along the
    bond, about their midpoint; velocities by giving both the mean velocity. *)
Definition rigid_pair : Engine :=
  let midpoint (xs : list num) :=
    ndiv (nadd (component xs 0) (component xs 1)) (Fin 2) in
  {| force := fun xs i => nneg (component xs i);
     potential := fun xs =>
       fold_left nadd (map (fun x => nmul (Fin 0.5) (nmul x x)) xs) (Fin 0);
     constrain_positions := fun xs i =>
       match i with
       | O => nsub (midpoint xs) (Fin 0.5)
       | _ => nadd (midpoint xs) (Fin 0.5)
       end;
     constrain_velocities := fun _ vs _ => midpoint vs;
     update_positions := fun xs _ => component xs;
     update_velocities := fun _ vs => component vs;
     nan_step := false |}.

(** A source whose first gaussian draw is 0 and whose later ones are [g]. *)
Definition late_rng (g : R) : rng :=
  mkRng (fun n => match n with O => Fin 0 | _ => Fin g end) (fun _ => Fin 0) 0 0.

(** The pair at rest at positions 0 and 1, with later draws 1 and -1. *)
Definition pair_at_rest : list particle :=
  [mkParticle (Fin 1) (Fin 0) (Fin 0) (late_rng 1);
   mkParticle (Fin 1) (Fin 1) (Fin 0) (late_rng (-1))].

(** A source that delivers the same two values for ever. *)
Definition constant_rng (g u : num) : rng :=
  mkRng (fun _ => g) (fun _ => u) 0 0.

(** The value of [kB] in kJ/(mol K), and the temperature at which the
    thermal energy is 1 kJ/mol. *)
Definition kB_md : R := 0.0083144621.
Definition unit_temperature : R := / kB_md.

(** One particle of unit mass at [x0], at rest, whose gaussian draws are
    all [g]. *)
Definition one_particle (x0 g : num) : list particle :=
  [mkParticle (Fin 1) x0 (Fin 0) (constant_rng g (Fin 0))].

(** The source of a context whose uniform draws are all [u]. *)
Definition uniform_source (u : R) : rng := constant_rng (Fin 0) (Fin u).

(* ================================================================= *)
(** ** The other integrators of the module *)

(** [DummyIntegrator.__init__()] *)
Definition DummyIntegrator : result CustomIntegrator :=
  let timestep := 0 in
  let self := init timestep in
  Ok (seq_ [
    addUpdateContextState;
    addConstrainPositions;
    addConstrainVelocities
  ] self).

(** [VelocityVerletIntegrator.__init__(timestep)] *)
Definition VelocityVerletIntegrator (timestep : R) : result CustomIntegrator :=
  let self := init timestep in
  Ok (seq_ [
    addPerDofVariable "x1" 0;
    addUpdateContextState;
    addComputePerDof "v" ("v" + 0.5 * "dt" * "f" / "m");
    addComputePerDof "x" ("x" + "dt" * "v");
    addComputePerDof "x1" "x";
    addConstrainPositions;
    addComputePerDof "v" ("v" + 0.5 * "dt" * "f" / "m" + ("x" - "x1") / "dt");
    addConstrainVelocities
  ] self).

(** [AndersenVelocityVerletIntegrator.__init__(temperature, collision_rate,
    timestep)] *)
Definition AndersenVelocityVerletIntegrator (kB : R) (temperature collision_rate timestep : R)
  : result CustomIntegrator :=
  let self := init timestep in
  (* Integrator initialization. *)
  let kT := kB * temperature in
  Ok (seq_ [
    addGlobalVariable "kT" kT;
    addGlobalVariable "p_collision" (timestep * collision_rate);
    addPerDofVariable "sigma_v" 0;
    addPerDofVariable "collision" 0;
    addPerDofVariable "x1" 0;
    (* Update velocities from Maxwell-Boltzmann distribution for particles
       that collide. *)
    addComputePerDof "sigma_v" (Sqrt ("kT" / "m"));
    addComputePerDof "collision" (Step ("p_collision" - "uniform"));
    addComputePerDof "v" ((1 - "collision") * "v" + "collision" * "sigma_v" * "gaussian");
    (* Velocity Verlet step *)
    addUpdateContextState;
    addComputePerDof "v" ("v" + 0.5 * "dt" * "f" / "m");
    addComputePerDof "x" ("x" + "dt" * "v");
    addComputePerDof "x1" "x";
    addConstrainPositions;
    addComputePerDof "v" ("v" + 0.5 * "dt" * "f" / "m" + ("x" - "x1") / "dt");
    addConstrainVelocities
  ] self).

(** [VVVRIntegrator.__init__(temperature, collision_rate, timestep)] *)
Definition VVVRIntegrator (kB : R) (temperature collision_rate timestep : R)
  : result CustomIntegrator :=
  (* Compute constants. *)
  let kT := kB * temperature in
  let gamma := collision_rate in
  (* Create a new custom integrator. *)
  let self := init timestep in
  Ok (seq_ [
    (* Integrator initialization. *)
    addGlobalVariable "kT" kT;
    addGlobalVariable "b" (exp (- gamma * timestep));
    addPerDofVariable "sigma" 0;
    addPerDofVariable "x1" 0;
    (* Allow context updating here. *)
    addUpdateContextState;
    (* Pre-computation. *)
    addComputePerDof "sigma" (Sqrt ("kT" / "m"));
    (* Velocity perturbation. *)
    addComputePerDof "v" (Sqrt "b" * "v" + Sqrt (1 - "b") * "sigma" * "gaussian");
    addConstrainVelocities;
    (* Metropolized symplectic step. *)
    addComputePerDof "v" ("v" + 0.5 * "dt" * "f" / "m");
    addComputePerDof "x" ("x" + "v" * "dt");
    addComputePerDof "x1" "x";
    addConstrainPositions;
    addComputePerDof "v" ("v" + 0.5 * "dt" * "f" / "m" + ("x" - "x1") / "dt");
    addConstrainVelocities;
    (* Velocity randomization *)
    addComputePerDof "v" (Sqrt "b" * "v" + Sqrt (1 - "b") * "sigma" * "gaussian");
    addConstrainVelocities
  ] self).

(** The programs these constructors emit. *)
Definition dummy_program : list computation :=
  [UpdateContextState; ConstrainPositions; ConstrainVelocities].

Definition vv_program : list computation := UpdateContextState :: velocity_verlet.

Definition andersen_thermostat : list computation := [
  ComputePerDof "sigma_v" (Sqrt ("kT" / "m"));
  ComputePerDof "collision" (Step ("p_collision" - "uniform"));
  ComputePerDof "v" ((1 - "collision") * "v" + "collision" * "sigma_v" * "gaussian")
].

Definition andersen_program : list computation := andersen_thermostat ++ vv_program.

Definition vvvr_program : list computation :=
  [UpdateContextState; ComputePerDof "sigma" (Sqrt ("kT" / "m"))]
  ++ ghmc_randomize ++ ghmc_propose ++ ghmc_randomize.

(** An engine without constraints whose forces leave the state alone in
    [updateContextState]: the projections and the update give every
    component back. *)
Definition free (E : Engine) : Prop :=
  (forall xs i, constrain_positions E xs i = component xs i)
  /\ (forall xs vs i, constrain_velocities E xs vs i = component vs i)
  /\ (forall xs vs i, update_positions E xs vs i = component xs i)
  /\ (forall xs vs i, update_velocities E xs vs i = component vs i).

(** The masses of a context. *)
Definition masses (c : context) : list num := map mass (dofs c).

(** The velocity Verlet map on the vectors of an unconstrained system with
    time step [h]: the half kick [v + 0.5*dt*f/m], the drift [x + dt*v], and
    the second half kick [v + 0.5*dt*f/m + (x - x1)/dt] in which [x1] is
    [x] itself. *)
Definition half_kick (E : Engine) (h : num) (xs vs ms : list num) : list num :=
  mapi (fun i v =>
          nadd v (ndiv (nmul (nmul (Fin 0.5) h) (force E xs i)) (component ms i)))
       vs.

Definition drift (h : num) (xs vs : list num) : list num :=
  mapi (fun i x => nadd x (nmul h (component vs i))) xs.

Definition second_kick (E : Engine) (h : num) (xs vs ms : list num) : list num :=
  mapi (fun i v =>
          nadd (nadd v (ndiv (nmul (nmul (Fin 0.5) h) (force E xs i)) (component ms i)))
               (ndiv (nsub (component xs i) (component xs i)) h))
       vs.

(** A vector of finite numbers. *)
Definition finite (xs : list num) : Prop := exists rs, xs = map Fin rs.

(** An engine whose forces are finite wherever the positions are. *)
Definition finite_forces (E : Engine) : Prop :=
  forall xs, finite xs -> forall i, (i < List.length xs)%nat ->
  exists f, force E xs i = Fin f.

(** The contexts of a simulation: the context created for the integrator,
    and every context a step leads to. *)
Inductive reachable (E : Engine) (I : CustomIntegrator) : context -> Prop :=
| reachable_new (system : list particle) (r : rng) :
    reachable E I (createContext I system r)
| reachable_step (c : context) :
    reachable E I c -> reachable E I (step E I c).

(** [HMCIntegrator.n_accept] and [HMCIntegrator.n_trials]: the two counters,
    read back with [getGlobalVariableByName]. *)
Definition n_accept (c : context) : num := get_global c "naccept".
Definition n_trials (c : context) : num := get_global c "ntrials".

(** [a / float(b)] on two floats of the host language: a zero divisor
    raises, whatever the dividend. *)
Inductive quotient : Type :=
| Quotient (q : num)
| ZeroDivisionError.

Definition truediv (a b : num) : quotient :=
  match b with
  | Fin r =>
      if Req_dec_T r 0 then ZeroDivisionError
      else Quotient (match a with Fin x => Fin (x / r) | NaN => NaN end)
  | NaN => Quotient NaN
  end.

(** [HMCIntegrator.acceptance_rate] *)
Definition acceptance_rate (c : context) : quotient :=
  truediv (n_accept c) (n_trials c).

(** The globals [LangevinSplittingIntegrator] registers, by its two
    monitoring flags. *)
Definition langevin_globals (kT b : R) (mw mh : bool) : list (string * R) :=
  [("kT", kT); ("b", b)]
  ++ (if mw || mh then [("old_ke", 0); ("new_ke", 0)] else [])
  ++ (if (mw || mh) && mw then [("shadow_work", 0); ("old_pe", 0); ("new_pe", 0)] else [])
  ++ (if (mw || mh) && mh then [("heat", 0)] else []).

(** A call of one of the constructors of the module. *)
Inductive call : Type :=
| CallDummy
| CallVelocityVerlet (timestep : R)
| CallAndersenVelocityVerlet (temperature collision_rate timestep : R)
| CallMetropolisMonteCarlo (temperature sigma timestep : R)
| CallHMC (temperature : R) (nsteps : Z) (timestep : R)
| CallGHMC (temperature collision_rate timestep : R)
| CallVVVR (temperature collision_rate timestep : R)
| CallLangevinSplitting (splitting : string) (temperature collision_rate timestep : R)
    (monitor_work monitor_heat position_constraints velocity_constraints : bool).

Definition make (kB : R) (k : call) : result CustomIntegrator :=
  match k with
  | CallDummy => DummyIntegrator
  | CallVelocityVerlet timestep => VelocityVerletIntegrator timestep
  | CallAndersenVelocityVerlet temperature collision_rate timestep =>
      AndersenVelocityVerletIntegrator kB temperature collision_rate timestep
  | CallMetropolisMonteCarlo temperature sigma timestep =>
      MetropolisMonteCarloIntegrator kB temperature sigma timestep
  | CallHMC temperature nsteps timestep => HMCIntegrator kB temperature nsteps timestep
  | CallGHMC temperature collision_rate timestep =>
      GHMCIntegrator kB temperature collision_rate timestep
  | CallVVVR temperature collision_rate timestep =>
      VVVRIntegrator kB temperature collision_rate timestep
  | CallLangevinSplitting splitting temperature collision_rate timestep mw mh pc vc =>
      LangevinSplittingIntegrator kB splitting temperature collision_rate timestep
                                  mw mh pc vc
  end.

(** The names an expression mentions. *)
Fixpoint names (e : expr) : list string :=
  match e with
  | Const _ => []
  | Var name => [name]
  | Neg a | Sqrt a | Exp a | Step a | Delta a => names a
  | Add a b | Sub a b | Mul a b | Div a b => names a ++ names b
  end.

Definition mem_name (name : string) (l : list string) : bool :=
  existsb (String.eqb name) l.

(** What the engine accepts when a context is created.  A global
    expression may mention the globals, [dt], [energy] and the two random
    sources; a per-DOF expression also [x], [v], [f], [m] and the per-DOF
    variables.  A global computation or a sum is stored in a global (or
    [dt]), a per-DOF computation in [x], [v] or a per-DOF variable. *)
Definition known_global (gs : list string) (name : string) : bool :=
  mem_name name ["dt"; "energy"; "uniform"; "gaussian"] || mem_name name gs.

Definition known_perdof (gs ps : list string) (name : string) : bool :=
  mem_name name ["x"; "v"; "f"; "m"] || known_global gs name || mem_name name ps.

Definition declared (gs ps : list string) (i : computation) : bool :=
  match i with
  | ComputeGlobal target e =>
      (mem_name target gs || (target =? "dt")%string)
      && forallb (known_global gs) (names e)
  | ComputeSum target e =>
      mem_name target gs && forallb (known_perdof gs ps) (names e)
  | ComputePerDof target e =>
      (mem_name target ["x"; "v"] || mem_name target ps)
      && forallb (known_perdof gs ps) (names e)
  | BeginIfBlock k =>
      forallb (known_global gs) (names (cond_lhs k))
      && forallb (known_global gs) (names (cond_rhs k))
  | _ => true
  end.

(** Every block that is opened is closed, and none is closed that was not
    opened. *)
Fixpoint balanced (depth : nat) (p : list computation) : bool :=
  match p with
  | [] => (depth =? 0)%nat
  | BeginIfBlock _ :: q => balanced (S depth) q
  | EndBlock :: q => match depth with O => false | S d => balanced d q end
  | _ :: q => balanced depth q
  end.

Definition well_formed (I : CustomIntegrator) : bool :=
  forallb (declared (map fst (globalVariables I)) (map fst (perDofVariables I)))
          (computations I)
  && balanced 0 (computations I).

(** The draw the next [uniform] of a per-DOF expression delivers to a
    degree of freedom. *)
Definition next_uniform_of (d : dof) : num :=
  uniform_draws (dof_rng d) (uniform_used (dof_rng d)).

(* ================================================================= *)
(** * Properties *)

(* ----------------------------------------------------------------- *)
(** ** Programs of the constructors *)

Lemma emit_nil (self : CustomIntegrator) : emit [] self = self.
Proof. destruct self; unfold emit; cbn. now rewrite app_nil_r. Qed.

Lemma emit_emit (cs1 cs2 : list computation) (self : CustomIntegrator) :
  emit cs2 (emit cs1 self) = emit (cs1 ++ cs2) self.
Proof. unfold emit; cbn. now rewrite app_assoc. Qed.

Lemma addComputation_emit (c : computation) (self : CustomIntegrator) :
  addComputation c self = emit [c] self.
Proof. reflexivity. Qed.

Ltac emit_norm :=
  cbv beta delta [seq_ pass when addUpdateContextState addConstrainPositions
                  addConstrainVelocities addComputeGlobal addComputePerDof
                  addComputeSum beginIfBlock endBlock] iota;
  rewrite ?addComputation_emit, ?emit_emit; cbn [app]; try reflexivity.

Lemma for_emit {A : Type} (xs : list A) (body : A -> stmt)
      (blk : A -> list computation) :
  (forall a self, body a self = emit (blk a) self) ->
  forall self, for_ xs body self = emit (List.concat (map blk xs)) self.
Proof.
  intros Hbody. unfold for_.
  induction xs as [|a xs IH]; intros self; cbn.
  - now rewrite emit_nil.
  - rewrite Hbody, IH, emit_emit. reflexivity.
Qed.

Lemma concat_map_const {A B : Type} (xs : list A) (b : list B) :
  List.concat (map (fun _ => b) xs) = List.concat (repeat b (List.length xs)).
Proof. induction xs as [|a xs IH]; cbn; [reflexivity | now rewrite IH]. Qed.

Lemma length_range (n : Z) : List.length (range n) = Z.to_nat n.
Proof. unfold range. now rewrite length_map, length_seq. Qed.

Lemma integrator_ext (a b : CustomIntegrator) :
  stepSize a = stepSize b ->
  globalVariables a = globalVariables b ->
  perDofVariables a = perDofVariables b ->
  computations a = computations b ->
  a = b.
Proof. destruct a, b; cbn; intros; subst; reflexivity. Qed.

Lemma MetropolisMonteCarloIntegrator_value (kB temperature sigma timestep : R) :
  MetropolisMonteCarloIntegrator kB temperature sigma timestep
  = Ok {| stepSize := timestep;
          globalVariables :=
            [("naccept", 0); ("ntrials", 0); ("kT", kB * temperature);
             ("Eold", 0); ("Enew", 0); ("accept", 0)];
          perDofVariables := [("sigma_x", sigma); ("sigma_v", 0); ("xold", 0)];
          computations := mc_program |}.
Proof. reflexivity. Qed.

Lemma HMCIntegrator_value (kB temperature : R) (nsteps : Z) (timestep : R) :
  HMCIntegrator kB temperature nsteps timestep
  = Ok {| stepSize := timestep;
          globalVariables :=
            [("naccept", 0); ("ntrials", 0); ("kT", kB * temperature);
             ("ke", 0); ("Eold", 0); ("Enew", 0); ("accept", 0)];
          perDofVariables := [("sigma", 0); ("xold", 0); ("x1", 0)];
          computations := hmc_program nsteps |}.
Proof.
  unfold HMCIntegrator. f_equal. apply integrator_ext.
  - cbn -[for_ range Rmult].
    now rewrite (for_emit _ _ (fun _ => velocity_verlet)) by (intros; emit_norm).
  - cbn -[for_ range Rmult].
    now rewrite (for_emit _ _ (fun _ => velocity_verlet)) by (intros; emit_norm).
  - cbn -[for_ range Rmult].
    now rewrite (for_emit _ _ (fun _ => velocity_verlet)) by (intros; emit_norm).
  - cbn -[for_ range Rmult].
    rewrite (for_emit _ _ (fun _ => velocity_verlet)) by (intros; emit_norm).
    cbn -[range Rmult]. rewrite concat_map_const, length_range.
    unfold hmc_program, hmc_propose. rewrite <- !app_assoc. reflexivity.
Qed.

Lemma GHMCIntegrator_value (kB temperature collision_rate timestep : R) :
  GHMCIntegrator kB temperature collision_rate timestep
  = Ok {| stepSize := timestep;
          globalVariables :=
            [("kT", kB * temperature); ("b", exp (- collision_rate * timestep));
             ("ke", 0); ("Eold", 0); ("Enew", 0); ("accept", 0);
             ("naccept", 0); ("ntrials", 0)];
          perDofVariables := [("sigma", 0); ("vold", 0); ("xold", 0); ("x1", 0)];
          computations := ghmc_program |}.
Proof. reflexivity. Qed.

Lemma MetropolisMonteCarloIntegrator_program (kB temperature sigma timestep : R) :
  exists I, MetropolisMonteCarloIntegrator kB temperature sigma timestep = Ok I
            /\ computations I = mc_program
            /\ globalVariables I =
                 [("naccept", 0); ("ntrials", 0); ("kT", kB * temperature);
                  ("Eold", 0); ("Enew", 0); ("accept", 0)].
Proof.
  rewrite MetropolisMonteCarloIntegrator_value. eexists.
  split; [reflexivity|]. split; reflexivity.
Qed.

Lemma HMCIntegrator_program (kB temperature : R) (nsteps : Z) (timestep : R) :
  exists I, HMCIntegrator kB temperature nsteps timestep = Ok I
            /\ computations I = hmc_program nsteps
            /\ globalVariables I =
                 [("naccept", 0); ("ntrials", 0); ("kT", kB * temperature);
                  ("ke", 0); ("Eold", 0); ("Enew", 0); ("accept", 0)].
Proof.
  rewrite HMCIntegrator_value. eexists.
  split; [reflexivity|]. split; reflexivity.
Qed.

Lemma GHMCIntegrator_program (kB temperature collision_rate timestep : R) :
  exists I, GHMCIntegrator kB temperature collision_rate timestep = Ok I
            /\ computations I = ghmc_program
            /\ globalVariables I =
                 [("kT", kB * temperature); ("b", exp (- collision_rate * timestep));
                  ("ke", 0); ("Eold", 0); ("Enew", 0); ("accept", 0);
                  ("naccept", 0); ("ntrials", 0)].
Proof.
  rewrite GHMCIntegrator_value. eexists.
  split; [reflexivity|]. split; reflexivity.
Qed.

Lemma for_raising_emit {A : Type} (xs : list A)
      (body : A -> CustomIntegrator -> result CustomIntegrator)
      (blk : A -> list computation) :
  (forall a self, In a xs -> body a self = Ok (emit (blk a) self)) ->
  forall self, for_raising xs body self = Ok (emit (List.concat (map blk xs)) self).
Proof.
  unfold for_raising.
  induction xs as [|a xs IH]; intros Hbody self; cbn.
  - now rewrite emit_nil.
  - rewrite Hbody by (now left).
    rewrite IH by (intros; apply Hbody; now right).
    now rewrite emit_emit.
Qed.

Lemma mem_char_In (c : ascii) (l : list ascii) : mem_char c l = true <-> In c l.
Proof.
  unfold mem_char. rewrite existsb_exists. split.
  - intros (y & Hy & Heq). apply Ascii.eqb_eq in Heq. now subst.
  - intros H. exists c. split; [assumption | apply Ascii.eqb_refl].
Qed.

Lemma set_eq_ABO (scheme : list ascii) :
  set_eq scheme (list_ascii_of_string "ABO") = true <->
  (forall c, In c scheme -> c = "A"%char \/ c = "B"%char \/ c = "O"%char)
  /\ In "A"%char scheme /\ In "B"%char scheme /\ In "O"%char scheme.
Proof.
  unfold set_eq. rewrite andb_true_iff, !forallb_forall. split.
  - intros [H1 H2]. split.
    + intros c Hc. apply H1, mem_char_In in Hc. cbn in Hc. intuition auto.
    + repeat split; apply mem_char_In, H2; cbn; auto.
  - intros (H1 & HA & HB & HO). split.
    + intros c Hc. apply mem_char_In. cbn. specialize (H1 c Hc). intuition auto.
    + intros c Hc. apply mem_char_In. cbn in Hc.
      destruct Hc as [<-|[<-|[<-|[]]]]; assumption.
Qed.

Lemma count_letter_count_occ (c : ascii) (l : list ascii) :
  count_letter c l = count_occ ascii_dec l c.
Proof.
  induction l as [|a l IH]; [reflexivity|].
  change (count_letter c (a :: l))
    with ((if Ascii.eqb a c then 1 else 0) + count_letter c l)%nat.
  cbn [count_occ]. rewrite IH.
  destruct (ascii_dec a c) as [->|Hne].
  - now rewrite Ascii.eqb_refl.
  - apply Ascii.eqb_neq in Hne. now rewrite Hne.
Qed.

(** The two assertions of the constructor hold exactly on the valid schemes. *)
Lemma assertions_valid_scheme (scheme : list ascii) :
  set_eq scheme (list_ascii_of_string "ABO") = true
  /\ (count_letter "O" scheme =? 1)%nat = true
  <-> valid_scheme scheme.
Proof.
  unfold valid_scheme. rewrite set_eq_ABO, Nat.eqb_eq, count_letter_count_occ.
  tauto.
Qed.

Lemma LangevinSplittingIntegrator_program
      (kB : R) (splitting : string) (temperature collision_rate timestep : R)
      (mw mh pc vc : bool) :
  let scheme := upper splitting in
  let n_A := count_letter "A" scheme in
  let n_B := count_letter "B" scheme in
  (valid_scheme scheme ->
   exists I,
     LangevinSplittingIntegrator kB splitting temperature collision_rate timestep
                                 mw mh pc vc = Ok I
     /\ computations I = langevin_program n_A n_B mw mh pc vc scheme
     /\ stepSize I = timestep)
  /\ (~ valid_scheme scheme ->
      LangevinSplittingIntegrator kB splitting temperature collision_rate timestep
                                  mw mh pc vc = AssertionError).
Proof.
  intros scheme n_A n_B. unfold LangevinSplittingIntegrator.
  fold scheme. fold n_A. fold n_B. split.
  - intros Hv. pose proof Hv as Hv'.
    apply assertions_valid_scheme in Hv' as [Hset Hcnt].
    rewrite Hset, Hcnt. cbn [negb].
    destruct Hv as (Hsyms & _).
    erewrite (for_raising_emit _ _ (langevin_block n_A n_B mw mh pc vc)).
    + eexists. split; [reflexivity|].
      unfold langevin_program. destruct mw, mh; split; reflexivity.
    + intros a self Ha. destruct (Hsyms a Ha) as [-> | [-> | ->]];
        destruct mw, mh, pc, vc; cbn; emit_norm.
  - intros Hnv.
    destruct (set_eq scheme (list_ascii_of_string "ABO")) eqn:Hset; [|reflexivity].
    destruct (count_letter "O" scheme =? 1)%nat eqn:Hcnt; [|reflexivity].
    exfalso. apply Hnv, assertions_valid_scheme. now split.
Qed.

(* ----------------------------------------------------------------- *)
(** ** Validation of the splitting string *)

Lemma per_dof_updates_block (n_A n_B : nat) (mw mh pc vc : bool) (symbol : ascii) :
  per_dof_updates (langevin_block n_A n_B mw mh pc vc symbol)
  = [update_of n_A n_B symbol].
Proof.
  unfold langevin_block, update_of. cbv zeta.
  destruct (Ascii.eqb symbol "A"), (Ascii.eqb symbol "B"), (Ascii.eqb symbol "O"),
    mw, mh, pc, vc; reflexivity.
Qed.

Lemma per_dof_updates_program (n_A n_B : nat) (mw mh pc vc : bool)
      (scheme : list ascii) :
  per_dof_updates (langevin_program n_A n_B mw mh pc vc scheme)
  = map (update_of n_A n_B) scheme.
Proof.
  unfold langevin_program, per_dof_updates.
  induction scheme as [|a l IH]; [reflexivity|].
  cbn [map List.concat]. rewrite filter_app, IH.
  change (filter is_per_dof (langevin_block n_A n_B mw mh pc vc a))
    with (per_dof_updates (langevin_block n_A n_B mw mh pc vc a)).
  now rewrite per_dof_updates_block.
Qed.

(** C4.  Construction of a [LangevinSplittingIntegrator] succeeds on
    exactly the splitting strings that, read without regard to case, use
    only the symbols A, B and O, use each of them, and use O once; on every
    other string it fails with the constructor's assertion.  On success the
    per-DOF updates of the program are the updates of the symbols of the
    upper-cased string, one per symbol and in the order of the string.  The
    outcome depends on the string only through its upper-casing. *)
Theorem C4_splitting_validation
        (kB : R) (splitting : string) (temperature collision_rate timestep : R)
        (mw mh pc vc : bool) :
  let scheme := upper splitting in
  let construct s :=
    LangevinSplittingIntegrator kB s temperature collision_rate timestep mw mh pc vc in
  (valid_scheme scheme ->
   exists I, construct splitting = Ok I
     /\ per_dof_updates (computations I)
        = map (update_of (count_letter "A" scheme) (count_letter "B" scheme)) scheme)
  /\ (~ valid_scheme scheme -> construct splitting = AssertionError)
  /\ (forall s', upper s' = scheme -> construct s' = construct splitting).
Proof.
  intros scheme construct.
  destruct (LangevinSplittingIntegrator_program kB splitting temperature
              collision_rate timestep mw mh pc vc) as [Hok Hfail].
  split; [|split].
  - intros Hv. destruct (Hok Hv) as (I & HI & Hprog & _).
    exists I. split; [exact HI|].
    rewrite Hprog. apply per_dof_updates_program.
  - exact Hfail.
  - intros s' Hs'. unfold construct, LangevinSplittingIntegrator.
    now rewrite Hs'.
Qed.

Lemma valid_BAOAB : valid_scheme (upper "baoAB").
Proof.
  apply assertions_valid_scheme. split; reflexivity.
Qed.

Lemma invalid_ABOO : ~ valid_scheme (upper "ABOO").
Proof.
  intros H. apply assertions_valid_scheme in H as [_ H]. discriminate H.
Qed.

Lemma C4_splitting_validation_witness :
  (exists I,
      LangevinSplittingIntegrator kB_md "baoAB" 298 91 0.001 false false true true = Ok I
      /\ per_dof_updates (computations I)
         = [kick_update 2; drift_update 2; ou_update; drift_update 2; kick_update 2])
  /\ LangevinSplittingIntegrator kB_md "ABOO" 298 91 0.001 false false true true
     = AssertionError.
Proof.
  split.
  - exact (proj1 (C4_splitting_validation kB_md "baoAB" 298 91 0.001
                    false false true true) valid_BAOAB).
  - exact (proj1 (proj2 (C4_splitting_validation kB_md "ABOO" 298 91 0.001
                           false false true true)) invalid_ABOO).
Defined.

(* ----------------------------------------------------------------- *)
(** ** The number of inner steps of [HMCIntegrator] *)

(** C9, as the code has it.  [HMCIntegrator] is constructed for every
    integer [nsteps]; nothing is checked.  The program carries
    [max 0 nsteps] repetitions of the velocity Verlet step between the
    snapshot and the energy evaluation: exactly [nsteps] of them when
    [nsteps] is positive, none when [nsteps <= 0]. *)
Theorem C9_hmc_accepts_every_nsteps (kB temperature : R) (nsteps : Z) (timestep : R) :
  exists I repetitions,
    HMCIntegrator kB temperature nsteps timestep = Ok I
    /\ computations I
       = hmc_draw_velocities ++ hmc_snapshot
         ++ List.concat (repeat velocity_verlet repetitions)
         ++ total_energy "Enew" ++ [metropolis_accept] ++ hmc_restore ++ statistics
    /\ Z.of_nat repetitions = Z.max 0 nsteps.
Proof.
  destruct (HMCIntegrator_program kB temperature nsteps timestep)
    as (I & HI & Hprog & _).
  exists I, (Z.to_nat nsteps). split; [exact HI|]. split; [exact Hprog|].
  lia.
Qed.

(** C9, counterexample.  With [nsteps = 0] and with [nsteps = -3] the
    constructor returns an integrator, whose program goes from the snapshot
    straight to the energy evaluation. *)
Lemma C9_nonpositive_nsteps_constructs :
  exists I0 I3,
    HMCIntegrator kB_md 298 0 0.001 = Ok I0
    /\ HMCIntegrator kB_md 298 (-3) 0.001 = Ok I3
    /\ computations I0 = computations I3
    /\ computations I0
       = hmc_draw_velocities ++ hmc_snapshot ++ total_energy "Enew"
         ++ [metropolis_accept] ++ hmc_restore ++ statistics.
Proof.
  do 2 eexists. repeat split; reflexivity.
Qed.

(* ----------------------------------------------------------------- *)
(** ** The substeps of a splitting *)

Lemma weights_block (target : string) (n_A n_B : nat) (mw mh pc vc : bool)
      (symbol : ascii) :
  weights target (langevin_block n_A n_B mw mh pc vc symbol)
  = weights target [update_of n_A n_B symbol].
Proof.
  unfold langevin_block, update_of. cbv zeta.
  destruct (Ascii.eqb symbol "A"), (Ascii.eqb symbol "B"), (Ascii.eqb symbol "O"),
    mw, mh, pc, vc; reflexivity.
Qed.

Lemma weights_app (target : string) (p q : list computation) :
  weights target (p ++ q) = weights target p ++ weights target q.
Proof. unfold weights. apply flat_map_app. Qed.

Lemma count_letter_cons (c a : ascii) (l : list ascii) :
  count_letter c (a :: l)
  = ((if Ascii.eqb a c then 1 else 0) + count_letter c l)%nat.
Proof. reflexivity. Qed.

Lemma drift_weights (n_A n_B : nat) (mw mh pc vc : bool) (scheme : list ascii) :
  weights "x" (langevin_program n_A n_B mw mh pc vc scheme)
  = repeat (substep n_A) (count_letter "A" scheme).
Proof.
  unfold langevin_program.
  induction scheme as [|a l IH]; [reflexivity|].
  cbn [map List.concat]. rewrite weights_app, IH, weights_block, count_letter_cons.
  unfold update_of.
  destruct (Ascii.eqb a "A"); [reflexivity|].
  destruct (Ascii.eqb a "B"); reflexivity.
Qed.

Lemma kick_weights (n_A n_B : nat) (mw mh pc vc : bool) (scheme : list ascii) :
  weights "v" (langevin_program n_A n_B mw mh pc vc scheme)
  = repeat (substep n_B) (count_letter "B" scheme).
Proof.
  unfold langevin_program.
  induction scheme as [|a l IH]; [reflexivity|].
  cbn [map List.concat]. rewrite weights_app, IH, weights_block, count_letter_cons.
  unfold update_of.
  destruct (Ascii.eqb a "A") eqn:HA.
  - apply Ascii.eqb_eq in HA. subst a. reflexivity.
  - destruct (Ascii.eqb a "B"); reflexivity.
Qed.

Lemma fold_nadd_repeat (a z : R) (k : nat) :
  fold_left nadd (repeat (Fin a) k) (Fin z) = Fin (z + INR k * a).
Proof.
  revert z. induction k as [|k IH]; intros z.
  - cbn. f_equal. lra.
  - cbn [repeat fold_left]. cbn [nadd lift2]. rewrite IH. f_equal.
    rewrite S_INR. lra.
Qed.

Lemma substep_value (E : Engine) (c : context) (h : R) (n : nat) :
  dt c = Fin h -> (1 <= n)%nat ->
  fst (eval E (global_lookup E c) (substep n) (ctx_rng c)) = Fin (h / INR n).
Proof.
  intros Hdt Hn. cbn. rewrite Hdt. cbn.
  destruct (Req_dec_T (INR n) 0) as [H0|_]; [|reflexivity].
  exfalso. apply (lt_INR 0) in Hn. cbn in Hn. lra.
Qed.

Lemma weight_sum_repeat (E : Engine) (c : context) (h : R) (n : nat)
      (target : string) (p : list computation) :
  dt c = Fin h -> (1 <= n)%nat ->
  weights target p = repeat (substep n) n ->
  weight_sum E c target p = Fin h.
Proof.
  intros Hdt Hn Hw. unfold weight_sum. rewrite Hw, map_repeat.
  rewrite (substep_value E c h n Hdt Hn), fold_nadd_repeat. f_equal.
  apply (lt_INR 0) in Hn. cbn in Hn. field. lra.
Qed.

Lemma count_letter_pos (c : ascii) (l : list ascii) :
  In c l -> (1 <= count_letter c l)%nat.
Proof.
  intros H. rewrite count_letter_count_occ.
  apply (count_occ_In ascii_dec) in H. lia.
Qed.

(** C6.  For a splitting the constructor accepts, with [n_A] drifts and
    [n_B] kicks: both counts are at least 1; every drift advances by the
    expression [dt / n_A] and there are [n_A] of them, every kick by
    [dt / n_B] and there are [n_B] of them; and in any context, whose time
    step is [h], the weights of the drifts of one pass of the program add
    up to [h], and so do the weights of the kicks. *)
Theorem C6_substeps_add_up_to_timestep
        (kB : R) (splitting : string) (temperature collision_rate timestep : R)
        (mw mh pc vc : bool) (I : CustomIntegrator) :
  LangevinSplittingIntegrator kB splitting temperature collision_rate timestep
                              mw mh pc vc = Ok I ->
  let n_A := count_letter "A" (upper splitting) in
  let n_B := count_letter "B" (upper splitting) in
  (1 <= n_A)%nat /\ (1 <= n_B)%nat
  /\ weights "x" (computations I) = repeat (substep n_A) n_A
  /\ weights "v" (computations I) = repeat (substep n_B) n_B
  /\ forall (E : Engine) (c : context) (h : R),
       dt c = Fin h ->
       weight_sum E c "x" (computations I) = Fin h
       /\ weight_sum E c "v" (computations I) = Fin h.
Proof.
  intros HI n_A n_B.
  destruct (LangevinSplittingIntegrator_program kB splitting temperature
              collision_rate timestep mw mh pc vc) as [Hok Hfail].
  assert (Hv : valid_scheme (upper splitting)).
  { destruct (set_eq (upper splitting) (list_ascii_of_string "ABO")) eqn:Hset.
    - destruct (count_letter "O" (upper splitting) =? 1)%nat eqn:Hcnt.
      + apply assertions_valid_scheme. now split.
      + unfold LangevinSplittingIntegrator in HI. rewrite Hset, Hcnt in HI.
        discriminate HI.
    - unfold LangevinSplittingIntegrator in HI. rewrite Hset in HI.
      discriminate HI. }
  destruct (Hok Hv) as (I' & HI' & Hprog & _).
  rewrite HI in HI'. injection HI' as <-.
  destruct Hv as (_ & HA & HB & _).
  assert (HnA : (1 <= n_A)%nat) by (apply count_letter_pos, HA).
  assert (HnB : (1 <= n_B)%nat) by (apply count_letter_pos, HB).
  assert (HwA : weights "x" (computations I) = repeat (substep n_A) n_A)
    by (rewrite Hprog; apply drift_weights).
  assert (HwB : weights "v" (computations I) = repeat (substep n_B) n_B)
    by (rewrite Hprog; apply kick_weights).
  repeat split; try assumption.
  - now apply (weight_sum_repeat E c h n_A).
  - now apply (weight_sum_repeat E c h n_B).
Qed.

Lemma C6_substeps_add_up_to_timestep_witness :
  exists I,
    LangevinSplittingIntegrator kB_md "BAOAB" 298 91 0.002 false false true true = Ok I
    /\ weights "x" (computations I) = [substep 2; substep 2]
    /\ weights "v" (computations I) = [substep 2; substep 2]
    /\ weight_sum (harmonic_oscillator false)
                  (createContext I [] (constant_rng (Fin 0) (Fin 0))) "x"
                  (computations I) = Fin 0.002
    /\ weight_sum (harmonic_oscillator false)
                  (createContext I [] (constant_rng (Fin 0) (Fin 0))) "v"
                  (computations I) = Fin 0.002.
Proof.
  eexists. split; [reflexivity|].
  pose proof (C6_substeps_add_up_to_timestep kB_md "BAOAB" 298 91 0.002
                false false true true _ eq_refl) as H.
  cbv zeta in H. destruct H as (_ & _ & HwA & HwB & Hsum).
  split; [exact HwA|]. split; [exact HwB|].
  apply (Hsum (harmonic_oscillator false) _ 0.002). reflexivity.
Defined.

(* ----------------------------------------------------------------- *)
(** ** The kick of a splitting *)

(** Settling the comparisons of reals an evaluation runs into. *)
Ltac decide_R :=
  repeat (match goal with
          | |- context [Req_dec_T ?a ?b] =>
              destruct (Req_dec_T a b); [try (exfalso; lra) | try (exfalso; lra)]
          | |- context [Rle_lt_dec ?a ?b] =>
              destruct (Rle_lt_dec a b); [try (exfalso; lra) | try (exfalso; lra)]
          end; cbn).

(** Closing an equation between numbers whose two sides are equal reals. *)
Ltac same_R :=
  repeat match goal with
    | |- _ = _ => reflexivity
    | |- Fin _ = Fin _ => apply (f_equal Fin); lra
    | |- _ :: _ = _ :: _ => apply f_equal2
    | |- (_, _) = (_, _) => apply f_equal2
    | |- Some _ = Some _ => apply f_equal
    end.

Lemma mapi_from_ext {A B : Type} (f g : nat -> A -> B) (l : list A) (k : nat) :
  (forall i a, f i a = g i a) -> mapi_from k f l = mapi_from k g l.
Proof.
  intros H. revert k. induction l as [|a l IH]; intros k; cbn; [reflexivity|].
  now rewrite H, IH.
Qed.

Lemma mapi_from_map {A B : Type} (g : A -> B) (l : list A) (k : nat) :
  mapi_from k (fun _ a => g a) l = map g l.
Proof.
  revert k. induction l as [|a l IH]; intros k; cbn; [reflexivity|].
  now rewrite IH.
Qed.

Lemma map_mapi_from {A B C : Type} (h : B -> C) (f : nat -> A -> B) (l : list A)
      (k : nat) :
  map h (mapi_from k f l) = mapi_from k (fun i a => h (f i a)) l.
Proof.
  revert k. induction l as [|a l IH]; intros k; cbn; [reflexivity|].
  now rewrite IH.
Qed.

Lemma mapi_from_of_map {A B C : Type} (f : nat -> B -> C) (g : A -> B) (l : list A)
      (k : nat) :
  mapi_from k f (map g l) = mapi_from k (fun i a => f i (g a)) l.
Proof.
  revert k. induction l as [|a l IH]; intros k; cbn; [reflexivity|].
  now rewrite IH.
Qed.

(** What a kick does to the velocities: the force enters undivided. *)
Lemma kick_update_velocities (E : Engine) (n_B : nat) (c : context) :
  velocities (exec E (kick_update n_B) c)
  = mapi (fun i d =>
            nadd (vel d)
                 (nmul (ndiv (dt c) (Fin (INR n_B))) (force E (positions c) i)))
         (dofs c).
Proof.
  unfold velocities. cbn. unfold mapi. rewrite map_mapi_from. reflexivity.
Qed.

(** C1, the code at the failing input.  The default splitting [BAOAB]
    gives the kick [v + (dt / 2) * f].  On a harmonic oscillator of mass 2
    at position 1, at rest, with time step 1, the force is -1 and the kick
    leaves the velocity at -1/2; the update [v + (dt / n_B) * f / m] would
    leave it at -1/4.  In every context the velocity after a kick does not
    depend on the mass. *)
Theorem C1_kick_update_omits_mass :
  exists I,
    LangevinSplittingIntegrator kB_md "BAOAB" 298 91 1 false false true true = Ok I
    /\ per_dof_updates (computations I)
       = [kick_update 2; drift_update 2; ou_update; drift_update 2; kick_update 2]
    /\ kick_update 2 = ComputePerDof "v" ("v" + "dt" / 2 * "f")
    /\ (let E := harmonic_oscillator false in
        let rest := constant_rng (Fin 0) (Fin 0) in
        let c := createContext I [mkParticle (Fin 2) (Fin 1) (Fin 0) rest] rest in
        force E (positions c) 0 = Fin (-1)
        /\ velocities (exec E (kick_update 2) c) = [Fin (-1 / 2)]
        /\ nadd (Fin 0) (ndiv (nmul (ndiv (dt c) (Fin 2)) (Fin (-1))) (Fin 2))
           = Fin (-1 / 4))
    /\ (forall (E : Engine) (c : context) (m' : num),
          velocities (exec E (kick_update 2)
                        (with_dofs (map (fun d => mkDof (pos d) (vel d) m' (perdof d)
                                                        (dof_rng d)) (dofs c)) c))
          = velocities (exec E (kick_update 2) c)).
Proof.
  assert (Hv : valid_scheme (upper "BAOAB"))
    by (apply assertions_valid_scheme; split; reflexivity).
  destruct (proj1 (LangevinSplittingIntegrator_program kB_md "BAOAB" 298 91 1
                     false false true true) Hv) as (I & HI & Hprog & Hdt).
  exists I. split; [exact HI|].
  split; [rewrite Hprog, per_dof_updates_program; reflexivity|].
  split; [unfold kick_update, substep; repeat f_equal|].
  split.
  - cbv zeta. unfold createContext. rewrite Hdt.
    split; [cbn; same_R|]. split.
    + rewrite kick_update_velocities. cbn. decide_R. same_R.
    + cbn. decide_R. same_R.
  - intros E c m'. rewrite !kick_update_velocities.
    unfold with_dofs, positions, mapi. cbn [dofs dt].
    rewrite map_map, mapi_from_of_map. reflexivity.
Qed.

(* ----------------------------------------------------------------- *)
(** ** Running a program *)

Section Running.

Variable E : Engine.

Lemma run_app (p q : list computation) (s : nat * context) :
  run E (p ++ q) s = run E q (run E p s).
Proof. unfold run. apply fold_left_app. Qed.

Lemma run_plain (p : list computation) (c : context) :
  forallb is_plain p = true ->
  run E p (O, c) = (O, fold_left (fun c i => exec E i c) p c).
Proof.
  revert c. induction p as [|i p IH]; intros c Hp; [reflexivity|].
  cbn in Hp. apply andb_true_iff in Hp as [Hi Hp].
  change (run E (i :: p) (O, c)) with (run E p (advance E (O, c) i)).
  destruct i; try discriminate Hi; cbn [advance fold_left]; now rewrite IH.
Qed.

Lemma after_app (p q : list computation) (c : context) :
  forallb is_plain p = true ->
  after E (p ++ q) c = after E q (after E p c).
Proof.
  intros Hp. unfold after. rewrite run_app, (run_plain p c Hp). reflexivity.
Qed.

Lemma after_cons (i : computation) (q : list computation) (c : context) :
  is_plain i = true ->
  after E (i :: q) c = after E q (exec E i c).
Proof.
  intros Hi. unfold after.
  change (run E (i :: q) (O, c)) with (run E q (advance E (O, c) i)).
  destruct i; try discriminate Hi; reflexivity.
Qed.

Lemma after_nil (c : context) : after E [] c = c.
Proof. reflexivity. Qed.

Lemma plain_concat_repeat (p : list computation) (n : nat) :
  forallb is_plain p = true ->
  forallb is_plain (List.concat (repeat p n)) = true.
Proof.
  intros Hp. induction n as [|n IH]; [reflexivity|].
  cbn [repeat List.concat]. rewrite forallb_app, Hp, IH. reflexivity.
Qed.

(** Computations that do not assign a global leave it as it is. *)
Lemma globals_exec (name : string) (i : computation) (c : context) :
  keeps_global name i = true ->
  globals (exec E i c) name = globals c name.
Proof.
  intros Hk. destruct i; try reflexivity; cbn in Hk; cbn [exec].
  - unfold compute_global.
    destruct (eval E (global_lookup E c) expression (ctx_rng c)) as [a r].
    unfold set_global. destruct (variable =? "dt")%string; [reflexivity|].
    cbn. rewrite String.eqb_sym.
    now destruct (variable =? name)%string.
  - unfold compute_sum, set_global.
    destruct (variable =? "dt")%string; [reflexivity|].
    cbn. rewrite String.eqb_sym.
    now destruct (variable =? name)%string.
Qed.

Lemma globals_advance (name : string) (i : computation) (s : nat * context) :
  keeps_global name i = true ->
  globals (snd (advance E s i)) name = globals (snd s) name.
Proof.
  intros Hk. destruct s as [[|k] c].
  - destruct i; cbn [advance snd]; try (now apply globals_exec).
    + now destruct (test E c0 c).
    + reflexivity.
  - destruct i; reflexivity.
Qed.

Lemma globals_run (name : string) (p : list computation) (s : nat * context) :
  forallb (keeps_global name) p = true ->
  globals (snd (run E p s)) name = globals (snd s) name.
Proof.
  revert s. induction p as [|i p IH]; intros s Hp; [reflexivity|].
  cbn in Hp. apply andb_true_iff in Hp as [Hi Hp].
  change (run E (i :: p) s) with (run E p (advance E s i)).
  rewrite IH by assumption. now apply globals_advance.
Qed.

Lemma get_global_after (name : string) (p : list computation) (c : context) :
  forallb (keeps_global name) p = true ->
  get_global (after E p c) name = get_global c name.
Proof.
  intros Hp. unfold get_global, after. now rewrite globals_run.
Qed.

(** The draws of the context are taken by global computations only, and the
    time step is assigned by none of the programs here. *)
Lemma map_mapi_same {A B : Type} (h : A -> B) (f : nat -> A -> A) (l : list A) :
  (forall i a, h (f i a) = h a) -> map h (mapi f l) = map h l.
Proof.
  intros H. unfold mapi. rewrite map_mapi_from.
  rewrite (mapi_from_ext _ (fun _ a => h a)) by assumption.
  apply mapi_from_map.
Qed.

(** Computations that do not assign a per-DOF variable leave it as it is
    in every degree of freedom. *)
Lemma perdof_exec (name : string) (i : computation) (c : context) :
  keeps_perdof name i = true ->
  map (fun d => perdof d name) (dofs (exec E i c))
  = map (fun d => perdof d name) (dofs c).
Proof.
  intros Hk. destruct i; cbn [exec]; try reflexivity.
  - apply map_mapi_same. reflexivity.
  - apply map_mapi_same. reflexivity.
  - apply map_mapi_same. reflexivity.
  - unfold compute_global.
    destruct (eval E (global_lookup E c) expression (ctx_rng c)) as [a r].
    unfold set_global. now destruct (variable =? "dt")%string.
  - cbn in Hk. unfold compute_per_dof. cbn [dofs with_dofs].
    apply map_mapi_same. intros k d.
    destruct (eval E (dof_lookup E c k d) expression (dof_rng d)) as [a r].
    unfold set_perdof.
    destruct (variable =? "x")%string; [reflexivity|].
    destruct (variable =? "v")%string; [reflexivity|].
    cbn. rewrite String.eqb_sym.
    now destruct (variable =? name)%string.
  - unfold compute_sum, set_global.
    destruct (variable =? "dt")%string; cbn [dofs with_dofs with_dt with_global];
      apply map_mapi_same; reflexivity.
Qed.

Lemma perdof_run_plain (name : string) (p : list computation) (c : context) :
  forallb is_plain p = true ->
  forallb (keeps_perdof name) p = true ->
  map (fun d => perdof d name) (dofs (after E p c))
  = map (fun d => perdof d name) (dofs c).
Proof.
  revert c. induction p as [|i p IH]; intros c Hp Hk; [reflexivity|].
  cbn in Hp, Hk. apply andb_true_iff in Hp as [Hi Hp].
  apply andb_true_iff in Hk as [Hki Hk].
  rewrite after_cons by assumption. rewrite IH by assumption.
  now apply perdof_exec.
Qed.

Lemma positions_exec (i : computation) (c : context) :
  keeps_positions i = true -> positions (exec E i c) = positions c.
Proof.
  intros Hk. unfold positions.
  destruct i; cbn [exec]; try reflexivity; try discriminate Hk.
  - apply map_mapi_same. reflexivity.
  - unfold compute_global.
    destruct (eval E (global_lookup E c) expression (ctx_rng c)) as [a r].
    unfold set_global. now destruct (variable =? "dt")%string.
  - cbn in Hk. unfold compute_per_dof. cbn [dofs with_dofs].
    apply map_mapi_same. intros k d.
    destruct (eval E (dof_lookup E c k d) expression (dof_rng d)) as [a r].
    unfold set_perdof.
    destruct (variable =? "x")%string; [discriminate Hk|].
    now destruct (variable =? "v")%string.
  - unfold compute_sum, set_global.
    destruct (variable =? "dt")%string; cbn [dofs with_dofs with_dt with_global];
      apply map_mapi_same; reflexivity.
Qed.

Lemma velocities_exec (i : computation) (c : context) :
  keeps_velocities i = true -> velocities (exec E i c) = velocities c.
Proof.
  intros Hk. unfold velocities.
  destruct i; cbn [exec]; try reflexivity; try discriminate Hk.
  - apply map_mapi_same. reflexivity.
  - unfold compute_global.
    destruct (eval E (global_lookup E c) expression (ctx_rng c)) as [a r].
    unfold set_global. now destruct (variable =? "dt")%string.
  - cbn in Hk. unfold compute_per_dof. cbn [dofs with_dofs].
    apply map_mapi_same. intros k d.
    destruct (eval E (dof_lookup E c k d) expression (dof_rng d)) as [a r].
    unfold set_perdof.
    destruct (variable =? "x")%string; [reflexivity|].
    now destruct (variable =? "v")%string; [discriminate Hk|].
  - unfold compute_sum, set_global.
    destruct (variable =? "dt")%string; cbn [dofs with_dofs with_dt with_global];
      apply map_mapi_same; reflexivity.
Qed.

End Running.

(* ----------------------------------------------------------------- *)
(** ** Acceptance statistics *)

Section Statistics.

Variable E : Engine.

Lemma closed_plain (p : list computation) :
  forallb is_plain p = true -> closed E p.
Proof. intros Hp c. now rewrite run_plain. Qed.

Lemma closed_app (p q : list computation) :
  closed E p -> closed E q -> closed E (p ++ q).
Proof.
  intros Hp Hq c. rewrite run_app.
  specialize (Hp c). destruct (run E p (O, c)) as [k c1]. cbn in Hp. subst k.
  apply Hq.
Qed.

Lemma after_closed_app (p q : list computation) (c : context) :
  closed E p -> after E (p ++ q) c = after E q (after E p c).
Proof.
  intros Hp. unfold after. rewrite run_app.
  specialize (Hp c). destruct (run E p (O, c)) as [k c1]. cbn in Hp. now subst k.
Qed.

Lemma closed_ghmc_rollback : closed E ghmc_rollback.
Proof.
  intros c. unfold ghmc_rollback. cbn [run fold_left advance].
  destruct (test E (Cond "accept" CmpNe 1) c); reflexivity.
Qed.

Lemma nstep_0_or_1 (b : bool) (a : num) : nstep b a = Fin 0 \/ nstep b a = Fin 1.
Proof.
  destruct a as [r|]; cbn.
  - destruct (Rle_lt_dec 0 r); auto.
  - destruct b; auto.
Qed.

(** The accept computation writes 0 or 1 and touches no other global. *)
Lemma accept_exec (e : expr) (c : context) :
  let c' := exec E (ComputeGlobal "accept" (Step e)) c in
  get_global c' "accept"
  = nstep (nan_step E) (fst (eval E (global_lookup E c) e (ctx_rng c)))
  /\ forall name, (name =? "accept")%string = false ->
                  get_global c' name = get_global c name.
Proof.
  cbn [exec]. unfold compute_global. cbn [eval].
  destruct (eval E (global_lookup E c) e (ctx_rng c)) as [a r]. cbn [fst].
  split; [reflexivity|]. intros name Hn. unfold get_global. cbn. now rewrite Hn.
Qed.

Lemma statistics_after (c : context) :
  let c' := after E statistics c in
  get_global c' "ntrials" = nadd (get_global c "ntrials") (Fin 1)
  /\ get_global c' "naccept" = nadd (get_global c "naccept") (get_global c "accept")
  /\ get_global c' "accept" = get_global c "accept".
Proof. repeat split. Qed.

Lemma metropolized_split (pre : list computation) (e : expr)
      (post : list computation) (c : context) :
  metropolized E pre post ->
  after E (metropolized_program pre e post) c
  = after E statistics
      (after E post (exec E (ComputeGlobal "accept" (Step e)) (after E pre c))).
Proof.
  intros M. unfold metropolized_program.
  rewrite after_closed_app by apply (m_pre_closed E pre post M).
  change ([ComputeGlobal "accept" (Step e)] ++ post ++ statistics)
    with (ComputeGlobal "accept" (Step e) :: post ++ statistics).
  rewrite after_cons by reflexivity.
  now rewrite after_closed_app by apply (m_post_closed E pre post M).
Qed.

Lemma metropolized_counters (pre : list computation) (e : expr)
      (post : list computation) (c : context) :
  metropolized E pre post ->
  let c' := after E (metropolized_program pre e post) c in
  get_global c' "ntrials" = nadd (get_global c "ntrials") (Fin 1)
  /\ (get_global c' "accept" = Fin 0 \/ get_global c' "accept" = Fin 1)
  /\ get_global c' "naccept"
     = nadd (get_global c "naccept") (get_global c' "accept").
Proof.
  intros M. cbv zeta. rewrite (metropolized_split pre e post c M).
  set (c1 := after E pre c).
  set (c2 := exec E (ComputeGlobal "accept" (Step e)) c1).
  set (c3 := after E post c2).
  destruct (statistics_after c3) as (Hn & Ha & Hacc).
  destruct (accept_exec e c1) as (Hval & Hother). fold c2 in Hval, Hother.
  rewrite Hn, Ha, Hacc. unfold c3.
  rewrite !get_global_after
    by (apply (m_post_ntrials E pre post M) || apply (m_post_naccept E pre post M)
        || apply (m_post_accept E pre post M)).
  rewrite (Hother "ntrials"), (Hother "naccept") by reflexivity.
  unfold c1.
  rewrite !get_global_after
    by (apply (m_pre_ntrials E pre post M) || apply (m_pre_naccept E pre post M)).
  repeat split. rewrite Hval. apply nstep_0_or_1.
Qed.

Lemma metropolized_mc : metropolized E mc_pre mc_restore.
Proof. split; try reflexivity; now apply closed_plain. Qed.

Lemma keeps_global_hmc_propose (name : string) (nsteps : Z) :
  forallb (keeps_global name) (hmc_propose nsteps) = true.
Proof.
  unfold hmc_propose.
  induction (Z.to_nat nsteps) as [|n IH]; [reflexivity|].
  cbn [repeat List.concat]. rewrite forallb_app, IH. reflexivity.
Qed.

Lemma plain_hmc_propose (nsteps : Z) : forallb is_plain (hmc_propose nsteps) = true.
Proof. now apply plain_concat_repeat. Qed.

Lemma metropolized_hmc (nsteps : Z) : metropolized E (hmc_pre nsteps) hmc_restore.
Proof.
  unfold hmc_pre. split; try reflexivity.
  - apply closed_plain. rewrite !forallb_app, plain_hmc_propose. reflexivity.
  - now apply closed_plain.
  - rewrite !forallb_app, keeps_global_hmc_propose. reflexivity.
  - rewrite !forallb_app, keeps_global_hmc_propose. reflexivity.
Qed.

Lemma metropolized_ghmc : metropolized E ghmc_pre (ghmc_rollback ++ ghmc_randomize).
Proof.
  split; try reflexivity.
  - now apply closed_plain.
  - apply closed_app; [apply closed_ghmc_rollback | now apply closed_plain].
Qed.

Lemma mc_program_shape :
  mc_program = metropolized_program mc_pre mc_test mc_restore.
Proof. reflexivity. Qed.

Lemma hmc_program_shape (nsteps : Z) :
  hmc_program nsteps = metropolized_program (hmc_pre nsteps) metropolis_test hmc_restore.
Proof.
  unfold hmc_program, metropolized_program, hmc_pre. now rewrite <- !app_assoc.
Qed.

Lemma ghmc_program_shape :
  ghmc_program
  = metropolized_program ghmc_pre metropolis_test (ghmc_rollback ++ ghmc_randomize).
Proof. reflexivity. Qed.

End Statistics.

Section Counters.

Variable E : Engine.

Lemma closed_cons_plain (i : computation) (p : list computation) :
  is_plain i = true -> closed E p -> closed E (i :: p).
Proof.
  intros Hi Hp. change (i :: p) with ([i] ++ p).
  apply closed_app; [|exact Hp]. apply closed_plain. cbn. now rewrite Hi.
Qed.

(** Every Metropolized constructor yields a program of the Metropolized
    shape, with both counters registered at 0. *)
Lemma metropolized_integrator
      (kB temperature sigma collision_rate timestep : R) (k : variant)
      (I : CustomIntegrator) :
  construct kB temperature sigma collision_rate timestep k = Ok I ->
  computations I
  = metropolized_program (before_accept k) (accept_test k) (after_accept k)
  /\ metropolized E (before_accept k) (after_accept k)
  /\ initial_values (globalVariables I) "naccept" = Some (Fin 0)
  /\ initial_values (globalVariables I) "ntrials" = Some (Fin 0).
Proof.
  destruct k as [|nsteps|]; cbn [construct]; intros H.
  - destruct (MetropolisMonteCarloIntegrator_program kB temperature sigma timestep)
      as (I' & HI' & Hp & Hg).
    rewrite H in HI'. injection HI' as <-. rewrite Hp, Hg.
    repeat split; try reflexivity; apply (metropolized_mc E).
  - destruct (HMCIntegrator_program kB temperature nsteps timestep)
      as (I' & HI' & Hp & Hg).
    rewrite H in HI'. injection HI' as <-. rewrite Hp, Hg.
    split; [apply hmc_program_shape|].
    split; [apply metropolized_hmc|]. split; reflexivity.
  - destruct (GHMCIntegrator_program kB temperature collision_rate timestep)
      as (I' & HI' & Hp & Hg).
    rewrite H in HI'. injection HI' as <-. rewrite Hp, Hg.
    split; [apply ghmc_program_shape|].
    split; [apply metropolized_ghmc|]. split; reflexivity.
Qed.

(** From counters [a <= t], [n] trials lead to counters [a' <= t + n]. *)
Lemma counters_steps (I : CustomIntegrator) :
  (forall c,
      let c' := step E I c in
      get_global c' "ntrials" = nadd (get_global c "ntrials") (Fin 1)
      /\ (get_global c' "accept" = Fin 0 \/ get_global c' "accept" = Fin 1)
      /\ get_global c' "naccept"
         = nadd (get_global c "naccept") (get_global c' "accept")) ->
  forall (n : nat) (c : context) (t a : nat),
    get_global c "ntrials" = Fin (INR t) ->
    get_global c "naccept" = Fin (INR a) ->
    (a <= t)%nat ->
    exists a', (a' <= t + n)%nat
               /\ get_global (steps E n I c) "naccept" = Fin (INR a')
               /\ get_global (steps E n I c) "ntrials" = Fin (INR (t + n)).
Proof.
  intros Hstep n. induction n as [|n IH]; intros c t a Ht Ha Hle.
  - exists a. rewrite Nat.add_0_r. cbn [steps]. auto.
  - cbn [steps]. destruct (Hstep c) as (Hn & Hacc & Hna).
    rewrite Ht in Hn. rewrite Ha in Hna. cbn in Hn.
    assert (Hn' : get_global (step E I c) "ntrials" = Fin (INR (S t)))
      by (rewrite Hn, S_INR; reflexivity).
    destruct Hacc as [H0 | H1].
    + rewrite H0 in Hna. cbn in Hna.
      assert (Ha' : get_global (step E I c) "naccept" = Fin (INR a))
        by (rewrite Hna; f_equal; lra).
      destruct (IH _ (S t) a Hn' Ha' ltac:(lia)) as (a' & Hle' & Hr1 & Hr2).
      exists a'. replace (t + S n)%nat with (S t + n)%nat by lia. auto.
    + rewrite H1 in Hna. cbn in Hna.
      assert (Ha' : get_global (step E I c) "naccept" = Fin (INR (S a)))
        by (rewrite Hna, S_INR; reflexivity).
      destruct (IH _ (S t) (S a) Hn' Ha' ltac:(lia)) as (a' & Hle' & Hr1 & Hr2).
      exists a'. replace (t + S n)%nat with (S t + n)%nat by lia. auto.
Qed.

(** C7.  In the program of every Metropolized integrator the two updates
    [naccept + accept] and [ntrials + 1] come last and outside of any
    block, so that every trial runs them.  A trial therefore raises
    [ntrials] by exactly 1, leaves [accept] at 0 or at 1, and raises
    [naccept] by [accept]; and after any number [n] of trials of a newly
    created context, [ntrials] is [n] and [naccept] is a whole number that
    does not exceed it. *)
Theorem C7_acceptance_counters
        (kB temperature sigma collision_rate timestep : R) (k : variant)
        (I : CustomIntegrator) :
  construct kB temperature sigma collision_rate timestep k = Ok I ->
  (exists body,
      computations I = body ++ statistics
      /\ closed E body
      /\ forall c, step E I c = after E statistics (after E body c))
  /\ (forall c,
        let c' := step E I c in
        get_global c' "ntrials" = nadd (get_global c "ntrials") (Fin 1)
        /\ (get_global c' "accept" = Fin 0 \/ get_global c' "accept" = Fin 1)
        /\ get_global c' "naccept"
           = nadd (get_global c "naccept") (get_global c' "accept"))
  /\ (forall (system : list particle) (r : rng) (n : nat),
        exists a : nat,
          (a <= n)%nat
          /\ get_global (steps E n I (createContext I system r)) "naccept" = Fin (INR a)
          /\ get_global (steps E n I (createContext I system r)) "ntrials" = Fin (INR n)).
Proof.
  intros H.
  destruct (metropolized_integrator kB temperature sigma collision_rate timestep
              k I H) as (Hp & M & Ha0 & Ht0).
  set (pre := before_accept k) in *. set (e := accept_test k) in *.
  set (post := after_accept k) in *.
  assert (Hstep : forall c,
             let c' := step E I c in
             get_global c' "ntrials" = nadd (get_global c "ntrials") (Fin 1)
             /\ (get_global c' "accept" = Fin 0 \/ get_global c' "accept" = Fin 1)
             /\ get_global c' "naccept"
                = nadd (get_global c "naccept") (get_global c' "accept")).
  { intros c. unfold step. rewrite Hp.
    apply (metropolized_counters E pre e post c M). }
  split; [|split].
  - exists (pre ++ [ComputeGlobal "accept" (Step e)] ++ post).
    assert (Hc : closed E (pre ++ [ComputeGlobal "accept" (Step e)] ++ post)).
    { apply closed_app; [apply (m_pre_closed E pre post M)|].
      apply closed_cons_plain; [reflexivity | apply (m_post_closed E pre post M)]. }
    split; [|split].
    + rewrite Hp. unfold metropolized_program. now rewrite <- !app_assoc.
    + exact Hc.
    + intros c. unfold step. rewrite Hp.
      change (after E (metropolized_program pre e post) c
              = after E statistics
                  (after E (pre ++ [ComputeGlobal "accept" (Step e)] ++ post) c)).
      unfold metropolized_program.
      replace (pre ++ [ComputeGlobal "accept" (Step e)] ++ post ++ statistics)
        with ((pre ++ [ComputeGlobal "accept" (Step e)] ++ post) ++ statistics)
        by (now rewrite <- !app_assoc).
      now apply after_closed_app.
  - exact Hstep.
  - intros system r n.
    destruct (counters_steps I Hstep n (createContext I system r) 0 0)
      as (a & Hle & Hr1 & Hr2).
    + unfold get_global, createContext. cbn [globals]. now rewrite Ht0.
    + unfold get_global, createContext. cbn [globals]. now rewrite Ha0.
    + lia.
    + exists a. auto.
Qed.

End Counters.

Lemma C7_acceptance_counters_witness :
  exists I,
    HMCIntegrator kB_md 298 10 0.001 = Ok I
    /\ exists a : nat,
         let c := createContext I [mkParticle (Fin 1) (Fin 1) (Fin 0)
                                              (constant_rng (Fin 0) (Fin 0))]
                                (constant_rng (Fin 0) (Fin 0.5)) in
         (a <= 5)%nat
         /\ get_global (steps (harmonic_oscillator false) 5 I c) "naccept" = Fin (INR a)
         /\ get_global (steps (harmonic_oscillator false) 5 I c) "ntrials" = Fin (INR 5).
Proof.
  eexists. split; [reflexivity|].
  apply (C7_acceptance_counters (harmonic_oscillator false) kB_md 298 0 0 0.001
                                (HMC 10) _ eq_refl).
Defined.

(* ----------------------------------------------------------------- *)
(** ** The accept computation *)

Section Acceptance.

Variable E : Engine.

(** The value a trial leaves in [accept]: [step] of the margin, read in the
    context the accept computation finds. *)
Lemma accept_value
      (kB temperature sigma collision_rate timestep : R) (k : variant)
      (I : CustomIntegrator) (c : context) :
  construct kB temperature sigma collision_rate timestep k = Ok I ->
  let c1 := after E (before_accept k) c in
  get_global (step E I c) "accept"
  = nstep (nan_step E)
          (metropolis_margin (proposed_energy E k c1) (get_global c1 "Eold")
                             (get_global c1 "kT") (next_uniform c1)).
Proof.
  intros H.
  destruct (metropolized_integrator E kB temperature sigma collision_rate timestep
              k I H) as (Hp & M & _ & _).
  cbv zeta. unfold step. rewrite Hp.
  change (snd (run E (metropolized_program (before_accept k) (accept_test k)
                                           (after_accept k)) (O, c)))
    with (after E (metropolized_program (before_accept k) (accept_test k)
                                        (after_accept k)) c).
  rewrite (metropolized_split E _ _ _ c M).
  set (c1 := after E (before_accept k) c).
  destruct (statistics_after E
              (after E (after_accept k)
                 (exec E (ComputeGlobal "accept" (Step (accept_test k))) c1)))
    as (_ & _ & ->).
  rewrite get_global_after by apply (m_post_accept E _ _ M).
  destruct (accept_exec E (accept_test k) c1) as (-> & _).
  clearbody c1. destruct k; reflexivity.
Qed.

(** On real arguments [step] of the margin compares the Metropolis ratio
    with the draw, and a tie counts as acceptance. *)
Lemma nstep_margin (b : bool) (e_new e_old kT u : R) :
  kT <> 0 ->
  (nstep b (metropolis_margin (Fin e_new) (Fin e_old) (Fin kT) (Fin u)) = Fin 1
   <-> u <= exp (- (e_new - e_old) / kT))
  /\ (nstep b (metropolis_margin (Fin e_new) (Fin e_old) (Fin kT) (Fin u)) = Fin 0
      <-> exp (- (e_new - e_old) / kT) < u).
Proof.
  intros HkT. unfold metropolis_margin. cbn.
  destruct (Req_dec_T kT 0) as [H0|_]; [contradiction|]. cbn.
  destruct (Rle_lt_dec 0 (exp (- (e_new - e_old) / kT) - u)) as [Hle|Hlt].
  - split; split; intros H; try reflexivity; try lra.
    injection H as H. lra.
  - split; split; intros H; try reflexivity; try lra.
    injection H as H. lra.
Qed.

(** C3, as the code has it.  In every Metropolized integrator a trial sets
    [accept] to [step(ratio - uniform)], where [ratio] is
    [exp(-(E_new - E_old)/kT)] and [step] is 1 from 0 on.  For real
    energies, a thermal energy that is not zero and a real draw,
    [accept = 1] if and only if [uniform <= ratio] and [accept = 0] if and
    only if [ratio < uniform]: the comparison is not strict, and a draw
    equal to the ratio is accepted. *)
Theorem C3_acceptance_comparison_is_not_strict
        (kB temperature sigma collision_rate timestep : R) (k : variant)
        (I : CustomIntegrator) (c : context) (e_new e_old kT u : R) :
  construct kB temperature sigma collision_rate timestep k = Ok I ->
  let c1 := after E (before_accept k) c in
  proposed_energy E k c1 = Fin e_new ->
  get_global c1 "Eold" = Fin e_old ->
  get_global c1 "kT" = Fin kT ->
  kT <> 0 ->
  next_uniform c1 = Fin u ->
  (get_global (step E I c) "accept" = Fin 1 <-> u <= exp (- (e_new - e_old) / kT))
  /\ (get_global (step E I c) "accept" = Fin 0 <-> exp (- (e_new - e_old) / kT) < u)
  /\ (u = exp (- (e_new - e_old) / kT) -> get_global (step E I c) "accept" = Fin 1).
Proof.
  intros H c1 Hnew Hold HkT Hne Hu.
  rewrite (accept_value kB temperature sigma collision_rate timestep k I c H).
  fold c1. rewrite Hnew, Hold, HkT, Hu.
  destruct (nstep_margin (nan_step E) e_new e_old kT u Hne) as [H1 H0].
  split; [exact H1|]. split; [exact H0|].
  intros Htie. apply H1. lra.
Qed.



End Acceptance.

(* ----------------------------------------------------------------- *)
(** ** Worked trials *)

Lemma kT_unit : kB_md * unit_temperature = 1.
Proof. unfold unit_temperature. apply Rinv_r. unfold kB_md. lra. Qed.

Lemma sqrt_1_1 : sqrt (1 / 1) = 1.
Proof. replace (1 / 1) with 1 by lra. apply sqrt_1. Qed.

Lemma hmc_propose_1 : hmc_propose 1 = velocity_verlet.
Proof. reflexivity. Qed.

Lemma ndiv_fin (a b : R) : b <> 0 -> ndiv (Fin a) (Fin b) = Fin (a / b).
Proof. intros H. cbn. now destruct (Req_dec_T b 0). Qed.

Lemma nsqrt_fin (a : R) : 0 <= a -> nsqrt (Fin a) = Fin (sqrt a).
Proof. intros H. cbn. destruct (Rle_lt_dec 0 a); [reflexivity | lra]. Qed.

Lemma nstep_fin_ge (b : bool) (a : R) : 0 <= a -> nstep b (Fin a) = Fin 1.
Proof. intros H. cbn. destruct (Rle_lt_dec 0 a); [reflexivity | lra]. Qed.

Lemma nstep_fin_lt (b : bool) (a : R) : a < 0 -> nstep b (Fin a) = Fin 0.
Proof. intros H. cbn. destruct (Rle_lt_dec 0 a); [lra | reflexivity]. Qed.

Lemma nadd_NaN_r (a : num) : nadd a NaN = NaN.
Proof. now destruct a. Qed.

Lemma nsub_NaN_r (a : num) : nsub a NaN = NaN.
Proof. now destruct a. Qed.

Lemma nmul_NaN_r (a : num) : nmul a NaN = NaN.
Proof. now destruct a. Qed.

Lemma ndiv_NaN_r (a : num) : ndiv a NaN = NaN.
Proof. now destruct a. Qed.

Lemma ndiv_NaN_l (a : num) : ndiv NaN a = NaN.
Proof. reflexivity. Qed.

Lemma nsqrt_NaN : nsqrt NaN = NaN.
Proof. reflexivity. Qed.

(** Evaluating a program on a context of given numbers: the program is run
    with the arithmetic left folded, then the arithmetic is settled from
    the inside out. *)
Ltac numbers :=
  repeat first
    [ rewrite ndiv_fin by lra
    | rewrite nsqrt_fin by lra
    | rewrite sqrt_1_1
    | rewrite nadd_NaN_r
    | rewrite nsub_NaN_r
    | rewrite nmul_NaN_r
    | rewrite ndiv_NaN_r
    | rewrite ndiv_NaN_l
    | rewrite nsqrt_NaN
    | progress cbn [nadd nsub nmul nneg nexp lift1 lift2] ].

Ltac concrete :=
  cbn -[nadd nsub nmul ndiv nneg nsqrt nexp nstep ndelta]; numbers.

(** One HMC trial of one velocity Verlet step with time step 1, on a
    harmonic oscillator at the origin whose velocity is drawn as 1: the
    energy goes from 1/2 to 5/8. *)
Lemma hmc_trial_observables (nan_step : bool) (u : R) :
  exists I,
    HMCIntegrator kB_md unit_temperature 1 1 = Ok I
    /\ let E := harmonic_oscillator nan_step in
       let c := createContext I (one_particle (Fin 0) (Fin 1)) (uniform_source u) in
       let c1 := after E (before_accept (HMC 1)) c in
       proposed_energy E (HMC 1) c1 = Fin (5 / 8)
       /\ get_global c1 "Eold" = Fin (1 / 2)
       /\ get_global c1 "kT" = Fin 1
       /\ next_uniform c1 = Fin u.
Proof.
  rewrite HMCIntegrator_value, kT_unit. eexists. split; [reflexivity|].
  cbv zeta. unfold proposed_energy, before_accept, hmc_pre, one_particle, uniform_source.
  rewrite hmc_propose_1.
  repeat split; concrete; same_R.
Qed.

Lemma proposed_energy_hmc (E : Engine) (nsteps : Z) (c : context) :
  proposed_energy E (HMC nsteps) c = get_global c "Enew".
Proof. reflexivity. Qed.

Lemma proposed_energy_ghmc (E : Engine) (c : context) :
  proposed_energy E GHMC c = get_global c "Enew".
Proof. reflexivity. Qed.

(** C3, counterexample.  In the trial above the Metropolis ratio is
    [exp(-(5/8 - 1/2)/1)]; with the uniform draw equal to it, the trial sets
    [accept] to 1. *)
Lemma C3_tie_is_accepted :
  exists I,
    HMCIntegrator kB_md unit_temperature 1 1 = Ok I
    /\ let E := harmonic_oscillator false in
       let u := exp (- (5 / 8 - 1 / 2) / 1) in
       let c := createContext I (one_particle (Fin 0) (Fin 1)) (uniform_source u) in
       let c1 := after E (before_accept (HMC 1)) c in
       get_global c1 "Enew" = Fin (5 / 8)
       /\ get_global c1 "Eold" = Fin (1 / 2)
       /\ get_global c1 "kT" = Fin 1
       /\ next_uniform c1 = Fin u
       /\ get_global (step E I c) "accept" = Fin 1.
Proof.
  destruct (hmc_trial_observables false (exp (- (5 / 8 - 1 / 2) / 1)))
    as (I & HI & Hnew & Hold & HkT & Hu).
  exists I. split; [exact HI|]. cbv zeta in *.
  rewrite (accept_value (harmonic_oscillator false) kB_md unit_temperature 0 0 1
             (HMC 1) I _ HI).
  cbv zeta.
  set (c1 := after _ (before_accept (HMC 1)) _) in *. clearbody c1.
  split; [rewrite <- Hnew; symmetry; apply proposed_energy_hmc|].
  split; [exact Hold|]. split; [exact HkT|]. split; [exact Hu|].
  rewrite Hnew, Hold, HkT, Hu.
  apply (nstep_margin false (5 / 8) (1 / 2) 1 _ ltac:(lra)). lra.
Qed.

Lemma C3_acceptance_comparison_is_not_strict_witness :
  exists I,
    HMCIntegrator kB_md unit_temperature 1 1 = Ok I
    /\ let E := harmonic_oscillator false in
       let c := createContext I (one_particle (Fin 0) (Fin 1)) (uniform_source 0.5) in
       (get_global (step E I c) "accept" = Fin 1
        <-> 0.5 <= exp (- (5 / 8 - 1 / 2) / 1))
       /\ (get_global (step E I c) "accept" = Fin 0
           <-> exp (- (5 / 8 - 1 / 2) / 1) < 0.5)
       /\ (0.5 = exp (- (5 / 8 - 1 / 2) / 1)
           -> get_global (step E I c) "accept" = Fin 1).
Proof.
  destruct (hmc_trial_observables false 0.5) as (I & HI & Hnew & Hold & HkT & Hu).
  exists I. split; [exact HI|].
  apply (C3_acceptance_comparison_is_not_strict
           (harmonic_oscillator false) kB_md unit_temperature 0 0 1 (HMC 1) I
           _ (5 / 8) (1 / 2) 1 0.5 HI Hnew Hold HkT ltac:(lra) Hu).
Defined.



(* ----------------------------------------------------------------- *)
(** ** The energies of a trial *)

Section Energies.

Variable E : Engine.

(** The two computations of [total_energy] leave the sum of kinetic and
    potential energy of the context in the named register. *)
Lemma total_energy_after (name : string) (c : context) :
  (name =? "dt")%string = false ->
  get_global (after E (total_energy name) c) name
  = nadd (kinetic_energy c) (potential_energy E c).
Proof.
  intros Hdt. unfold total_energy.
  rewrite after_cons by reflexivity. rewrite after_cons by reflexivity.
  rewrite after_nil. unfold get_global.
  cbn [exec]. unfold compute_global. cbn [eval].
  change ("ke" =? "gaussian")%string with false.
  change ("ke" =? "uniform")%string with false.
  change ("energy" =? "gaussian")%string with false.
  change ("energy" =? "uniform")%string with false.
  cbn iota. unfold set_global. rewrite Hdt. cbn [globals with_global with_ctx_rng].
  rewrite String.eqb_refl. f_equal.
  - unfold global_lookup, compute_sum. cbn. unfold kinetic_energy, mapi.
    rewrite map_mapi_from.
    now rewrite (mapi_from_map
                   (fun d => nmul (nmul (nmul (Fin 0.5) (mass d)) (vel d)) (vel d))).
  - unfold global_lookup, potential_energy. cbn.
    f_equal. unfold positions, compute_sum. cbn.
    now apply map_mapi_same.
Qed.

Lemma energies_keep_old (name : string) (rest : list computation) (c : context) :
  (name =? "dt")%string = false ->
  forallb (keeps_global name) rest = true ->
  get_global (after E (total_energy name ++ rest) c) name
  = nadd (kinetic_energy c) (potential_energy E c).
Proof.
  intros Hdt Hrest.
  rewrite after_app by reflexivity.
  rewrite get_global_after by assumption.
  now apply total_energy_after.
Qed.

Lemma step_after (I : CustomIntegrator) (c : context) :
  step E I c = after E (computations I) c.
Proof. reflexivity. Qed.

(** The program of [HMCIntegrator] and of [GHMCIntegrator], cut at the two
    energy evaluations. *)
Lemma hmc_program_cut_old (nsteps : Z) :
  hmc_program nsteps
  = before_snapshot (HMC nsteps)
    ++ total_energy "Eold"
    ++ ([ComputePerDof "xold" "x"] ++ hmc_propose nsteps ++ total_energy "Enew"
        ++ [metropolis_accept] ++ hmc_restore ++ statistics).
Proof.
  unfold hmc_program, hmc_snapshot, before_snapshot. now rewrite <- !app_assoc.
Qed.

Lemma hmc_program_cut_new (nsteps : Z) :
  hmc_program nsteps
  = before_evaluation (HMC nsteps)
    ++ total_energy "Enew" ++ ([metropolis_accept] ++ hmc_restore ++ statistics).
Proof.
  unfold hmc_program, before_evaluation. now rewrite <- !app_assoc.
Qed.

Lemma ghmc_program_cut_old :
  ghmc_program
  = before_snapshot GHMC
    ++ total_energy "Eold"
    ++ ([ComputePerDof "xold" "x"; ComputePerDof "vold" "v"] ++ ghmc_propose
        ++ total_energy "Enew" ++ [metropolis_accept] ++ ghmc_rollback
        ++ ghmc_randomize ++ statistics).
Proof. reflexivity. Qed.

Lemma ghmc_program_cut_new :
  ghmc_program
  = before_evaluation GHMC
    ++ total_energy "Enew"
    ++ ([metropolis_accept] ++ ghmc_rollback ++ ghmc_randomize ++ statistics).
Proof. reflexivity. Qed.

Lemma plain_before_evaluation (k : variant) :
  forallb is_plain (before_evaluation k) = true.
Proof.
  destruct k as [|nsteps|]; try reflexivity.
  cbn [before_evaluation]. rewrite !forallb_app, plain_hmc_propose. reflexivity.
Qed.

(** C8, as the code has it.  [HMCIntegrator] and [GHMCIntegrator] store in
    [Eold] the sum of the kinetic energy [sum 0.5*m*v*v] and the potential
    energy of the state of the snapshot, and in [Enew] the same sum for the
    proposed state.  [MetropolisMonteCarloIntegrator] stores in [Eold] the
    potential energy alone, never assigns [Enew], and compares [Eold] with
    the potential energy of the proposed state. *)
Theorem C8_energies_of_a_trial
        (kB temperature sigma collision_rate timestep : R) (k : variant)
        (I : CustomIntegrator) (c : context) :
  construct kB temperature sigma collision_rate timestep k = Ok I ->
  let c_old := after E (before_snapshot k) c in
  let c_new := after E (before_evaluation k) c in
  let c' := step E I c in
  match k with
  | MetropolisMC =>
      get_global c' "Eold" = potential_energy E c_old
      /\ get_global c' "Enew" = get_global c "Enew"
      /\ proposed_energy E k (after E (before_accept k) c) = potential_energy E c_new
  | _ =>
      get_global c' "Eold" = nadd (kinetic_energy c_old) (potential_energy E c_old)
      /\ get_global c' "Enew" = nadd (kinetic_energy c_new) (potential_energy E c_new)
      /\ proposed_energy E k (after E (before_accept k) c) = get_global c' "Enew"
  end.
Proof.
  intros H. cbv zeta. rewrite step_after.
  destruct k as [|nsteps|]; cbn [construct] in H.
  - rewrite MetropolisMonteCarloIntegrator_value in H. injection H as <-.
    cbn [computations]. split; [|split].
    + change mc_program
        with (mc_draw_velocities
              ++ [ComputePerDof "xold" "x"; ComputeGlobal "Eold" "energy"]
              ++ (mc_propose ++ [mc_accept] ++ mc_restore ++ statistics)).
      rewrite after_app by reflexivity. rewrite after_app by reflexivity.
      rewrite get_global_after by reflexivity.
      cbn [before_snapshot]. generalize (after E mc_draw_velocities c). intros c0.
      unfold potential_energy, positions. cbn.
      f_equal. now apply map_mapi_same.
    + now apply get_global_after.
    + reflexivity.
  - rewrite HMCIntegrator_value in H. injection H as <-.
    cbn [computations].
    assert (Hnew : get_global (after E (hmc_program nsteps) c) "Enew"
                   = nadd (kinetic_energy (after E (before_evaluation (HMC nsteps)) c))
                          (potential_energy E
                             (after E (before_evaluation (HMC nsteps)) c))).
    { rewrite hmc_program_cut_new.
      rewrite after_app by apply (plain_before_evaluation (HMC nsteps)).
      now apply energies_keep_old. }
    split; [|split].
    + rewrite hmc_program_cut_old.
      rewrite after_app by reflexivity.
      apply energies_keep_old; [reflexivity|].
      cbn [app forallb]. rewrite !forallb_app, keeps_global_hmc_propose. reflexivity.
    + exact Hnew.
    + rewrite Hnew. cbn [proposed_energy before_accept]. unfold hmc_pre.
      replace (hmc_draw_velocities ++ hmc_snapshot ++ hmc_propose nsteps
               ++ total_energy "Enew")
        with (before_evaluation (HMC nsteps) ++ total_energy "Enew")
        by (cbn [before_evaluation]; now rewrite <- !app_assoc).
      rewrite after_app by apply (plain_before_evaluation (HMC nsteps)).
      now apply total_energy_after.
  - rewrite GHMCIntegrator_value in H. injection H as <-.
    cbn [computations].
    assert (Hnew : get_global (after E ghmc_program c) "Enew"
                   = nadd (kinetic_energy (after E (before_evaluation GHMC) c))
                          (potential_energy E (after E (before_evaluation GHMC) c))).
    { rewrite ghmc_program_cut_new.
      rewrite after_app by reflexivity.
      now apply energies_keep_old. }
    split; [|split].
    + rewrite ghmc_program_cut_old.
      rewrite after_app by reflexivity.
      now apply energies_keep_old.
    + exact Hnew.
    + rewrite Hnew. cbn [proposed_energy before_accept].
      change ghmc_pre with (before_evaluation GHMC ++ total_energy "Enew").
      rewrite after_app by reflexivity.
      now apply total_energy_after.
Qed.

End Energies.

(** C8, counterexample.  One trial of [MetropolisMonteCarloIntegrator] on a
    harmonic oscillator at the origin whose velocity is drawn as 1: at the
    snapshot the kinetic energy is 1/2 and the potential energy 0, and the
    trial leaves 0 in [Eold]. *)
Lemma C8_mc_snapshot_is_potential_energy :
  exists I,
    MetropolisMonteCarloIntegrator kB_md unit_temperature 1 1 = Ok I
    /\ let E := harmonic_oscillator false in
       let c := createContext I (one_particle (Fin 0) (Fin 1)) (uniform_source 0.5) in
       let c_old := after E (before_snapshot MetropolisMC) c in
       kinetic_energy c_old = Fin (1 / 2)
       /\ potential_energy E c_old = Fin 0
       /\ get_global (step E I c) "Eold" = Fin 0
       /\ get_global (step E I c) "Eold"
          <> nadd (kinetic_energy c_old) (potential_energy E c_old).
Proof.
  rewrite MetropolisMonteCarloIntegrator_value, kT_unit.
  eexists. split; [reflexivity|]. cbv zeta.
  unfold before_snapshot, one_particle, uniform_source, potential_energy,
    kinetic_energy.
  split; [concrete; same_R|]. split; [concrete; same_R|].
  split; [concrete; same_R|].
  concrete. intros H. injection H as H. lra.
Qed.

Lemma C8_energies_of_a_trial_witness :
  exists I,
    HMCIntegrator kB_md unit_temperature 1 1 = Ok I
    /\ let E := harmonic_oscillator false in
       let c := createContext I (one_particle (Fin 0) (Fin 1)) (uniform_source 0.5) in
       let c_old := after E (before_snapshot (HMC 1)) c in
       let c_new := after E (before_evaluation (HMC 1)) c in
       let c' := step E I c in
       get_global c' "Eold" = nadd (kinetic_energy c_old) (potential_energy E c_old)
       /\ get_global c' "Enew" = nadd (kinetic_energy c_new) (potential_energy E c_new)
       /\ proposed_energy E (HMC 1) (after E (before_accept (HMC 1)) c)
          = get_global c' "Enew".
Proof.
  destruct (hmc_trial_observables false 0.5) as (I & HI & _).
  exists I. split; [exact HI|].
  exact (C8_energies_of_a_trial (harmonic_oscillator false) kB_md unit_temperature
           0 0 1 (HMC 1) I _ HI).
Defined.

(* ----------------------------------------------------------------- *)
(** ** The rollback of GHMC *)

Section Rollback.

Variable E : Engine.

Lemma map_mapi {A B C : Type} (h : B -> C) (h' : A -> C) (f : nat -> A -> B)
      (l : list A) (k : nat) :
  (forall i a, h (f i a) = h' a) -> map h (mapi_from k f l) = map h' l.
Proof.
  intros H. rewrite map_mapi_from.
  rewrite (mapi_from_ext _ (fun _ a => h' a)) by assumption.
  apply mapi_from_map.
Qed.

Lemma positions_after (p : list computation) (c : context) :
  forallb is_plain p = true ->
  forallb keeps_positions p = true ->
  positions (after E p c) = positions c.
Proof.
  revert c. induction p as [|i p IH]; intros c Hp Hk; [reflexivity|].
  cbn in Hp, Hk. apply andb_true_iff in Hp as [Hi Hp].
  apply andb_true_iff in Hk as [Hki Hk].
  rewrite after_cons by assumption. rewrite IH by assumption.
  now apply positions_exec.
Qed.

Lemma velocities_after (p : list computation) (c : context) :
  forallb is_plain p = true ->
  forallb keeps_velocities p = true ->
  velocities (after E p c) = velocities c.
Proof.
  revert c. induction p as [|i p IH]; intros c Hp Hk; [reflexivity|].
  cbn in Hp, Hk. apply andb_true_iff in Hp as [Hi Hp].
  apply andb_true_iff in Hk as [Hki Hk].
  rewrite after_cons by assumption. rewrite IH by assumption.
  now apply velocities_exec.
Qed.

(** Values of a per-DOF variable that is set in every degree of freedom. *)
Lemma bound_values (name : string) (dflt : num) (l : list dof) (xs : list num) :
  map (fun d => perdof d name) l = map Some xs ->
  map (fun d => match perdof d name with Some a => a | None => dflt end) l = xs.
Proof.
  revert xs. induction l as [|d l IH]; intros [|x xs] H; cbn in *;
    try discriminate H; [reflexivity|].
  injection H as Hd Hl. rewrite Hd. f_equal. now apply IH.
Qed.

Lemma ncmp_ne_1 (a : num) : a <> Fin 1 -> ncmp CmpNe a (Fin 1) = true.
Proof.
  intros H. destruct a as [r|]; [|reflexivity]. cbn.
  destruct (Req_dec_T r 1) as [->|_]; [now elim H | reflexivity].
Qed.

Lemma ncmp_eq_1 : ncmp CmpNe (Fin 1) (Fin 1) = false.
Proof. cbn. destruct (Req_dec_T 1 1) as [_|H]; [reflexivity | now elim H]. Qed.

Lemma rollback_test (c : context) :
  test E (Cond "accept" CmpNe 1) c = ncmp CmpNe (get_global c "accept") (Fin 1).
Proof. reflexivity. Qed.

(** The snapshot: [xold] and [vold] hold the positions and the velocities. *)
Lemma snapshot_after (c : context) :
  let c' := after E [ComputePerDof "xold" "x"; ComputePerDof "vold" "v"] c in
  map (fun d => perdof d "xold") (dofs c') = map Some (positions c)
  /\ map (fun d => perdof d "vold") (dofs c') = map Some (velocities c).
Proof.
  cbv zeta. unfold positions, velocities. rewrite !map_map. cbn. unfold mapi.
  split.
  - rewrite (map_mapi _ (fun d => perdof d "xold")) by reflexivity.
    now apply map_mapi.
  - rewrite (map_mapi _ (fun d => Some (vel d))) by reflexivity.
    now apply map_mapi.
Qed.

(** A rejected trial: positions from [xold], velocities from [-vold]. *)
Lemma rollback_rejected (c : context) (xs vs : list num) :
  get_global c "accept" <> Fin 1 ->
  map (fun d => perdof d "xold") (dofs c) = map Some xs ->
  map (fun d => perdof d "vold") (dofs c) = map Some vs ->
  positions (after E ghmc_rollback c) = xs
  /\ velocities (after E ghmc_rollback c) = map nneg vs.
Proof.
  intros Hrej Hx Hv.
  unfold after, ghmc_rollback. cbn [run fold_left advance].
  rewrite rollback_test, (ncmp_ne_1 _ Hrej). cbn [advance snd].
  split.
  - rewrite positions_exec by reflexivity.
    unfold positions. cbn. unfold mapi.
    rewrite (map_mapi _ (fun d => match perdof d "xold" with
                                  | Some a => a
                                  | None => global_lookup E c "xold"
                                  end)) by reflexivity.
    now apply bound_values.
  - unfold velocities. cbn [exec]. unfold compute_per_dof at 1. cbn [dofs with_dofs].
    set (c2 := compute_per_dof E "x" "xold" c).
    assert (Hv2 : map (fun d => perdof d "vold") (dofs c2) = map Some vs).
    { unfold c2. rewrite <- Hv.
      apply (perdof_exec E "vold" (ComputePerDof "x" "xold") c). reflexivity. }
    clearbody c2. cbn. unfold mapi.
    rewrite (map_mapi _ (fun d => nneg match perdof d "vold" with
                                       | Some a => a
                                       | None => global_lookup E c2 "vold"
                                       end)) by reflexivity.
    rewrite <- (bound_values "vold" (global_lookup E c2 "vold") (dofs c2) vs Hv2).
    now rewrite map_map.
Qed.

(** An accepted trial: the branch is skipped. *)
Lemma rollback_accepted (c : context) :
  get_global c "accept" = Fin 1 -> after E ghmc_rollback c = c.
Proof.
  intros Hacc. unfold after, ghmc_rollback. cbn [run fold_left advance].
  rewrite rollback_test, Hacc, ncmp_eq_1. reflexivity.
Qed.

End Rollback.

Section GHMCRollback.

Variable E : Engine.

Lemma ghmc_through_accept_cut :
  ghmc_pre ++ [metropolis_accept]
  = before_snapshot GHMC
    ++ total_energy "Eold"
    ++ [ComputePerDof "xold" "x"; ComputePerDof "vold" "v"]
    ++ (ghmc_propose ++ total_energy "Enew" ++ [metropolis_accept]).
Proof. reflexivity. Qed.

Lemma ghmc_program_cut_rollback :
  ghmc_program
  = (ghmc_pre ++ [metropolis_accept]) ++ ghmc_rollback
    ++ (ghmc_randomize ++ statistics).
Proof. reflexivity. Qed.

(** At the accept computation [xold] and [vold] still hold the positions
    and the velocities of the snapshot. *)
Lemma ghmc_snapshot_kept (c : context) :
  let c_snap := after E (before_snapshot GHMC) c in
  let c_acc := after E (ghmc_pre ++ [metropolis_accept]) c in
  map (fun d => perdof d "xold") (dofs c_acc) = map Some (positions c_snap)
  /\ map (fun d => perdof d "vold") (dofs c_acc) = map Some (velocities c_snap).
Proof.
  cbv zeta. rewrite ghmc_through_accept_cut.
  rewrite after_app by reflexivity. rewrite after_app by reflexivity.
  rewrite after_app by reflexivity.
  generalize (after E (before_snapshot GHMC) c). intros c0.
  destruct (snapshot_after E (after E (total_energy "Eold") c0)) as [Hx Hv].
  split.
  - rewrite (perdof_run_plain E "xold") by reflexivity.
    rewrite Hx. now rewrite positions_after by reflexivity.
  - rewrite (perdof_run_plain E "vold") by reflexivity.
    rewrite Hv. now rewrite velocities_after by reflexivity.
Qed.

(** C5.  In a trial of [GHMCIntegrator], let the snapshot be the state in
    which [Eold], [xold] and [vold] are taken, and consider the state right
    after the accept/reject branch.  If the trial is rejected ([accept] is
    not 1), the positions are those of the snapshot and every velocity is
    the negation of its velocity in the snapshot.  If the trial is accepted
    ([accept] is 1), the branch changes nothing: the proposed positions and
    velocities are kept.  The rest of the step (the second velocity
    randomization and the statistics) runs from that state. *)
Theorem C5_ghmc_rollback
        (kB temperature collision_rate timestep : R)
        (I : CustomIntegrator) (c : context) :
  GHMCIntegrator kB temperature collision_rate timestep = Ok I ->
  let c_snap := after E (before_snapshot GHMC) c in
  let c_acc := after E (ghmc_pre ++ [metropolis_accept]) c in
  let c_rb := after E ghmc_rollback c_acc in
  step E I c = after E (ghmc_randomize ++ statistics) c_rb
  /\ (get_global c_acc "accept" <> Fin 1 ->
      positions c_rb = positions c_snap
      /\ velocities c_rb = map nneg (velocities c_snap))
  /\ (get_global c_acc "accept" = Fin 1 -> c_rb = c_acc).
Proof.
  intros H. cbv zeta.
  rewrite GHMCIntegrator_value in H. injection H as <-.
  split; [|split].
  - rewrite step_after. cbn [computations]. rewrite ghmc_program_cut_rollback.
    rewrite after_app by reflexivity.
    now rewrite after_closed_app by apply closed_ghmc_rollback.
  - intros Hrej. destruct (ghmc_snapshot_kept c) as [Hx Hv].
    now apply rollback_rejected.
  - apply rollback_accepted.
Qed.

End GHMCRollback.

(* ----------------------------------------------------------------- *)
(** ** The second velocity randomization of GHMC *)

Section Randomization.

Variable E : Engine.

Lemma length_mapi_from {A B : Type} (f : nat -> A -> B) (l : list A) (k : nat) :
  List.length (mapi_from k f l) = List.length l.
Proof.
  revert k. induction l as [|a l IH]; intros k; cbn; [reflexivity|].
  now rewrite IH.
Qed.

Lemma mapi_from_same_shape {A B C : Type} (f : nat -> C) (l1 : list A)
      (l2 : list B) (k : nat) :
  List.length l1 = List.length l2 ->
  mapi_from k (fun i _ => f i) l1 = mapi_from k (fun i _ => f i) l2.
Proof.
  revert l2 k. induction l1 as [|a l1 IH]; intros [|b l2] k Hlen; cbn in *;
    try discriminate Hlen; [reflexivity|].
  injection Hlen as Hlen. f_equal. now apply IH.
Qed.

Lemma mapi_from_component {A : Type} (pre vs : list num) (l : list A) :
  List.length l = List.length vs ->
  mapi_from (List.length pre) (fun i _ => component (pre ++ vs) i) l = vs.
Proof.
  revert pre vs. induction l as [|a l IH]; intros pre [|v vs] Hlen; cbn in *;
    try discriminate Hlen; [reflexivity|].
  injection Hlen as Hlen. f_equal.
  - unfold component. rewrite nth_middle. reflexivity.
  - specialize (IH (pre ++ [v]) vs Hlen).
    rewrite length_app, Nat.add_1_r in IH. cbn in IH.
    now rewrite <- app_assoc in IH.
Qed.

Lemma ghmc_program_randomizes_twice :
  ghmc_program
  = [ComputePerDof "sigma" (Sqrt ("kT" / "m"))]
    ++ [velocity_randomization; ConstrainVelocities]
    ++ [ConstrainPositions; ConstrainVelocities]
    ++ ghmc_snapshot ++ ghmc_propose ++ total_energy "Enew"
    ++ [metropolis_accept] ++ ghmc_rollback
    ++ [velocity_randomization; ConstrainVelocities]
    ++ statistics.
Proof. reflexivity. Qed.

(** The randomization followed by the projection, from any context: the
    velocities are the projection of the remixed velocities. *)
Lemma randomize_velocities (c : context) :
  velocities (after E (ghmc_randomize ++ statistics) c)
  = project_velocities E c (mapi (remix E c) (dofs c))
  /\ positions (after E (ghmc_randomize ++ statistics) c) = positions c.
Proof.
  split.
  - rewrite after_app by reflexivity.
    rewrite velocities_after by reflexivity.
    unfold ghmc_randomize. rewrite after_cons by reflexivity.
    rewrite after_cons by reflexivity. rewrite after_nil.
    set (c2 := exec E velocity_randomization c).
    assert (Hpos : positions c2 = positions c)
      by (apply positions_exec; reflexivity).
    assert (Hvel : velocities c2 = mapi (remix E c) (dofs c)).
    { unfold c2, velocities, velocity_randomization. cbn. unfold mapi.
      rewrite map_mapi_from. apply mapi_from_ext. reflexivity. }
    assert (Hlen : List.length (dofs c2) = List.length (dofs c)).
    { unfold c2, velocity_randomization. cbn. unfold mapi.
      apply length_mapi_from. }
    clearbody c2. unfold velocities. cbn. unfold mapi.
    rewrite map_mapi_from. cbn. rewrite Hpos.
    fold (velocities c2). rewrite Hvel. unfold project_velocities, mapi.
    now apply (mapi_from_same_shape
                 (constrain_velocities E (positions c)
                    (mapi_from 0 (remix E c) (dofs c)))).
  - rewrite positions_after by reflexivity. reflexivity.
Qed.

(** C10, as the code has it.  The program of [GHMCIntegrator] holds the
    velocity randomization [v = sqrt(b)*v + sqrt(1-b)*sigma*gaussian]
    twice: before the Metropolized velocity Verlet step, and after the
    accept/reject branch; each time the projection of the velocities on the
    constraints follows it, and after the second the statistics.  The
    velocities a trial ends with are therefore the projection of the remix
    of the velocities the branch leaves: for a rejected trial, of the remix
    [sqrt(b)*(-v_pre) + sqrt(1-b)*sigma*gaussian] of the negated velocities
    of the snapshot.  When the projection leaves every vector of velocities
    as it is (no constraint), they are that remix. *)
Theorem C10_ghmc_second_randomization
        (kB temperature collision_rate timestep : R)
        (I : CustomIntegrator) (c : context) :
  GHMCIntegrator kB temperature collision_rate timestep = Ok I ->
  let c_snap := after E (before_snapshot GHMC) c in
  let c_acc := after E (ghmc_pre ++ [metropolis_accept]) c in
  let c_rb := after E ghmc_rollback c_acc in
  computations I
  = [ComputePerDof "sigma" (Sqrt ("kT" / "m"))]
    ++ [velocity_randomization; ConstrainVelocities]
    ++ [ConstrainPositions; ConstrainVelocities]
    ++ ghmc_snapshot ++ ghmc_propose ++ total_energy "Enew"
    ++ [metropolis_accept] ++ ghmc_rollback
    ++ [velocity_randomization; ConstrainVelocities]
    ++ statistics
  /\ velocities (step E I c)
     = project_velocities E c_rb (mapi (remix E c_rb) (dofs c_rb))
  /\ (get_global c_acc "accept" <> Fin 1 ->
      velocities c_rb = map nneg (velocities c_snap)
      /\ positions (step E I c) = positions c_snap)
  /\ ((forall xs vs i, constrain_velocities E xs vs i = component vs i) ->
      velocities (step E I c) = mapi (remix E c_rb) (dofs c_rb)).
Proof.
  intros H. cbv zeta.
  assert (Hstep : step E I c
                  = after E (ghmc_randomize ++ statistics)
                      (after E ghmc_rollback
                         (after E (ghmc_pre ++ [metropolis_accept]) c))).
  { rewrite GHMCIntegrator_value in H. injection H as <-.
    rewrite step_after. cbn [computations]. rewrite ghmc_program_cut_rollback.
    rewrite after_app by reflexivity.
    now rewrite after_closed_app by apply closed_ghmc_rollback. }
  assert (Hrb : get_global (after E (ghmc_pre ++ [metropolis_accept]) c) "accept"
                <> Fin 1 ->
                velocities (after E ghmc_rollback
                              (after E (ghmc_pre ++ [metropolis_accept]) c))
                = map nneg (velocities (after E (before_snapshot GHMC) c))
                /\ positions (after E ghmc_rollback
                                (after E (ghmc_pre ++ [metropolis_accept]) c))
                   = positions (after E (before_snapshot GHMC) c)).
  { intros Hrej. destruct (ghmc_snapshot_kept E c) as [Hx Hv].
    destruct (rollback_rejected E _ _ _ Hrej Hx Hv) as [Hp Hw]. now split. }
  revert Hstep Hrb.
  generalize (after E ghmc_rollback (after E (ghmc_pre ++ [metropolis_accept]) c)).
  intros c_rb Hstep Hrb.
  destruct (randomize_velocities c_rb) as [Hvel Hpos].
  split; [|split; [|split]].
  - rewrite GHMCIntegrator_value in H. injection H as <-. reflexivity.
  - now rewrite Hstep.
  - intros Hrej. destruct (Hrb Hrej) as [Hw Hp].
    split; [exact Hw|]. rewrite Hstep, Hpos. exact Hp.
  - intros Hfree. rewrite Hstep, Hvel. unfold project_velocities, mapi.
    rewrite (mapi_from_ext _ (fun i _ =>
               component (mapi_from 0 (remix E c_rb) (dofs c_rb)) i))
      by (intros; apply Hfree).
    apply (mapi_from_component []). symmetry. apply length_mapi_from.
Qed.

End Randomization.

(* ----------------------------------------------------------------- *)
(** ** A rejected trial of GHMC on a constrained system *)

Lemma exp_below_half (a : R) : a <= -1 -> exp a - 0.5 < 0.
Proof.
  intros Ha.
  assert (H1 : exp a <= exp (- (1))).
  { assert (Ha' : a <= - (1)) by lra.
    destruct Ha' as [Hlt | ->]; [left; now apply exp_increasing | right; reflexivity]. }
  assert (H2 : exp (- (1)) < 0.5).
  { rewrite exp_Ropp.
    assert (H3 : 2 < exp 1) by (pose proof (exp_ineq1 1 ltac:(lra)); lra).
    replace 0.5 with (/ 2) by lra.
    apply Rinv_lt_contravar; [|exact H3].
    pose proof (exp_pos 1). lra. }
  lra.
Qed.

Lemma decay_bounds : 0 < exp (- (1) * 3) < 1.
Proof.
  split; [apply exp_pos|].
  pose proof (exp_increasing (- (1) * 3) 0 ltac:(lra)) as H.
  now rewrite exp_0 in H.
Qed.

Lemma run_cons (E : Engine) (i : computation) (q : list computation)
      (s : nat * context) :
  run E (i :: q) s = run E q (advance E s i).
Proof. reflexivity. Qed.

(** Running a program one computation at a time on a context of given
    numbers: [stage] runs the next computation and writes the context out
    as a record again, [tidy q] replaces by [q] the numbers that are equal
    to it. *)
Ltac settle :=
  cbn -[run after ncmp nadd nsub nmul ndiv nneg nsqrt nexp nstep ndelta].

Ltac stage :=
  rewrite run_cons; settle;
  unfold compute_per_dof, compute_global, compute_sum, apply_constrain_positions,
    apply_constrain_velocities; settle;
  unfold with_dofs, with_pos, with_vel, with_perdof, with_dof_rng, with_global,
    with_dt, with_ctx_rng; settle; numbers.

Ltac tidy q :=
  repeat match goal with
  | |- context [Fin ?r] =>
      lazymatch r with q => fail | _ => idtac end;
      replace r with q by lra
  end.

Ltac finish := cbn [run fold_left snd]; reflexivity.

(** One trial of [GHMCIntegrator] with time step 3 and collision rate 1 on
    the rigid pair at rest at positions 0 and 1, whose first Gaussian draws
    are 0 and whose second are 1 and -1.  The snapshot has velocities 0 and
    energy 1/2; the velocity Verlet step with its projections moves the
    pair to -2.25 and -1.25 with velocities 1.875, of energy 6.828125; the
    uniform draw 1/2 rejects it; the rollback restores positions 0 and 1
    and velocities 0; the second randomization remixes the velocities to
    [s] and [-s], [s = sqrt(1 - exp(-3))], and the projection on the
    constraint gives both their mean, 0. *)
Lemma rigid_pair_trial :
  exists I,
    GHMCIntegrator kB_md unit_temperature 1 3 = Ok I
    /\ let E := rigid_pair in
       let c := createContext I pair_at_rest (uniform_source 0.5) in
       let c_snap := after E (before_snapshot GHMC) c in
       let c_acc := after E (ghmc_pre ++ [metropolis_accept]) c in
       let c_rb := after E ghmc_rollback c_acc in
       let s := sqrt (1 - exp (- (1) * 3)) in
       get_global c_acc "accept" = Fin 0
       /\ positions c_snap = [Fin 0; Fin 1]
       /\ velocities c_snap = [Fin 0; Fin 0]
       /\ positions c_acc = [Fin (-2.25); Fin (-1.25)]
       /\ velocities c_acc = [Fin 1.875; Fin 1.875]
       /\ positions c_rb = [Fin 0; Fin 1]
       /\ velocities c_rb = [Fin 0; Fin 0]
       /\ mapi (remix E c_rb) (dofs c_rb) = [Fin s; Fin (- s)]
       /\ velocities (step E I c) = [Fin 0; Fin 0].
Proof.
  rewrite GHMCIntegrator_value, kT_unit. eexists. split; [reflexivity|].
  pose proof decay_bounds as [Hb0 Hb1]. cbv zeta.
  rewrite step_after. unfold createContext.
  cbn [computations stepSize globalVariables perDofVariables].
  rewrite ghmc_program_cut_rollback.
  rewrite (after_app _ (ghmc_pre ++ [metropolis_accept])) by reflexivity.
  rewrite (after_closed_app _ ghmc_rollback) by apply closed_ghmc_rollback.
  match goal with |- context [after ?E (before_snapshot GHMC) ?c] =>
    eassert (Hsnap : after E (before_snapshot GHMC) c = _) end.
  { unfold pair_at_rest, uniform_source, late_rng, constant_rng, after.
    settle.
    stage. stage. tidy 0.
    stage. tidy 0.
    stage. tidy 0. tidy 1.
    stage. tidy 0.
    finish. }
  match goal with |- context [after ?E (ghmc_pre ++ [metropolis_accept]) ?c] =>
    eassert (Hacc : after E (ghmc_pre ++ [metropolis_accept]) c = _) end.
  { rewrite ghmc_through_accept_cut. rewrite after_app by reflexivity.
    rewrite Hsnap. unfold after. settle.
    stage. tidy 0.
    stage. tidy 0.5.
    stage. stage.
    stage. tidy 0. tidy (-1.5).
    stage. tidy 0. tidy (-3.5).
    stage.
    stage. tidy (-2.25). tidy (-1.25).
    stage. tidy 2.625. tidy 1.125.
    stage. tidy 1.875.
    stage. tidy 3.515625.
    stage. tidy 6.828125.
    stage. rewrite nstep_fin_lt by (apply exp_below_half; lra).
    finish. }
  rewrite Hsnap, Hacc.
  match goal with |- context [after ?E ghmc_rollback ?c] =>
    eassert (Hrb : after E ghmc_rollback c = _) end.
  { unfold after, ghmc_rollback.
    stage. rewrite rollback_test. unfold get_global. settle.
    rewrite ncmp_ne_1 by (intros H; injection H; lra). settle.
    stage. stage. tidy 0. stage.
    finish. }
  rewrite Hrb.
  match goal with |- context [after ?E (ghmc_randomize ++ statistics) ?c] =>
    eassert (Hfin : after E (ghmc_randomize ++ statistics) c = _) end.
  { unfold after, ghmc_randomize, statistics. settle.
    stage. stage. tidy 0. stage. stage.
    finish. }
  rewrite Hfin. clear Hsnap Hacc Hrb Hfin.
  match goal with |- context [mapi ?f ?l = _] =>
    assert (Hremix : mapi f l = [Fin (sqrt (1 - exp (- (1) * 3)));
                                 Fin (- sqrt (1 - exp (- (1) * 3)))]) end.
  { unfold remix. settle. numbers. same_R. }
  rewrite Hremix.
  repeat (split; [reflexivity|]). reflexivity.
Qed.

(** C10, counterexample.  In the rejected trial above the velocities at the
    end of the step are 0 and 0, the mean of the remixed velocities, not
    the remix [sqrt(b)*(-v_pre) + sqrt(1-b)*sigma*gaussian] of the negated
    velocities of the snapshot, which is [s] and [-s]: the projection on
    the velocity constraints follows the second randomization. *)
Lemma C10_constrained_velocities_are_projected :
  exists I,
    GHMCIntegrator kB_md unit_temperature 1 3 = Ok I
    /\ let E := rigid_pair in
       let c := createContext I pair_at_rest (uniform_source 0.5) in
       let c_snap := after E (before_snapshot GHMC) c in
       let c_acc := after E (ghmc_pre ++ [metropolis_accept]) c in
       let c_rb := after E ghmc_rollback c_acc in
       let s := sqrt (1 - exp (- (1) * 3)) in
       get_global c_acc "accept" = Fin 0
       /\ velocities c_rb = map nneg (velocities c_snap)
       /\ mapi (remix E c_rb) (dofs c_rb) = [Fin s; Fin (- s)]
       /\ velocities (step E I c) = [Fin 0; Fin 0]
       /\ velocities (step E I c) <> mapi (remix E c_rb) (dofs c_rb).
Proof.
  destruct rigid_pair_trial
    as (I & HI & Hrej & _ & Hsnap & _ & _ & _ & Hrb & Hremix & Hend).
  exists I. split; [exact HI|]. cbv zeta in *.
  split; [exact Hrej|].
  split; [rewrite Hrb, Hsnap; cbn; same_R|].
  split; [exact Hremix|].
  split; [exact Hend|].
  rewrite Hend, Hremix. intros Heq. injection Heq as Hs _.
  assert (Hpos : 0 < sqrt (1 - exp (- (1) * 3)))
    by (apply sqrt_lt_R0; pose proof decay_bounds; lra).
  lra.
Qed.

Lemma C10_ghmc_second_randomization_witness :
  exists I,
    GHMCIntegrator kB_md unit_temperature 1 3 = Ok I
    /\ let E := harmonic_oscillator false in
       let c := createContext I (one_particle (Fin 0) (Fin 1)) (uniform_source 0.5) in
       let c_rb := after E ghmc_rollback
                     (after E (ghmc_pre ++ [metropolis_accept]) c) in
       velocities (step E I c) = mapi (remix E c_rb) (dofs c_rb).
Proof.
  eexists. split; [apply GHMCIntegrator_value|]. cbv zeta.
  apply (C10_ghmc_second_randomization (harmonic_oscillator false)
           kB_md unit_temperature 1 3 _ _
           (GHMCIntegrator_value kB_md unit_temperature 1 3)).
  reflexivity.
Defined.

Lemma C5_ghmc_rollback_witness :
  exists I,
    GHMCIntegrator kB_md unit_temperature 1 3 = Ok I
    /\ let E := rigid_pair in
       let c := createContext I pair_at_rest (uniform_source 0.5) in
       let c_snap := after E (before_snapshot GHMC) c in
       let c_acc := after E (ghmc_pre ++ [metropolis_accept]) c in
       let c_rb := after E ghmc_rollback c_acc in
       get_global c_acc "accept" <> Fin 1
       /\ positions c_rb = positions c_snap
       /\ velocities c_rb = map nneg (velocities c_snap).
Proof.
  destruct rigid_pair_trial as (I & HI & Hrej & _).
  exists I. split; [exact HI|]. cbv zeta in *.
  assert (Hne : get_global
                  (after rigid_pair (ghmc_pre ++ [metropolis_accept])
                     (createContext I pair_at_rest (uniform_source 0.5)))
                  "accept" <> Fin 1).
  { rewrite Hrej. intros H. injection H as H. lra. }
  split; [exact Hne|].
  exact (proj1 (proj2 (C5_ghmc_rollback rigid_pair kB_md unit_temperature 1 3 I _ HI))
           Hne).
Defined.

(* ================================================================= *)
(** * The other integrators *)

Lemma DummyIntegrator_value :
  DummyIntegrator
  = Ok {| stepSize := 0; globalVariables := []; perDofVariables := [];
          computations := dummy_program |}.
Proof. reflexivity. Qed.

Lemma VelocityVerletIntegrator_value (timestep : R) :
  VelocityVerletIntegrator timestep
  = Ok {| stepSize := timestep; globalVariables := [];
          perDofVariables := [("x1", 0)]; computations := vv_program |}.
Proof. reflexivity. Qed.

Lemma AndersenVelocityVerletIntegrator_value (kB temperature collision_rate timestep : R) :
  AndersenVelocityVerletIntegrator kB temperature collision_rate timestep
  = Ok {| stepSize := timestep;
          globalVariables :=
            [("kT", kB * temperature); ("p_collision", timestep * collision_rate)];
          perDofVariables := [("sigma_v", 0); ("collision", 0); ("x1", 0)];
          computations := andersen_program |}.
Proof. reflexivity. Qed.

Lemma VVVRIntegrator_value (kB temperature collision_rate timestep : R) :
  VVVRIntegrator kB temperature collision_rate timestep
  = Ok {| stepSize := timestep;
          globalVariables :=
            [("kT", kB * temperature); ("b", exp (- collision_rate * timestep))];
          perDofVariables := [("sigma", 0); ("x1", 0)];
          computations := vvvr_program |}.
Proof. reflexivity. Qed.

(* ----------------------------------------------------------------- *)
(** ** Engines without constraints *)

Lemma mapi_from_fix {A : Type} (f : nat -> A -> A) (l : list A) (k : nat) :
  (forall i a, nth_error l i = Some a -> f (k + i)%nat a = a) ->
  mapi_from k f l = l.
Proof.
  revert k. induction l as [|a l IH]; intros k H; cbn; [reflexivity|].
  f_equal.
  - specialize (H O a eq_refl). now rewrite Nat.add_0_r in H.
  - apply IH. intros i b Hi. specialize (H (S i) b Hi).
    now rewrite Nat.add_succ_r in H.
Qed.

Lemma component_map {A : Type} (h : A -> num) (l : list A) (i : nat) (a : A) :
  nth_error l i = Some a -> component (map h l) i = h a.
Proof.
  intros H. unfold component.
  apply nth_error_nth. now rewrite nth_error_map, H.
Qed.

Lemma dof_eta (d : dof) : mkDof (pos d) (vel d) (mass d) (perdof d) (dof_rng d) = d.
Proof. now destruct d. Qed.

Lemma context_eta (c : context) : mkContext (dofs c) (globals c) (dt c) (ctx_rng c) = c.
Proof. now destruct c. Qed.

Section Free.

Variable E : Engine.
Hypothesis HE : free E.

Lemma free_constrain_positions (c : context) : exec E ConstrainPositions c = c.
Proof.
  destruct HE as (Hp & _). cbn. unfold apply_constrain_positions, with_dofs, mapi.
  rewrite mapi_from_fix; [apply context_eta|].
  intros i d Hi. cbn. rewrite Hp. unfold positions, with_pos.
  rewrite (component_map pos _ _ _ Hi). apply dof_eta.
Qed.

Lemma free_constrain_velocities (c : context) : exec E ConstrainVelocities c = c.
Proof.
  destruct HE as (_ & Hv & _). cbn. unfold apply_constrain_velocities, with_dofs, mapi.
  rewrite mapi_from_fix; [apply context_eta|].
  intros i d Hi. cbn. rewrite Hv. unfold velocities, with_vel.
  rewrite (component_map vel _ _ _ Hi). apply dof_eta.
Qed.

Lemma free_update_context_state (c : context) : exec E UpdateContextState c = c.
Proof.
  destruct HE as (_ & _ & Hp & Hv). cbn.
  unfold apply_update_context_state, with_dofs, mapi.
  rewrite mapi_from_fix; [apply context_eta|].
  intros i d Hi. cbn. rewrite Hp, Hv. unfold velocities, positions, with_vel, with_pos.
  cbn. rewrite (component_map vel _ _ _ Hi), (component_map pos _ _ _ Hi).
  apply dof_eta.
Qed.

End Free.

(** X1.  [DummyIntegrator] has time step 0, registers no variable and
    emits exactly [updateContextState; constrainPositions;
    constrainVelocities].  On every engine a step leaves the globals, the
    time step, the random sources, the masses and the per-DOF variables as
    they were: only positions and velocities can change, through the
    engine's context update and its constraint projections.  On an engine
    that has neither, any number of steps leaves the context exactly as it
    was. *)
Theorem DummyIntegrator_step (E : Engine) (I : CustomIntegrator) :
  DummyIntegrator = Ok I ->
  computations I = [UpdateContextState; ConstrainPositions; ConstrainVelocities]
  /\ stepSize I = 0 /\ globalVariables I = [] /\ perDofVariables I = []
  /\ (forall c,
        globals (step E I c) = globals c
        /\ dt (step E I c) = dt c
        /\ ctx_rng (step E I c) = ctx_rng c
        /\ masses (step E I c) = masses c
        /\ map perdof (dofs (step E I c)) = map perdof (dofs c)
        /\ map dof_rng (dofs (step E I c)) = map dof_rng (dofs c))
  /\ (free E -> forall n c, steps E n I c = c).
Proof.
  intros H. rewrite DummyIntegrator_value in H. injection H as <-.
  repeat (split; [reflexivity|]). split.
  - intros c. rewrite step_after. cbn [computations]. unfold dummy_program.
    rewrite !after_cons by reflexivity. rewrite after_nil.
    repeat (split; [reflexivity|]).
    unfold masses. cbn [exec].
    unfold apply_constrain_velocities, apply_constrain_positions,
      apply_update_context_state. cbn [dofs with_dofs].
    repeat split; (do 3 (rewrite map_mapi_same by reflexivity)); reflexivity.
  - intros HE n. induction n as [|n IH]; intros c; [reflexivity|].
    cbn [steps]. rewrite step_after. cbn [computations]. unfold dummy_program.
    rewrite !after_cons by reflexivity. rewrite after_nil.
    rewrite (free_update_context_state E HE), (free_constrain_positions E HE),
      (free_constrain_velocities E HE).
    apply IH.
Qed.

(* ----------------------------------------------------------------- *)
(** ** Velocity Verlet *)

Lemma map_mapi_at {A B C D : Type} (h : B -> D) (g : A -> C) (F : nat -> A -> B)
      (G : nat -> C -> D) (l : list A) (k : nat) :
  (forall i a, nth_error l i = Some a -> h (F (k + i)%nat a) = G (k + i)%nat (g a)) ->
  map h (mapi_from k F l) = mapi_from k G (map g l).
Proof.
  revert k. induction l as [|a l IH]; intros k H; cbn; [reflexivity|].
  f_equal.
  - specialize (H O a eq_refl). now rewrite Nat.add_0_r in H.
  - apply IH. intros i b Hi. specialize (H (S i) b Hi).
    now rewrite Nat.add_succ_r in H.
Qed.

Lemma map_mapi_keep {A B : Type} (h : A -> B) (F : nat -> A -> A) (l : list A) (k : nat) :
  (forall i a, h (F i a) = h a) -> map h (mapi_from k F l) = map h l.
Proof. intros H. now apply map_mapi. Qed.

Lemma map_mapi_const {A B C : Type} (h : B -> C) (F : nat -> A -> B) (y : C)
      (l : list A) (k : nat) :
  (forall i a, nth_error l i = Some a -> h (F (k + i)%nat a) = y) ->
  map h (mapi_from k F l) = repeat y (List.length l).
Proof.
  revert k. induction l as [|a l IH]; intros k H; cbn; [reflexivity|].
  f_equal.
  - specialize (H O a eq_refl). now rewrite Nat.add_0_r in H.
  - apply IH. intros i b Hi. specialize (H (S i) b Hi).
    now rewrite Nat.add_succ_r in H.
Qed.

Section VelocityVerlet.

Variable E : Engine.
Hypothesis HE : free E.

Lemma half_kick_exec (c : context) :
  let c' := exec E (ComputePerDof "v" ("v" + 0.5 * "dt" * "f" / "m")) c in
  positions c' = positions c
  /\ velocities c' = half_kick E (dt c) (positions c) (velocities c) (masses c)
  /\ masses c' = masses c
  /\ dt c' = dt c.
Proof.
  cbv zeta. split; [now apply positions_exec|]. split; [|split; [|reflexivity]].
  - unfold velocities, half_kick, masses. cbn. unfold mapi.
    apply map_mapi_at. intros i d Hi. cbn.
    now rewrite (component_map mass _ _ _ Hi).
  - unfold masses. cbn. unfold mapi. now apply map_mapi_keep.
Qed.

Lemma drift_exec (c : context) :
  let c' := exec E (ComputePerDof "x" ("x" + "dt" * "v")) c in
  positions c' = drift (dt c) (positions c) (velocities c)
  /\ velocities c' = velocities c
  /\ masses c' = masses c
  /\ dt c' = dt c.
Proof.
  cbv zeta. split; [|split; [now apply velocities_exec|split; [|reflexivity]]].
  - unfold positions, drift, velocities. cbn. unfold mapi.
    apply map_mapi_at. intros i d Hi. cbn.
    now rewrite (component_map vel _ _ _ Hi).
  - unfold masses. cbn. unfold mapi. now apply map_mapi_keep.
Qed.

Lemma mapi_from_mapi_from {A B C : Type} (f : nat -> B -> C) (g : nat -> A -> B)
      (l : list A) (k : nat) :
  mapi_from k f (mapi_from k g l) = mapi_from k (fun i a => f i (g i a)) l.
Proof.
  revert k. induction l as [|a l IH]; intros k; cbn; [reflexivity|].
  now rewrite IH.
Qed.

Lemma second_kick_exec (c : context) :
  let c' := exec E (ComputePerDof "v"
                      ("v" + 0.5 * "dt" * "f" / "m" + ("x" - "x1") / "dt"))
              (exec E (ComputePerDof "x1" "x") c) in
  positions c' = positions c
  /\ velocities c' = second_kick E (dt c) (positions c) (velocities c) (masses c)
  /\ masses c' = masses c
  /\ dt c' = dt c.
Proof.
  cbv zeta.
  assert (Hpos : positions (exec E (ComputePerDof "x1" "x") c) = positions c)
    by now apply positions_exec.
  split; [|split; [|split; [|reflexivity]]].
  - rewrite positions_exec by reflexivity. exact Hpos.
  - unfold velocities, second_kick, masses.
    cbn. unfold mapi.
    rewrite (map_mapi_keep pos) by reflexivity.
    rewrite mapi_from_mapi_from.
    apply map_mapi_at. intros i d Hi. cbn. unfold positions.
    now rewrite (component_map mass _ _ _ Hi), (component_map pos _ _ _ Hi).
  - unfold masses. cbn. unfold mapi. rewrite mapi_from_mapi_from.
    now apply map_mapi_keep.
Qed.

(** One step of the velocity Verlet program on vectors. *)
Lemma vv_after (c : context) :
  let c' := after E vv_program c in
  let h := dt c in
  let ms := masses c in
  let vs1 := half_kick E h (positions c) (velocities c) ms in
  let xs1 := drift h (positions c) vs1 in
  positions c' = xs1
  /\ velocities c' = second_kick E h xs1 vs1 ms
  /\ masses c' = ms
  /\ dt c' = h.
Proof.
  cbv zeta. unfold vv_program, velocity_verlet.
  rewrite !after_cons by reflexivity. rewrite after_nil.
  rewrite (free_update_context_state E HE), (free_constrain_positions E HE),
    (free_constrain_velocities E HE).
  destruct (half_kick_exec c) as (Hx1 & Hv1 & Hm1 & Hd1). cbv zeta in *.
  set (c1 := exec E (ComputePerDof "v" ("v" + 0.5 * "dt" * "f" / "m")) c) in *.
  destruct (drift_exec c1) as (Hx2 & Hv2 & Hm2 & Hd2). cbv zeta in *.
  set (c2 := exec E (ComputePerDof "x" ("x" + "dt" * "v")) c1) in *.
  destruct (second_kick_exec c2) as (Hx3 & Hv3 & Hm3 & Hd3). cbv zeta in *.
  rewrite Hx3, Hv3, Hm3, Hd3, Hx2, Hv2, Hm2, Hd2, Hx1, Hv1, Hm1, Hd1.
  repeat split.
Qed.

End VelocityVerlet.

Lemma length_mapi {A B : Type} (f : nat -> A -> B) (l : list A) :
  List.length (mapi f l) = List.length l.
Proof. apply length_mapi_from. Qed.

Lemma nth_mapi_from (f : nat -> num -> num) (l : list num) (k i : nat) :
  (i < List.length l)%nat ->
  nth i (mapi_from k f l) NaN = f (k + i)%nat (nth i l NaN).
Proof.
  revert k i. induction l as [|a l IH]; intros k i Hi; cbn in Hi; [lia|].
  destruct i as [|i]; cbn.
  - now rewrite Nat.add_0_r.
  - rewrite IH by lia. now rewrite Nat.add_succ_r.
Qed.

Lemma component_mapi (f : nat -> num -> num) (l : list num) (i : nat) :
  (i < List.length l)%nat -> component (mapi f l) i = f i (component l i).
Proof. intros Hi. unfold component, mapi. now rewrite nth_mapi_from. Qed.

Lemma finite_component (xs : list num) (i : nat) :
  finite xs -> (i < List.length xs)%nat -> exists r, component xs i = Fin r.
Proof.
  intros [rs ->] Hi. rewrite length_map in Hi.
  exists (nth i rs 0). unfold component.
  rewrite (nth_indep _ NaN (Fin 0)) by now rewrite length_map.
  apply map_nth.
Qed.

Lemma finite_intro (xs : list num) :
  (forall i, (i < List.length xs)%nat -> exists r, component xs i = Fin r) ->
  finite xs.
Proof.
  induction xs as [|x xs IH]; intros H; [now exists []|].
  destruct (H O ltac:(cbn; lia)) as [r Hr]. cbn in Hr. subst x.
  destruct IH as [rs ->].
  - intros i Hi. apply (H (S i)). cbn. lia.
  - now exists (r :: rs).
Qed.

Lemma component_ext (xs ys : list num) :
  List.length xs = List.length ys ->
  (forall i, (i < List.length xs)%nat -> component xs i = component ys i) ->
  xs = ys.
Proof. intros Hl H. now apply (nth_ext xs ys NaN NaN). Qed.

Lemma nonzero_component (ms : list num) (i : nat) (m : R) :
  Forall (fun a => a <> Fin 0) ms -> (i < List.length ms)%nat ->
  component ms i = Fin m -> m <> 0.
Proof.
  intros H Hi Hm. rewrite Forall_forall in H.
  intros ->. apply (H (Fin 0)); [|reflexivity].
  rewrite <- Hm. now apply nth_In.
Qed.

Section ClosedForm.

Variable E : Engine.
Hypothesis HF : finite_forces E.

Variables (h : R) (xs vs ms : list num).
Hypothesis Hh : h <> 0.
Hypothesis Hxs : finite xs.
Hypothesis Hvs : finite vs.
Hypothesis Hms : finite ms.
Hypothesis Hm0 : Forall (fun a => a <> Fin 0) ms.
Hypothesis Hlv : List.length vs = List.length xs.
Hypothesis Hlm : List.length ms = List.length xs.

Let vs1 := half_kick E (Fin h) xs vs ms.
Let xs1 := drift (Fin h) xs vs1.
Let vs2 := second_kick E (Fin h) xs1 vs1 ms.

Lemma vv_lengths :
  List.length vs1 = List.length xs /\ List.length xs1 = List.length xs
  /\ List.length vs2 = List.length xs.
Proof.
  unfold vs2, xs1, vs1, half_kick, drift, second_kick.
  rewrite !length_mapi. repeat split; assumption.
Qed.

Lemma vv_half_kick_finite (j : nat) :
  (j < List.length xs)%nat -> exists r, component vs1 j = Fin r.
Proof.
  intros Hj. unfold vs1, half_kick. rewrite component_mapi by lia.
  destruct (finite_component vs j Hvs ltac:(lia)) as [v' ->].
  destruct (finite_component ms j Hms ltac:(lia)) as [m' Hm'].
  destruct (HF xs Hxs j Hj) as [f' ->]. rewrite Hm'.
  cbn [nmul lift2]. rewrite ndiv_fin
    by (apply (nonzero_component ms j); [assumption|lia|assumption]).
  eexists. reflexivity.
Qed.

Lemma vv_drift_finite : finite xs1.
Proof.
  apply finite_intro. intros j Hj. unfold xs1, drift in *.
  rewrite length_mapi in Hj. rewrite component_mapi by lia.
  destruct (finite_component xs j Hxs Hj) as [x' ->].
  destruct (vv_half_kick_finite j Hj) as [r' Hr']. fold vs1. rewrite Hr'.
  eexists. reflexivity.
Qed.

(** The step in closed form, component by component. *)
Lemma vv_closed_form (i : nat) :
  (i < List.length xs)%nat ->
  exists x v m f0 f1,
    component xs i = Fin x /\ component vs i = Fin v /\ component ms i = Fin m
    /\ m <> 0
    /\ force E xs i = Fin f0 /\ force E xs1 i = Fin f1
    /\ component xs1 i = Fin (x + h * (v + 0.5 * h * f0 / m))
    /\ component vs2 i = Fin (v + 0.5 * h * f0 / m + 0.5 * h * f1 / m).
Proof.
  intros Hi.
  destruct (finite_component xs i Hxs Hi) as [x Hx].
  destruct (finite_component vs i Hvs ltac:(lia)) as [v Hv].
  destruct (finite_component ms i Hms ltac:(lia)) as [m Hm].
  assert (Hmne : m <> 0) by (apply (nonzero_component ms i); [assumption|lia|assumption]).
  destruct (HF xs Hxs i Hi) as [f0 Hf0].
  destruct vv_lengths as (Hl1 & Hl2 & Hl3).
  destruct (HF xs1 vv_drift_finite i ltac:(lia)) as [f1 Hf1].
  exists x, v, m, f0, f1.
  assert (E1 : component vs1 i = Fin (v + 0.5 * h * f0 / m)).
  { unfold vs1, half_kick. rewrite component_mapi by lia.
    rewrite Hv, Hm, Hf0. cbn [nmul lift2]. rewrite ndiv_fin by assumption.
    reflexivity. }
  assert (E2 : component xs1 i = Fin (x + h * (v + 0.5 * h * f0 / m))).
  { unfold xs1, drift. rewrite component_mapi by lia. fold vs1.
    rewrite Hx, E1. reflexivity. }
  repeat (split; [assumption|]).
  unfold vs2, second_kick. rewrite component_mapi by lia.
  fold vs1. rewrite E1, E2, Hm, Hf1. cbn [nmul nsub lift2].
  rewrite !ndiv_fin by assumption. cbn. f_equal. field. now split.
Qed.

Lemma vv_second_kick_finite : finite vs2.
Proof.
  apply finite_intro. intros j Hj.
  destruct vv_lengths as (_ & _ & Hl3). rewrite Hl3 in Hj.
  destruct (vv_closed_form j Hj) as (x & v & m & f0 & f1 & _ & _ & _ & _ & _ & _ & _ & H).
  eexists. exact H.
Qed.

End ClosedForm.

Lemma length_observables (c : context) :
  List.length (positions c) = List.length (dofs c)
  /\ List.length (velocities c) = List.length (dofs c)
  /\ List.length (masses c) = List.length (dofs c).
Proof. unfold positions, velocities, masses. now rewrite !length_map. Qed.

Lemma harmonic_oscillator_free (b : bool) : free (harmonic_oscillator b).
Proof. repeat split. Qed.

Lemma harmonic_oscillator_finite_forces (b : bool) :
  finite_forces (harmonic_oscillator b).
Proof.
  intros xs Hxs i Hi. cbn.
  destruct (finite_component xs i Hxs Hi) as [r ->]. now exists (- r).
Qed.

(** X2.  What a step of [VelocityVerletIntegrator] computes.  On an engine
    without constraints and with finite forces, from finite positions and
    velocities, non-zero masses and a non-zero time step [h], one step
    takes every coordinate [x], of velocity [v] and mass [m], to
    [x + h*(v + 0.5*h*f0/m)] and its velocity to
    [v + 0.5*h*f0/m + 0.5*h*f1/m], where [f0] is the force at the old
    positions and [f1] the force at the new ones.  The values are the
    expressions of the program in the order it evaluates them; the term
    [(x - x1)/dt] of the second half kick is [0/h] and adds nothing. *)
Theorem VelocityVerlet_step_values (E : Engine) (timestep : R)
        (I : CustomIntegrator) (c : context) (h : R) (i : nat) :
  VelocityVerletIntegrator timestep = Ok I ->
  free E -> finite_forces E ->
  dt c = Fin h -> h <> 0 ->
  finite (positions c) -> finite (velocities c) -> finite (masses c) ->
  Forall (fun a => a <> Fin 0) (masses c) ->
  (i < List.length (dofs c))%nat ->
  let c' := step E I c in
  exists x v m f0 f1,
    component (positions c) i = Fin x
    /\ component (velocities c) i = Fin v
    /\ component (masses c) i = Fin m
    /\ force E (positions c) i = Fin f0
    /\ force E (positions c') i = Fin f1
    /\ component (positions c') i = Fin (x + h * (v + 0.5 * h * f0 / m))
    /\ component (velocities c') i = Fin (v + 0.5 * h * f0 / m + 0.5 * h * f1 / m).
Proof.
  intros H HE HF Hdt Hh Hxs Hvs Hms Hm0 Hi. cbv zeta.
  rewrite VelocityVerletIntegrator_value in H. injection H as <-.
  rewrite step_after. cbn [computations].
  destruct (vv_after E HE c) as (Hx & Hv & _ & _). cbv zeta in *.
  rewrite Hx, Hv, Hdt.
  destruct (length_observables c) as (Lx & Lv & Lm).
  destruct (vv_closed_form E HF h (positions c) (velocities c) (masses c) Hh Hxs Hvs
              Hms Hm0 ltac:(congruence) ltac:(congruence) i ltac:(lia))
    as (x & v & m & f0 & f1 & Ex & Ev & Em & Hmne & Hf0 & Hf1 & Ex1 & Ev2).
  exists x, v, m, f0, f1.
  repeat (split; [assumption|]).
  assumption.
Qed.

(** A harmonic oscillator of unit mass released at rest from [x = 1] with
    time step 1: the step takes it to [x = 1/2] with velocity [-3/4]. *)
Lemma VelocityVerlet_step_values_witness :
  exists I,
    VelocityVerletIntegrator 1 = Ok I
    /\ let E := harmonic_oscillator false in
       let c := createContext I (one_particle (Fin 1) (Fin 1)) (uniform_source 0.5) in
       component (positions (step E I c)) 0 = Fin (1 / 2)
       /\ component (velocities (step E I c)) 0 = Fin (- (3 / 4)).
Proof.
  eexists. split; [apply VelocityVerletIntegrator_value|]. cbv zeta.
  lazymatch goal with
  | |- component (positions (step _ ?I ?c)) _ = _ /\ _ =>
  destruct (VelocityVerlet_step_values (harmonic_oscillator false) 1 I c 1 0
              (VelocityVerletIntegrator_value 1)
              (harmonic_oscillator_free false)
              (harmonic_oscillator_finite_forces false)
              eq_refl ltac:(lra)
              ltac:(now exists [1]) ltac:(now exists [0]) ltac:(now exists [1])
              ltac:(repeat constructor; intros H; injection H as H; lra)
              ltac:(cbn; lia))
    as (x & v & m & f0 & f1 & Ex & Ev & Em & Hf0 & Hf1 & Px & Pv)
  end.
  cbn in Ex, Ev, Em, Hf0.
  injection Ex as <-. injection Ev as <-. injection Em as <-. injection Hf0 as <-.
  cbn [force harmonic_oscillator] in Hf1. rewrite Px in Hf1. cbn in Hf1.
  injection Hf1 as <-.
  rewrite Px, Pv. split; f_equal; lra.
Defined.

Lemma ndiv_zero (a : num) : ndiv a (Fin 0) = NaN.
Proof.
  destruct a as [r|]; [|reflexivity]. cbn.
  destruct (Req_dec_T 0 0) as [_|H]; [reflexivity | now elim H].
Qed.

Lemma mapi_from_const {A B : Type} (b : B) (l : list A) (k : nat) :
  mapi_from k (fun _ _ => b) l = repeat b (List.length l).
Proof.
  revert k. induction l as [|a l IH]; intros k; cbn; [reflexivity|].
  now rewrite IH.
Qed.

Lemma second_kick_zero (E : Engine) (xs vs ms : list num) :
  second_kick E (Fin 0) xs vs ms = repeat NaN (List.length vs).
Proof.
  unfold second_kick, mapi.
  rewrite (mapi_from_ext _ (fun _ _ => NaN)); [apply mapi_from_const|].
  intros i v. rewrite ndiv_zero. apply nadd_NaN_r.
Qed.

Lemma component_repeat_NaN (n i : nat) : component (repeat NaN n) i = NaN.
Proof.
  unfold component. revert i. induction n as [|n IH]; intros [|i]; cbn; auto.
Qed.

Lemma half_kick_NaN (E : Engine) (h : num) (xs ms : list num) (n : nat) :
  half_kick E h xs (repeat NaN n) ms = repeat NaN n.
Proof.
  apply component_ext.
  - unfold half_kick. now rewrite length_mapi.
  - intros i Hi. unfold half_kick in *. rewrite length_mapi in Hi.
    rewrite component_mapi by assumption.
    now rewrite !component_repeat_NaN.
Qed.

Lemma drift_NaN (h : num) (xs : list num) :
  drift h xs (repeat NaN (List.length xs)) = repeat NaN (List.length xs).
Proof.
  apply component_ext.
  - unfold drift. now rewrite length_mapi, repeat_length.
  - intros i Hi. unfold drift in *. rewrite length_mapi in Hi.
    rewrite component_mapi by assumption.
    rewrite !component_repeat_NaN. rewrite nmul_NaN_r. apply nadd_NaN_r.
Qed.

(** X4.  A time step of 0 is not checked and is fatal to velocity Verlet:
    the second half kick divides the displacement [x - x1], which is 0, by
    [dt].  On an engine without constraints, one step of
    [VelocityVerletIntegrator] from a context whose time step is 0 leaves
    every velocity [NaN], and a second step every position. *)
Theorem VelocityVerlet_zero_timestep (E : Engine) (timestep : R)
        (I : CustomIntegrator) (c : context) :
  VelocityVerletIntegrator timestep = Ok I ->
  free E ->
  dt c = Fin 0 ->
  velocities (step E I c) = repeat NaN (List.length (dofs c))
  /\ positions (steps E 2 I c) = repeat NaN (List.length (dofs c)).
Proof.
  intros H HE Hdt.
  rewrite VelocityVerletIntegrator_value in H. injection H as <-.
  cbn [steps]. rewrite !step_after. cbn [computations].
  destruct (vv_after E HE c) as (Hx & Hv & Hm & Hd). cbv zeta in *.
  destruct (vv_after E HE (after E vv_program c)) as (Hx' & _). cbv zeta in *.
  destruct (length_observables c) as (Lx & Lv & Lm).
  assert (Hvel : velocities (after E vv_program c)
                 = repeat NaN (List.length (dofs c))).
  { rewrite Hv, Hdt, second_kick_zero. unfold half_kick.
    now rewrite length_mapi, Lv. }
  split; [exact Hvel|].
  rewrite Hx', Hvel, half_kick_NaN.
  assert (Hl : List.length (positions (after E vv_program c))
               = List.length (dofs c)).
  { rewrite Hx. unfold drift. now rewrite length_mapi. }
  rewrite <- Hl at 1 2. apply drift_NaN.
Qed.

Lemma VelocityVerlet_zero_timestep_witness :
  exists I,
    VelocityVerletIntegrator 0 = Ok I
    /\ let E := harmonic_oscillator false in
       let c := createContext I (one_particle (Fin 0) (Fin 1)) (uniform_source 0.5) in
       List.length (dofs c) = 1%nat
       /\ velocities (step E I c) = repeat NaN (List.length (dofs c))
       /\ positions (steps E 2 I c) = repeat NaN (List.length (dofs c)).
Proof.
  eexists. split; [apply VelocityVerletIntegrator_value|]. cbv zeta.
  split; [reflexivity|].
  apply (VelocityVerlet_zero_timestep (harmonic_oscillator false) 0 _ _
           (VelocityVerletIntegrator_value 0) (harmonic_oscillator_free false)).
  reflexivity.
Defined.

Lemma DummyIntegrator_step_witness :
  exists I,
    DummyIntegrator = Ok I
    /\ computations I = [UpdateContextState; ConstrainPositions; ConstrainVelocities]
    /\ let E := harmonic_oscillator false in
       let c := createContext I (one_particle (Fin 1) (Fin 1)) (uniform_source 0.5) in
       masses (step E I c) = masses c /\ steps E 3 I c = c.
Proof.
  eexists. split; [apply DummyIntegrator_value|]. cbv zeta.
  destruct (DummyIntegrator_step (harmonic_oscillator false) _ DummyIntegrator_value)
    as (Hp & _ & _ & _ & Hk & Hf).
  split; [exact Hp|]. split.
  - apply Hk.
  - apply Hf. apply harmonic_oscillator_free.
Defined.

(* ----------------------------------------------------------------- *)
(** ** The contexts of a simulation *)

Lemma Forall_map_eq {A B : Type} (f : A -> B) (y : B) (l l' : list A) :
  map f l' = map f l ->
  Forall (fun a => f a = y) l -> Forall (fun a => f a = y) l'.
Proof.
  intros Hm H.
  apply (Forall_map f (fun b => b = y)). rewrite Hm.
  now apply (Forall_map f (fun b => b = y)).
Qed.

Section Reachable.

Variable E : Engine.
Variable I : CustomIntegrator.
Hypothesis Hplain : forallb is_plain (computations I) = true.

(** A name that is no per-DOF variable of the integrator is bound in no
    degree of freedom. *)
Lemma reachable_perdof_none (name : string) (c : context) :
  forallb (keeps_perdof name) (computations I) = true ->
  initial_values (perDofVariables I) name = None ->
  reachable E I c ->
  Forall (fun d => perdof d name = None) (dofs c).
Proof.
  intros Hk Hn Hc. induction Hc as [system r | c Hc IH].
  - unfold createContext. cbn [dofs]. apply Forall_map. cbn.
    apply Forall_forall. intros p _. exact Hn.
  - rewrite step_after.
    apply (Forall_map_eq (fun d => perdof d name) None (dofs c)); [|exact IH].
    now apply perdof_run_plain.
Qed.

(** A global no computation assigns keeps its initial value. *)
Lemma reachable_global (name : string) (c : context) :
  forallb (keeps_global name) (computations I) = true ->
  reachable E I c ->
  globals c name = initial_values (globalVariables I) name.
Proof.
  intros Hk Hc. induction Hc as [system r | c Hc IH]; [reflexivity|].
  rewrite step_after. unfold after. rewrite globals_run by assumption. exact IH.
Qed.

End Reachable.

Lemma length_dofs_exec (E : Engine) (i : computation) (c : context) :
  List.length (dofs (exec E i c)) = List.length (dofs c).
Proof.
  destruct i; cbn [exec]; try reflexivity;
    try (cbn; unfold mapi; now rewrite length_mapi_from).
  - unfold compute_global.
    destruct (eval E (global_lookup E c) expression (ctx_rng c)) as [a r].
    unfold set_global. now destruct (variable =? "dt")%string.
  - unfold compute_sum, set_global.
    destruct (variable =? "dt")%string; cbn; unfold mapi; now rewrite length_mapi_from.
Qed.

Lemma length_dofs_after (E : Engine) (p : list computation) (c : context) :
  forallb is_plain p = true ->
  List.length (dofs (after E p c)) = List.length (dofs c).
Proof.
  revert c. induction p as [|i p IH]; intros c Hp; [reflexivity|].
  cbn in Hp. apply andb_true_iff in Hp as [Hi Hp].
  rewrite after_cons by assumption. rewrite IH by assumption.
  apply length_dofs_exec.
Qed.

(* ----------------------------------------------------------------- *)
(** ** Restoring the positions by arithmetic *)

Lemma perdof_at (name : string) (l : list dof) (xs : list num) (i : nat) (d : dof) :
  map (fun d => perdof d name) l = map Some xs ->
  nth_error l i = Some d ->
  perdof d name = Some (component xs i).
Proof.
  intros Hm Hi.
  assert (H : nth_error (map (fun d => perdof d name) l) i = Some (perdof d name))
    by now rewrite nth_error_map, Hi.
  rewrite Hm, nth_error_map in H.
  destruct (nth_error xs i) as [x|] eqn:Hx; [|discriminate H].
  cbn in H. injection H as <-. f_equal. unfold component.
  symmetry. now apply nth_error_nth.
Qed.

Lemma perdof_none_at (name : string) (l : list dof) (i : nat) (d : dof) :
  Forall (fun d => perdof d name = None) l ->
  nth_error l i = Some d -> perdof d name = None.
Proof.
  intros H Hi. rewrite Forall_forall in H. apply H. eapply nth_error_In. exact Hi.
Qed.

Section Restore.

Variable E : Engine.

(** The assignments [x*accept + xold*(1-accept)] of [HMCIntegrator] and
    [(1-accept)*xold + x*accept] of [MetropolisMonteCarloIntegrator]. *)
Lemma hmc_restore_positions (c : context) (xs : list num) :
  Forall (fun d => perdof d "accept" = None) (dofs c) ->
  map (fun d => perdof d "xold") (dofs c) = map Some xs ->
  positions (after E hmc_restore c)
  = mapi (fun i x =>
            nadd (nmul x (get_global c "accept"))
                 (nmul (component xs i) (nsub (Fin 1) (get_global c "accept"))))
         (positions c).
Proof.
  intros Ha Hx. unfold hmc_restore. rewrite after_cons by reflexivity.
  rewrite after_nil. unfold positions, get_global. cbn. unfold mapi.
  apply map_mapi_at. intros i d Hi. cbn.
  now rewrite (perdof_none_at _ _ _ _ Ha Hi), (perdof_at _ _ _ _ _ Hx Hi).
Qed.

Lemma mc_restore_positions (c : context) (xs : list num) :
  Forall (fun d => perdof d "accept" = None) (dofs c) ->
  map (fun d => perdof d "xold") (dofs c) = map Some xs ->
  positions (after E mc_restore c)
  = mapi (fun i x =>
            nadd (nmul (nsub (Fin 1) (get_global c "accept")) (component xs i))
                 (nmul x (get_global c "accept")))
         (positions c).
Proof.
  intros Ha Hx. unfold mc_restore. rewrite after_cons by reflexivity.
  rewrite after_nil. unfold positions, get_global. cbn. unfold mapi.
  apply map_mapi_at. intros i d Hi. cbn.
  now rewrite (perdof_none_at _ _ _ _ Ha Hi), (perdof_at _ _ _ _ _ Hx Hi).
Qed.

(** The snapshot [xold = x]. *)
Lemma xold_after (c : context) :
  map (fun d => perdof d "xold") (dofs (exec E (ComputePerDof "xold" "x") c))
  = map Some (positions c).
Proof.
  unfold positions. rewrite map_map. cbn. unfold mapi.
  now apply map_mapi.
Qed.

End Restore.

Lemma keeps_perdof_hmc_propose (name : string) (nsteps : Z) :
  forallb (keeps_perdof name) velocity_verlet = true ->
  forallb (keeps_perdof name) (hmc_propose nsteps) = true.
Proof.
  intros H. unfold hmc_propose.
  induction (Z.to_nat nsteps) as [|n IH]; [reflexivity|].
  cbn [repeat List.concat]. now rewrite forallb_app, IH, H.
Qed.

Lemma plain_hmc_program (nsteps : Z) : forallb is_plain (hmc_program nsteps) = true.
Proof.
  unfold hmc_program. rewrite !forallb_app, plain_hmc_propose. reflexivity.
Qed.

Lemma plain_hmc_pre (nsteps : Z) : forallb is_plain (hmc_pre nsteps) = true.
Proof.
  unfold hmc_pre. rewrite !forallb_app, plain_hmc_propose. reflexivity.
Qed.

(** What the two arithmetic blends give. *)
Lemma blend_values (a x_new x_old : num) :
  let x' := nadd (nmul x_new a) (nmul x_old (nsub (Fin 1) a)) in
  let x'' := nadd (nmul (nsub (Fin 1) a) x_old) (nmul x_new a) in
  (forall r s, x_old = Fin r -> x_new = Fin s -> a = Fin 0 -> x' = Fin r /\ x'' = Fin r)
  /\ (forall r s, x_old = Fin r -> x_new = Fin s -> a = Fin 1 -> x' = Fin s /\ x'' = Fin s)
  /\ (x_new = NaN \/ x_old = NaN -> x' = NaN /\ x'' = NaN).
Proof.
  cbv zeta. split; [|split].
  - intros r s -> -> ->. cbn. split; f_equal; lra.
  - intros r s -> -> ->. cbn. split; f_equal; lra.
  - intros [-> | ->].
    + split; [reflexivity|]. apply nadd_NaN_r.
    + rewrite !nmul_NaN_r. split; [apply nadd_NaN_r | reflexivity].
Qed.

(** X5.  [HMCIntegrator] takes back a rejected move by arithmetic,
    [x = x*accept + xold*(1-accept)], and takes back the positions only.
    In a step of a simulation: the velocities at the end are those the
    velocity Verlet steps led to, accepted or not; a coordinate whose
    snapshot and proposal are finite ends at the snapshot when the move is
    rejected and at the proposal when it is accepted; a coordinate whose
    proposal is [NaN] ends at [NaN] even when the move is rejected. *)
Theorem HMC_restores_positions_by_arithmetic (E : Engine)
        (kB temperature : R) (nsteps : Z) (timestep : R)
        (I : CustomIntegrator) (c : context) :
  HMCIntegrator kB temperature nsteps timestep = Ok I ->
  reachable E I c ->
  let c_snap := after E (before_snapshot (HMC nsteps)) c in
  let c_new := after E (before_accept (HMC nsteps)) c in
  let c' := step E I c in
  velocities c' = velocities c_new
  /\ forall i, (i < List.length (dofs c))%nat ->
     (forall r s,
         component (positions c_snap) i = Fin r ->
         component (positions c_new) i = Fin s ->
         get_global c' "accept" = Fin 0 ->
         component (positions c') i = Fin r)
     /\ (forall r s,
         component (positions c_snap) i = Fin r ->
         component (positions c_new) i = Fin s ->
         get_global c' "accept" = Fin 1 ->
         component (positions c') i = Fin s)
     /\ (component (positions c_new) i = NaN \/ component (positions c_snap) i = NaN ->
         component (positions c') i = NaN).
Proof.
  intros H Hr. cbv zeta. cbn [before_snapshot before_accept].
  rewrite HMCIntegrator_value in H. injection H as <-.
  assert (Hnone : Forall (fun d => perdof d "accept" = None) (dofs c)).
  { refine (reachable_perdof_none E _ _ "accept" c _ _ Hr);
      [apply plain_hmc_program| |reflexivity].
    cbn [computations]. unfold hmc_program.
    rewrite !forallb_app, keeps_perdof_hmc_propose by reflexivity. reflexivity. }
  clear Hr. rewrite step_after. cbn [computations].
  rewrite hmc_program_shape, (metropolized_split E _ _ _ _ (metropolized_hmc E nsteps)).
  set (c_new := after E (hmc_pre nsteps) c).
  set (c_acc := exec E (ComputeGlobal "accept" (Step metropolis_test)) c_new).
  assert (Hpos : positions c_acc = positions c_new) by now apply positions_exec.
  assert (Hvel : velocities c_acc = velocities c_new) by now apply velocities_exec.
  assert (Hacc : Forall (fun d => perdof d "accept" = None) (dofs c_acc)).
  { apply (Forall_map_eq (fun d => perdof d "accept") None (dofs c)); [|exact Hnone].
    unfold c_acc. rewrite perdof_exec by reflexivity.
    unfold c_new. apply perdof_run_plain; [apply plain_hmc_pre|].
    unfold hmc_pre. rewrite !forallb_app, keeps_perdof_hmc_propose by reflexivity.
    reflexivity. }
  assert (Hxold : map (fun d => perdof d "xold") (dofs c_acc)
                  = map Some (positions (after E hmc_draw_velocities c))).
  { unfold c_acc. rewrite perdof_exec by reflexivity.
    unfold c_new, hmc_pre, hmc_snapshot. rewrite <- !app_assoc.
    rewrite after_app by reflexivity. rewrite after_app by reflexivity.
    change ([ComputePerDof "xold" "x"] ++ hmc_propose nsteps ++ total_energy "Enew")
      with (ComputePerDof "xold" "x" :: hmc_propose nsteps ++ total_energy "Enew").
    rewrite after_cons by reflexivity.
    rewrite perdof_run_plain.
    - rewrite xold_after. f_equal. now apply positions_after.
    - rewrite forallb_app, plain_hmc_propose. reflexivity.
    - rewrite forallb_app, keeps_perdof_hmc_propose by reflexivity. reflexivity. }
  assert (Ha : get_global (after E statistics (after E hmc_restore c_acc)) "accept"
               = get_global c_acc "accept").
  { rewrite !get_global_after by reflexivity. reflexivity. }
  assert (Hx : positions (after E statistics (after E hmc_restore c_acc))
               = mapi (fun i x =>
                         nadd (nmul x (get_global c_acc "accept"))
                              (nmul (component (positions (after E hmc_draw_velocities c)) i)
                                    (nsub (Fin 1) (get_global c_acc "accept"))))
                      (positions c_new)).
  { rewrite positions_after by reflexivity.
    rewrite (hmc_restore_positions E c_acc _ Hacc Hxold). now rewrite Hpos. }
  split.
  - rewrite !velocities_after by reflexivity. exact Hvel.
  - intros i Hi. rewrite Ha, Hx.
    rewrite component_mapi
      by (unfold positions, c_new; rewrite length_map, length_dofs_after;
          [exact Hi | apply plain_hmc_pre]).
    destruct (blend_values (get_global c_acc "accept")
                (component (positions c_new) i)
                (component (positions (after E hmc_draw_velocities c)) i))
      as (B0 & B1 & Bn).
    split; [|split].
    + intros r s Hr' Hs' H0. apply (B0 r s Hr' Hs' H0).
    + intros r s Hr' Hs' H1. apply (B1 r s Hr' Hs' H1).
    + intros Hn. apply (Bn Hn).
Qed.

Lemma HMC_restores_positions_by_arithmetic_witness :
  exists I,
    HMCIntegrator kB_md unit_temperature 1 1 = Ok I
    /\ let E := harmonic_oscillator false in
       let c := createContext I (one_particle NaN (Fin 1)) (uniform_source 0.5) in
       component (positions (after E (before_accept (HMC 1)) c)) 0 = NaN
       /\ component (positions (step E I c)) 0 = NaN.
Proof.
  eexists. split; [apply HMCIntegrator_value|]. cbv zeta.
  assert (Hn : component
                 (positions
                    (after (harmonic_oscillator false) (before_accept (HMC 1))
                       (createContext
                          {| stepSize := 1;
                             globalVariables :=
                               [("naccept", 0); ("ntrials", 0);
                                ("kT", kB_md * unit_temperature);
                                ("ke", 0); ("Eold", 0); ("Enew", 0); ("accept", 0)];
                             perDofVariables := [("sigma", 0); ("xold", 0); ("x1", 0)];
                             computations := hmc_program 1 |}
                          (one_particle NaN (Fin 1)) (uniform_source 0.5)))) 0 = NaN).
  { unfold before_accept, hmc_pre, one_particle, uniform_source.
    rewrite hmc_propose_1. reflexivity. }
  split; [exact Hn|].
  apply (proj2 (HMC_restores_positions_by_arithmetic (harmonic_oscillator false)
                  kB_md unit_temperature 1 1 _ _
                  (HMCIntegrator_value kB_md unit_temperature 1 1)
                  (reachable_new _ _ _ _)) 0%nat).
  - cbn. lia.
  - left. exact Hn.
Defined.

(** X6.  [MetropolisMonteCarloIntegrator] takes back a rejected move by
    arithmetic, [x = (1-accept)*xold + x*accept].  In a step of a
    simulation: the velocities at the end are those drawn at its start; a
    coordinate whose snapshot and proposal are finite ends at the snapshot
    when the move is rejected and at the proposal when it is accepted; a
    coordinate whose proposal is [NaN] ends at [NaN] even when the move is
    rejected. *)
Theorem MC_restores_positions_by_arithmetic (E : Engine)
        (kB temperature sigma timestep : R)
        (I : CustomIntegrator) (c : context) :
  MetropolisMonteCarloIntegrator kB temperature sigma timestep = Ok I ->
  reachable E I c ->
  let c_snap := after E (before_snapshot MetropolisMC) c in
  let c_new := after E (before_accept MetropolisMC) c in
  let c' := step E I c in
  velocities c' = velocities c_snap
  /\ forall i, (i < List.length (dofs c))%nat ->
     (forall r s,
         component (positions c_snap) i = Fin r ->
         component (positions c_new) i = Fin s ->
         get_global c' "accept" = Fin 0 ->
         component (positions c') i = Fin r)
     /\ (forall r s,
         component (positions c_snap) i = Fin r ->
         component (positions c_new) i = Fin s ->
         get_global c' "accept" = Fin 1 ->
         component (positions c') i = Fin s)
     /\ (component (positions c_new) i = NaN \/ component (positions c_snap) i = NaN ->
         component (positions c') i = NaN).
Proof.
  intros H Hr. cbv zeta. cbn [before_snapshot before_accept].
  rewrite MetropolisMonteCarloIntegrator_value in H. injection H as <-.
  assert (Hnone : Forall (fun d => perdof d "accept" = None) (dofs c)).
  { refine (reachable_perdof_none E _ _ "accept" c _ _ Hr); reflexivity. }
  clear Hr. rewrite step_after. cbn [computations].
  rewrite mc_program_shape, (metropolized_split E _ _ _ _ (metropolized_mc E)).
  set (c_new := after E mc_pre c).
  set (c_acc := exec E (ComputeGlobal "accept" (Step mc_test)) c_new).
  assert (Hpos : positions c_acc = positions c_new) by now apply positions_exec.
  assert (Hvel : velocities c_acc = velocities (after E mc_draw_velocities c)).
  { unfold c_acc. rewrite velocities_exec by reflexivity.
    unfold c_new, mc_pre. rewrite after_app by reflexivity.
    now apply velocities_after. }
  assert (Hacc : Forall (fun d => perdof d "accept" = None) (dofs c_acc)).
  { apply (Forall_map_eq (fun d => perdof d "accept") None (dofs c)); [|exact Hnone].
    unfold c_acc. rewrite perdof_exec by reflexivity.
    unfold c_new. now apply perdof_run_plain. }
  assert (Hxold : map (fun d => perdof d "xold") (dofs c_acc)
                  = map Some (positions (after E mc_draw_velocities c))).
  { unfold c_acc. rewrite perdof_exec by reflexivity.
    unfold c_new, mc_pre, mc_snapshot.
    rewrite after_app by reflexivity.
    change ([ComputePerDof "xold" "x"; ComputeGlobal "Eold" "energy"] ++ mc_propose)
      with (ComputePerDof "xold" "x" :: ComputeGlobal "Eold" "energy" :: mc_propose).
    rewrite after_cons by reflexivity.
    rewrite perdof_run_plain by reflexivity. apply xold_after. }
  assert (Ha : get_global (after E statistics (after E mc_restore c_acc)) "accept"
               = get_global c_acc "accept").
  { rewrite !get_global_after by reflexivity. reflexivity. }
  assert (Hx : positions (after E statistics (after E mc_restore c_acc))
               = mapi (fun i x =>
                         nadd (nmul (nsub (Fin 1) (get_global c_acc "accept"))
                                    (component (positions (after E mc_draw_velocities c)) i))
                              (nmul x (get_global c_acc "accept")))
                      (positions c_new)).
  { rewrite positions_after by reflexivity.
    rewrite (mc_restore_positions E c_acc _ Hacc Hxold). now rewrite Hpos. }
  split.
  - rewrite !velocities_after by reflexivity. exact Hvel.
  - intros i Hi. rewrite Ha, Hx.
    rewrite component_mapi
      by (unfold positions, c_new; rewrite length_map, length_dofs_after;
          [exact Hi | reflexivity]).
    destruct (blend_values (get_global c_acc "accept")
                (component (positions c_new) i)
                (component (positions (after E mc_draw_velocities c)) i))
      as (B0 & B1 & Bn).
    split; [|split].
    + intros r s Hr' Hs' H0. apply (B0 r s Hr' Hs' H0).
    + intros r s Hr' Hs' H1. apply (B1 r s Hr' Hs' H1).
    + intros Hn. apply (Bn Hn).
Qed.

Lemma MC_restores_positions_by_arithmetic_witness :
  exists I,
    MetropolisMonteCarloIntegrator kB_md unit_temperature 1 1 = Ok I
    /\ let E := harmonic_oscillator false in
       let c := createContext I (one_particle NaN (Fin 1)) (uniform_source 0.5) in
       component (positions (after E (before_accept MetropolisMC) c)) 0 = NaN
       /\ component (positions (step E I c)) 0 = NaN.
Proof.
  eexists. split; [apply MetropolisMonteCarloIntegrator_value|]. cbv zeta.
  assert (Hn : component
                 (positions
                    (after (harmonic_oscillator false) (before_accept MetropolisMC)
                       (createContext
                          {| stepSize := 1;
                             globalVariables :=
                               [("naccept", 0); ("ntrials", 0);
                                ("kT", kB_md * unit_temperature);
                                ("Eold", 0); ("Enew", 0); ("accept", 0)];
                             perDofVariables :=
                               [("sigma_x", 1); ("sigma_v", 0); ("xold", 0)];
                             computations := mc_program |}
                          (one_particle NaN (Fin 1)) (uniform_source 0.5)))) 0 = NaN)
    by reflexivity.
  split; [exact Hn|].
  apply (proj2 (MC_restores_positions_by_arithmetic (harmonic_oscillator false)
                  kB_md unit_temperature 1 1 _ _
                  (MetropolisMonteCarloIntegrator_value kB_md unit_temperature 1 1)
                  (reachable_new _ _ _ _)) 0%nat).
  - cbn. lia.
  - left. exact Hn.
Defined.

(* ----------------------------------------------------------------- *)
(** ** The acceptance rate of HMC *)

(** X7.  [HMCIntegrator.acceptance_rate] divides [n_accept] by [n_trials]
    without a guard: on the context just created, before any trial, it
    raises [ZeroDivisionError]; after [n >= 1] steps [n_trials] is [n] and
    the rate is a number between 0 and 1. *)
Theorem HMC_acceptance_rate (E : Engine) (kB temperature : R) (nsteps : Z)
        (timestep : R) (I : CustomIntegrator) (system : list particle) (r : rng) :
  HMCIntegrator kB temperature nsteps timestep = Ok I ->
  let c := createContext I system r in
  acceptance_rate c = ZeroDivisionError
  /\ forall n, (1 <= n)%nat ->
       n_trials (steps E n I c) = Fin (INR n)
       /\ exists q, acceptance_rate (steps E n I c) = Quotient (Fin q) /\ 0 <= q <= 1.
Proof.
  intros H. cbv zeta.
  destruct (metropolized_integrator E kB temperature 0 0 timestep (HMC nsteps) I H)
    as (Hp & M & Ha0 & Ht0).
  assert (Hstep : forall c,
             let c' := step E I c in
             get_global c' "ntrials" = nadd (get_global c "ntrials") (Fin 1)
             /\ (get_global c' "accept" = Fin 0 \/ get_global c' "accept" = Fin 1)
             /\ get_global c' "naccept"
                = nadd (get_global c "naccept") (get_global c' "accept")).
  { intros c. unfold step. rewrite Hp. apply (metropolized_counters E _ _ _ c M). }
  assert (Hn0 : get_global (createContext I system r) "ntrials" = Fin (INR 0)).
  { unfold get_global, createContext. cbn [globals]. now rewrite Ht0. }
  assert (Hna0 : get_global (createContext I system r) "naccept" = Fin (INR 0)).
  { unfold get_global, createContext. cbn [globals]. now rewrite Ha0. }
  split.
  - unfold acceptance_rate, n_trials, truediv. rewrite Hn0. cbn [INR].
    destruct (Req_dec_T 0 0) as [_|Hne]; [reflexivity | now elim Hne].
  - intros n Hn.
    destruct (counters_steps E I Hstep n (createContext I system r) 0 0 Hn0 Hna0
                (le_n 0)) as (a & Hle & Ha & Ht).
    cbn [Nat.add] in Hle, Ht.
    split; [exact Ht|].
    exists (INR a / INR n).
    assert (Hpos : 0 < INR n) by (apply lt_0_INR; lia).
    split.
    + unfold acceptance_rate, n_accept, n_trials, truediv. rewrite Ha, Ht.
      destruct (Req_dec_T (INR n) 0) as [Hz|_]; [lra | reflexivity].
    + assert (Hb : 0 <= INR a <= INR n)
        by (split; [apply pos_INR | now apply le_INR]).
      split.
      * apply Rmult_le_pos; [lra | left; now apply Rinv_0_lt_compat].
      * apply (Rmult_le_reg_r (INR n)); [exact Hpos|].
        unfold Rdiv. rewrite Rmult_assoc, Rinv_l by lra. lra.
Qed.

Lemma HMC_acceptance_rate_witness :
  exists I,
    HMCIntegrator kB_md unit_temperature 1 1 = Ok I
    /\ let E := harmonic_oscillator false in
       let c := createContext I (one_particle (Fin 0) (Fin 1)) (uniform_source 0.5) in
       acceptance_rate c = ZeroDivisionError
       /\ exists q, acceptance_rate (steps E 2 I c) = Quotient (Fin q) /\ 0 <= q <= 1.
Proof.
  eexists. split; [apply HMCIntegrator_value|]. cbv zeta.
  destruct (HMC_acceptance_rate (harmonic_oscillator false) kB_md unit_temperature 1 1
              _ (one_particle (Fin 0) (Fin 1)) (uniform_source 0.5)
              (HMCIntegrator_value kB_md unit_temperature 1 1)) as [H0 Hn].
  split; [exact H0|].
  exact (proj2 (Hn 2%nat ltac:(lia))).
Defined.

(* ----------------------------------------------------------------- *)
(** ** Every name a program uses is declared *)

Lemma LangevinSplittingIntegrator_value
      (kB : R) (splitting : string) (temperature collision_rate timestep : R)
      (mw mh pc vc : bool) :
  let scheme := upper splitting in
  valid_scheme scheme ->
  LangevinSplittingIntegrator kB splitting temperature collision_rate timestep
                              mw mh pc vc
  = Ok {| stepSize := timestep;
          globalVariables :=
            langevin_globals (kB * temperature) (exp (- collision_rate * timestep))
                             mw mh;
          perDofVariables := [];
          computations :=
            langevin_program (count_letter "A" scheme) (count_letter "B" scheme)
                             mw mh pc vc scheme |}.
Proof.
  intros scheme Hv. unfold LangevinSplittingIntegrator. fold scheme.
  pose proof Hv as Hv'.
  apply assertions_valid_scheme in Hv' as [Hset Hcnt].
  rewrite Hset, Hcnt. cbn [negb].
  destruct Hv as (Hsyms & _).
  erewrite (for_raising_emit _ _
              (langevin_block (count_letter "A" scheme) (count_letter "B" scheme)
                              mw mh pc vc)).
  - unfold langevin_program. destruct mw, mh; reflexivity.
  - intros a self Ha. destruct (Hsyms a Ha) as [-> | [-> | ->]];
      destruct mw, mh, pc, vc; cbn; emit_norm.
Qed.

Lemma balanced_plain (p : list computation) (d : nat) :
  forallb is_plain p = true -> balanced d p = (d =? 0)%nat.
Proof.
  induction p as [|i p IH]; intros Hp; [reflexivity|].
  cbn in Hp. apply andb_true_iff in Hp as [Hi Hp].
  destruct i; try discriminate Hi; cbn; now apply IH.
Qed.

Lemma forallb_concat {A : Type} (f : A -> bool) (ls : list (list A)) :
  forallb f (List.concat ls) = forallb (forallb f) ls.
Proof.
  induction ls as [|l ls IH]; [reflexivity|].
  cbn. now rewrite forallb_app, IH.
Qed.

Lemma forallb_of_map {A B : Type} (f : B -> bool) (g : A -> B) (l : list A) :
  forallb f (map g l) = forallb (fun a => f (g a)) l.
Proof. induction l as [|a l IH]; [reflexivity|]. cbn. now rewrite IH. Qed.

Lemma forallb_repeat {A : Type} (f : A -> bool) (a : A) (n : nat) :
  f a = true -> forallb f (repeat a n) = true.
Proof. intros H. induction n as [|n IH]; [reflexivity|]. cbn. now rewrite H, IH. Qed.

Lemma plain_langevin_program (n_A n_B : nat) (mw mh pc vc : bool) (scheme : list ascii) :
  forallb is_plain (langevin_program n_A n_B mw mh pc vc scheme) = true.
Proof.
  unfold langevin_program. rewrite forallb_concat, forallb_of_map.
  apply forallb_forall. intros a _. unfold langevin_block, update_of. cbv zeta.
  destruct (Ascii.eqb a "A"), (Ascii.eqb a "B"), (Ascii.eqb a "O"), mw, mh, pc, vc;
    reflexivity.
Qed.

(** X8.  Whatever its arguments, a constructor of the module that returns
    an integrator returns one the engine accepts: every name its
    computations read is a built-in or a variable it has registered, of the
    kind the computation can read; every computation stores into [x], [v],
    [dt] or a registered variable of the right kind; and the blocks are
    balanced. *)
Theorem constructors_declare_what_they_use (kB : R) (k : call) (I : CustomIntegrator) :
  make kB k = Ok I -> well_formed I = true.
Proof.
  destruct k; cbn [make]; intros H.
  - rewrite DummyIntegrator_value in H. now injection H as <-.
  - rewrite VelocityVerletIntegrator_value in H. now injection H as <-.
  - rewrite AndersenVelocityVerletIntegrator_value in H. now injection H as <-.
  - rewrite MetropolisMonteCarloIntegrator_value in H. now injection H as <-.
  - rewrite HMCIntegrator_value in H. injection H as <-.
    unfold well_formed. cbn [computations globalVariables perDofVariables map fst].
    rewrite (balanced_plain _ _ (plain_hmc_program nsteps)).
    unfold hmc_program, hmc_propose.
    rewrite !forallb_app, forallb_concat, forallb_repeat by reflexivity.
    reflexivity.
  - rewrite GHMCIntegrator_value in H. now injection H as <-.
  - rewrite VVVRIntegrator_value in H. now injection H as <-.
  - destruct (LangevinSplittingIntegrator_program kB splitting temperature
                collision_rate timestep monitor_work monitor_heat
                position_constraints velocity_constraints) as [_ Hfail].
    cbv zeta in Hfail.
    assert (Hv : valid_scheme (upper splitting)).
    { destruct (assertions_valid_scheme (upper splitting)) as [Hiff _].
      destruct (set_eq (upper splitting) (list_ascii_of_string "ABO")) eqn:Hset;
        [|unfold LangevinSplittingIntegrator in H; rewrite Hset in H; discriminate H].
      destruct (count_letter "O" (upper splitting) =? 1)%nat eqn:Hcnt;
        [|unfold LangevinSplittingIntegrator in H; rewrite Hset, Hcnt in H;
          discriminate H].
      now apply Hiff. }
    rewrite (LangevinSplittingIntegrator_value _ _ _ _ _ _ _ _ _ Hv) in H.
    injection H as <-.
    unfold well_formed. cbn [computations globalVariables perDofVariables map].
    rewrite (balanced_plain _ _ (plain_langevin_program _ _ _ _ _ _ _)).
    rewrite andb_true_r.
    unfold langevin_program. rewrite forallb_concat, forallb_of_map.
    apply forallb_forall. intros a Ha.
    destruct Hv as (Hsyms & _).
    destruct (Hsyms a Ha) as [-> | [-> | ->]];
      destruct monitor_work, monitor_heat, position_constraints, velocity_constraints;
      reflexivity.
Qed.

Lemma constructors_declare_what_they_use_witness :
  exists I,
    make kB_md (CallHMC unit_temperature 3 1) = Ok I /\ well_formed I = true.
Proof.
  eexists. split; [apply HMCIntegrator_value|].
  apply (constructors_declare_what_they_use kB_md (CallHMC unit_temperature 3 1) _
           (HMCIntegrator_value kB_md unit_temperature 3 1)).
Defined.

(* ----------------------------------------------------------------- *)
(** ** The Andersen thermostat *)

Lemma nth_error_mapi_from {A B : Type} (f : nat -> A -> B) (l : list A) (k i : nat)
      (a : A) :
  nth_error l i = Some a -> nth_error (mapi_from k f l) i = Some (f (k + i)%nat a).
Proof.
  revert k i. induction l as [|b l IH]; intros k [|i] H; cbn in *; try discriminate H.
  - injection H as ->. now rewrite Nat.add_0_r.
  - rewrite (IH (S k) i H). now rewrite Nat.add_succ_r.
Qed.

Lemma component_dofs (h : dof -> num) (f : nat -> dof -> dof) (l : list dof)
      (i : nat) (d : dof) :
  nth_error l i = Some d -> component (map h (mapi_from 0 f l)) i = h (f i d).
Proof.
  intros H. apply component_map.
  now rewrite (nth_error_mapi_from f l 0 i d H).
Qed.

Ltac folded := cbn -[nadd nsub nmul ndiv nneg nsqrt nexp nstep ndelta component].

(** X9.  [AndersenVelocityVerletIntegrator] runs its thermostat and then the
    program of [VelocityVerletIntegrator].  In a step of a simulation the
    thermostat treats each degree of freedom on its own: with [u] its
    uniform draw and [g] its Gaussian draw, the degree of freedom collides
    when [u <= timestep*collision_rate] and its velocity becomes
    [sqrt(kT/m)*g]; otherwise its velocity is kept. *)
Theorem Andersen_collisions (E : Engine) (kB temperature collision_rate timestep : R)
        (I : CustomIntegrator) (c : context) (i : nat) (d : dof) (m v u g : R) :
  AndersenVelocityVerletIntegrator kB temperature collision_rate timestep = Ok I ->
  reachable E I c ->
  nth_error (dofs c) i = Some d ->
  mass d = Fin m -> 0 < m -> 0 <= kB * temperature ->
  vel d = Fin v -> next_uniform_of d = Fin u -> next_gaussian d = Fin g ->
  let c1 := after E andersen_thermostat c in
  step E I c = after E vv_program c1
  /\ (u <= timestep * collision_rate ->
      component (velocities c1) i = Fin (sqrt (kB * temperature / m) * g))
  /\ (timestep * collision_rate < u -> component (velocities c1) i = Fin v).
Proof.
  intros H Hr Hi Hm Hmpos HkT Hv Hu Hg. cbv zeta.
  rewrite AndersenVelocityVerletIntegrator_value in H. injection H as <-.
  assert (Hplain : forallb is_plain andersen_program = true) by reflexivity.
  assert (GkT : globals c "kT" = Some (Fin (kB * temperature)))
    by (refine (reachable_global E _ "kT" c _ Hr); reflexivity).
  assert (Gp : globals c "p_collision" = Some (Fin (timestep * collision_rate)))
    by (refine (reachable_global E _ "p_collision" c _ Hr); reflexivity).
  assert (NkT : Forall (fun d => perdof d "kT" = None) (dofs c))
    by (refine (reachable_perdof_none E _ _ "kT" c _ _ Hr); reflexivity).
  assert (Np : Forall (fun d => perdof d "p_collision" = None) (dofs c))
    by (refine (reachable_perdof_none E _ _ "p_collision" c _ _ Hr); reflexivity).
  pose proof (perdof_none_at _ _ _ _ NkT Hi) as NkT'.
  pose proof (perdof_none_at _ _ _ _ Np Hi) as Np'.
  clear Hr NkT Np.
  split.
  { rewrite step_after. cbn [computations]. unfold andersen_program.
    now rewrite after_app by reflexivity. }
  assert (Hvel : component (velocities (after E andersen_thermostat c)) i
                 = nadd (nmul (nsub (Fin 1)
                                 (nstep (nan_step E)
                                    (nsub (Fin (timestep * collision_rate)) (Fin u))))
                              (Fin v))
                        (nmul (nmul (nstep (nan_step E)
                                      (nsub (Fin (timestep * collision_rate)) (Fin u)))
                                    (nsqrt (ndiv (Fin (kB * temperature)) (Fin m))))
                              (Fin g))).
  { unfold andersen_thermostat. rewrite !after_cons by reflexivity. rewrite after_nil.
    unfold velocities. folded. unfold mapi. rewrite !mapi_from_mapi_from.
    rewrite (component_dofs vel _ _ i d Hi). folded.
    unfold next_uniform_of in Hu. unfold next_gaussian in Hg.
    now rewrite NkT', Np', GkT, Gp, Hm, Hv, Hu, Hg. }
  rewrite Hvel.
  assert (Hs : 0 <= kB * temperature / m)
    by (apply Rmult_le_pos; [assumption | left; now apply Rinv_0_lt_compat]).
  split.
  - intros Hcol. cbn [nsub lift2]. rewrite nstep_fin_ge by lra.
    rewrite ndiv_fin, nsqrt_fin by lra. cbn. f_equal. ring.
  - intros Hfree. cbn [nsub lift2]. rewrite nstep_fin_lt by lra.
    rewrite ndiv_fin, nsqrt_fin by lra. cbn. f_equal. ring.
Qed.

Lemma Andersen_collisions_witness :
  exists I,
    AndersenVelocityVerletIntegrator kB_md unit_temperature 1 1 = Ok I
    /\ let E := harmonic_oscillator false in
       let c := createContext I (one_particle (Fin 0) (Fin 2)) (uniform_source 0.5) in
       component (velocities (after E andersen_thermostat c)) 0
       = Fin (sqrt (kB_md * unit_temperature / 1) * 2).
Proof.
  eexists. split; [apply AndersenVelocityVerletIntegrator_value|]. cbv zeta.
  pose proof (Andersen_collisions (harmonic_oscillator false)
                kB_md unit_temperature 1 1 _ _ 0%nat _ 1 0 0 2
                (AndersenVelocityVerletIntegrator_value _ _ _ _)
                (reachable_new _ _ (one_particle (Fin 0) (Fin 2)) (uniform_source 0.5))
                eq_refl eq_refl) as W.
  apply W; try reflexivity; try lra.
  rewrite kT_unit. lra.
Defined.

(* ----------------------------------------------------------------- *)
(** ** The collision rate at its edges *)

Section Prefix.

Variable E : Engine.
Variable I : CustomIntegrator.
Hypothesis Hplain : forallb is_plain (computations I) = true.

(** The invariants of a simulation hold within a step as well. *)
Lemma prefix_global (name : string) (c : context) (p q : list computation) :
  forallb (keeps_global name) (computations I) = true ->
  reachable E I c ->
  computations I = p ++ q ->
  globals (after E p c) name = initial_values (globalVariables I) name.
Proof.
  intros Hk Hr Hpq.
  assert (Hkp : forallb (keeps_global name) p = true).
  { rewrite Hpq, forallb_app in Hk. now apply andb_true_iff in Hk as [Hk _]. }
  unfold after. rewrite globals_run by assumption. cbn [snd].
  now apply (reachable_global E I).
Qed.

Lemma prefix_perdof_none (name : string) (c : context) (p q : list computation) :
  forallb (keeps_perdof name) (computations I) = true ->
  initial_values (perDofVariables I) name = None ->
  reachable E I c ->
  computations I = p ++ q ->
  Forall (fun d => perdof d name = None) (dofs (after E p c)).
Proof.
  intros Hk Hn Hr Hpq.
  assert (Hkp : forallb (keeps_perdof name) p = true).
  { rewrite Hpq, forallb_app in Hk. now apply andb_true_iff in Hk as [Hk _]. }
  assert (Hpp : forallb is_plain p = true).
  { rewrite Hpq, forallb_app in Hplain. now apply andb_true_iff in Hplain as [H _]. }
  apply (Forall_map_eq (fun d => perdof d name) None (dofs c)).
  - now apply perdof_run_plain.
  - now apply (reachable_perdof_none E I Hplain).
Qed.

End Prefix.

Lemma nsqrt_neg (a : R) : a < 0 -> nsqrt (Fin a) = NaN.
Proof. intros H. cbn. destruct (Rle_lt_dec 0 a); [lra | reflexivity]. Qed.

Lemma decay_one (gamma h : R) : gamma * h = 0 -> exp (- gamma * h) = 1.
Proof. intros H. replace (- gamma * h) with 0 by lra. apply exp_0. Qed.

Lemma decay_above_one (gamma h : R) : gamma * h < 0 -> 1 < exp (- gamma * h).
Proof.
  intros H. rewrite <- exp_0. apply exp_increasing. lra.
Qed.

Lemma LangevinSplittingIntegrator_ok
      (kB : R) (splitting : string) (temperature collision_rate timestep : R)
      (mw mh pc vc : bool) (I : CustomIntegrator) :
  LangevinSplittingIntegrator kB splitting temperature collision_rate timestep
                              mw mh pc vc = Ok I ->
  let scheme := upper splitting in
  valid_scheme scheme
  /\ I = {| stepSize := timestep;
            globalVariables :=
              langevin_globals (kB * temperature) (exp (- collision_rate * timestep))
                               mw mh;
            perDofVariables := [];
            computations :=
              langevin_program (count_letter "A" scheme) (count_letter "B" scheme)
                               mw mh pc vc scheme |}.
Proof.
  intros H scheme.
  assert (Hv : valid_scheme scheme).
  { destruct (assertions_valid_scheme scheme) as [Hiff _].
    destruct (set_eq scheme (list_ascii_of_string "ABO")) eqn:Hset;
      [|unfold LangevinSplittingIntegrator in H; fold scheme in H;
        rewrite Hset in H; discriminate H].
    destruct (count_letter "O" scheme =? 1)%nat eqn:Hcnt;
      [|unfold LangevinSplittingIntegrator in H; fold scheme in H;
        rewrite Hset, Hcnt in H; discriminate H].
    now apply Hiff. }
  split; [exact Hv|].
  rewrite (LangevinSplittingIntegrator_value _ _ _ _ _ _ _ _ _ Hv) in H.
  now injection H as <-.
Qed.

Lemma forallb_langevin_program (f : computation -> bool)
      (n_A n_B : nat) (mw mh pc vc : bool) (scheme : list ascii) :
  (forall a, forallb f (langevin_block n_A n_B mw mh pc vc a) = true) ->
  forallb f (langevin_program n_A n_B mw mh pc vc scheme) = true.
Proof.
  intros H. unfold langevin_program. rewrite forallb_concat, forallb_of_map.
  apply forallb_forall. intros a _. apply H.
Qed.

Ltac langevin_blocks :=
  intros a; unfold langevin_block, update_of; cbv zeta;
  destruct (Ascii.eqb a "A"), (Ascii.eqb a "B"), (Ascii.eqb a "O");
  repeat match goal with b : bool |- _ => destruct b end; reflexivity.

Lemma langevin_keeps_b (n_A n_B : nat) (mw mh pc vc : bool) (scheme : list ascii) :
  forallb (keeps_global "b") (langevin_program n_A n_B mw mh pc vc scheme) = true
  /\ forallb (keeps_global "kT") (langevin_program n_A n_B mw mh pc vc scheme) = true
  /\ forallb (keeps_perdof "b") (langevin_program n_A n_B mw mh pc vc scheme) = true
  /\ forallb (keeps_perdof "kT") (langevin_program n_A n_B mw mh pc vc scheme) = true.
Proof.
  repeat split; apply forallb_langevin_program; langevin_blocks.
Qed.

Lemma langevin_globals_b (kT b : R) (mw mh : bool) :
  initial_values (langevin_globals kT b mw mh) "b" = Some (Fin b)
  /\ initial_values (langevin_globals kT b mw mh) "kT" = Some (Fin kT).
Proof. destruct mw, mh; split; reflexivity. Qed.

(** X10.  [LangevinSplittingIntegrator] with a collision rate of zero has
    no noise.  Whenever the O update
    [b*v + sqrt(kT*(1-b*b))*gaussian/sqrt(m)] runs in a simulation whose
    [collision_rate*timestep] is 0, on a degree of freedom of finite
    velocity [v], mass [m > 0] and finite Gaussian draw, it leaves the
    velocity [v]: [b] is [exp(0) = 1], the square root is that of
    [kT*(1 - 1*1) = 0], and the integrator is deterministic. *)
Theorem Langevin_O_step_without_collisions (E : Engine) (kB : R) (splitting : string)
        (temperature collision_rate timestep : R) (mw mh pc vc : bool)
        (I : CustomIntegrator) (c : context) (p q : list computation)
        (i : nat) (d : dof) (m v g : R) :
  LangevinSplittingIntegrator kB splitting temperature collision_rate timestep
                              mw mh pc vc = Ok I ->
  collision_rate * timestep = 0 ->
  reachable E I c ->
  computations I = p ++ ou_update :: q ->
  let c1 := after E p c in
  nth_error (dofs c1) i = Some d ->
  mass d = Fin m -> 0 < m -> vel d = Fin v -> next_gaussian d = Fin g ->
  component (velocities (exec E ou_update c1)) i = Fin v.
Proof.
  intros H H0 Hr Hpq. cbv zeta. intros Hi Hm Hmpos Hv Hg.
  destruct (LangevinSplittingIntegrator_ok _ _ _ _ _ _ _ _ _ _ H) as [Hvalid ->].
  cbn [computations] in Hpq.
  set (scheme := upper splitting) in *.
  set (prog := langevin_program (count_letter "A" scheme) (count_letter "B" scheme)
                                mw mh pc vc scheme) in *.
  destruct (langevin_keeps_b (count_letter "A" scheme) (count_letter "B" scheme)
              mw mh pc vc scheme) as (Kb & KkT & Pb & PkT).
  fold prog in Kb, KkT, Pb, PkT.
  destruct (langevin_globals_b (kB * temperature) (exp (- collision_rate * timestep))
              mw mh) as (Ib & IkT).
  assert (Hplain : forallb is_plain prog = true) by apply plain_langevin_program.
  assert (Gb : globals (after E p c) "b" = Some (Fin (exp (- collision_rate * timestep)))).
  { rewrite <- Ib. refine (prefix_global E _ "b" c p _ _ Hr _); [exact Kb | exact Hpq]. }
  assert (GkT : globals (after E p c) "kT" = Some (Fin (kB * temperature))).
  { rewrite <- IkT. refine (prefix_global E _ "kT" c p _ _ Hr _); [exact KkT | exact Hpq]. }
  assert (Nb : perdof d "b" = None).
  { refine (perdof_none_at "b" _ i d _ Hi).
    refine (prefix_perdof_none E _ _ "b" c p _ _ _ Hr _);
      [exact Hplain | exact Pb | reflexivity | exact Hpq]. }
  assert (NkT : perdof d "kT" = None).
  { refine (perdof_none_at "kT" _ i d _ Hi).
    refine (prefix_perdof_none E _ _ "kT" c p _ _ _ Hr _);
      [exact Hplain | exact PkT | reflexivity | exact Hpq]. }
  clear Hr Hpq.
  set (b := exp (- collision_rate * timestep)) in *.
  assert (Hvel : component (velocities (exec E ou_update (after E p c))) i
                 = nadd (nmul (Fin b) (Fin v))
                        (ndiv (nmul (nsqrt (nmul (Fin (kB * temperature))
                                                 (nsub (Fin 1) (nmul (Fin b) (Fin b)))))
                                    (Fin g))
                              (nsqrt (Fin m)))).
  { unfold velocities, ou_update. folded. unfold mapi.
    rewrite (component_dofs vel _ _ i d Hi). folded.
    unfold next_gaussian in Hg.
    now rewrite Nb, NkT, Gb, GkT, Hm, Hv, Hg. }
  rewrite Hvel.
  assert (Hsm : 0 < sqrt m) by now apply sqrt_lt_R0.
  unfold b. rewrite (decay_one _ _ H0).
  cbn [nmul nsub lift2].
  replace (kB * temperature * (1 - 1 * 1)) with 0 by ring.
  rewrite !nsqrt_fin by lra. rewrite sqrt_0. cbn [nmul lift2].
  rewrite ndiv_fin by lra. cbn. f_equal. field. lra.
Qed.

Lemma Langevin_O_step_without_collisions_witness :
  exists I,
    LangevinSplittingIntegrator kB_md "BAOAB" unit_temperature 0 1
                                false false false false = Ok I
    /\ let E := harmonic_oscillator false in
       let c := createContext I (one_particle (Fin 1) (Fin 3)) (uniform_source 0.5) in
       let c1 := after E [kick_update 2; drift_update 2] c in
       exists v,
         velocities c1 = [Fin v]
         /\ component (velocities (exec E ou_update c1)) 0 = Fin v.
Proof.
  eexists. split; [apply LangevinSplittingIntegrator_value; apply valid_BAOAB|].
  cbv zeta.
  assert (H2 : INR 2 <> 0) by (cbn; lra).
  eexists. split.
  - unfold one_particle, uniform_source. folded. rewrite ndiv_fin by exact H2.
    cbn [nadd nmul nneg lift1 lift2]. reflexivity.
  - refine (Langevin_O_step_without_collisions
              (harmonic_oscillator false) kB_md "BAOAB"
              unit_temperature 0 1 false false false false _ _
              [kick_update 2; drift_update 2] [drift_update 2; kick_update 2]
              0%nat _ 1 _ 3
              (LangevinSplittingIntegrator_value _ _ _ _ _ _ _ _ _ valid_BAOAB)
              _
              (reachable_new _ _ (one_particle (Fin 1) (Fin 3))
                             (uniform_source 0.5))
              eq_refl eq_refl eq_refl _ _ eq_refl).
    + lra.
    + lra.
    + folded. rewrite ndiv_fin by exact H2.
      cbn [nadd nmul nneg lift1 lift2]. reflexivity.
Defined.

(** X15.  A negative radicand in the O update.  The collision rate of
    [LangevinSplittingIntegrator] is not checked.  When the values the
    constructor registers for [kT] and [b] make [kT*(1 - b*b)] negative
    (a [b] above 1, from a negative collision rate, with a positive [kT]),
    the O update takes the square root of a negative number: wherever it
    runs in the simulation, it leaves every velocity [NaN], whatever the
    velocities, the masses and the draws. *)
Theorem Langevin_O_step_negative_radicand (E : Engine) (kB : R) (splitting : string)
        (temperature collision_rate timestep : R) (mw mh pc vc : bool)
        (I : CustomIntegrator) (c : context) (p q : list computation)
        (kT b : R) :
  LangevinSplittingIntegrator kB splitting temperature collision_rate timestep
                              mw mh pc vc = Ok I ->
  initial_values (globalVariables I) "kT" = Some (Fin kT) ->
  initial_values (globalVariables I) "b" = Some (Fin b) ->
  kT * (1 - b * b) < 0 ->
  reachable E I c ->
  computations I = p ++ ou_update :: q ->
  velocities (exec E ou_update (after E p c)) = repeat NaN (List.length (dofs c)).
Proof.
  intros H IkT Ib Hneg Hr Hpq.
  destruct (LangevinSplittingIntegrator_ok _ _ _ _ _ _ _ _ _ _ H) as [Hvalid HI].
  rewrite HI in Hpq. cbn [computations] in Hpq.
  set (scheme := upper splitting) in *.
  set (prog := langevin_program (count_letter "A" scheme) (count_letter "B" scheme)
                                mw mh pc vc scheme) in *.
  destruct (langevin_keeps_b (count_letter "A" scheme) (count_letter "B" scheme)
              mw mh pc vc scheme) as (Kb & KkT & Pb & PkT).
  fold prog in Kb, KkT, Pb, PkT.
  assert (HcI : computations I = prog) by (rewrite HI; reflexivity).
  assert (HpI : initial_values (perDofVariables I) = fun _ => None)
    by (rewrite HI; reflexivity).
  assert (Hplain : forallb is_plain (computations I) = true)
    by (rewrite HcI; apply plain_langevin_program).
  rewrite <- HcI in Kb, KkT, Pb, PkT, Hpq.
  assert (Gb : globals (after E p c) "b" = Some (Fin b)).
  { rewrite <- Ib. now apply (prefix_global E I "b" c p (ou_update :: q)). }
  assert (GkT : globals (after E p c) "kT" = Some (Fin kT)).
  { rewrite <- IkT. now apply (prefix_global E I "kT" c p (ou_update :: q)). }
  assert (Nb : Forall (fun d => perdof d "b" = None) (dofs (after E p c))).
  { apply (prefix_perdof_none E I Hplain "b" c p (ou_update :: q));
      try assumption. now rewrite HpI. }
  assert (NkT : Forall (fun d => perdof d "kT" = None) (dofs (after E p c))).
  { apply (prefix_perdof_none E I Hplain "kT" c p (ou_update :: q));
      try assumption. now rewrite HpI. }
  assert (Hl : List.length (dofs (after E p c)) = List.length (dofs c)).
  { apply length_dofs_after. rewrite Hpq, forallb_app in Hplain.
    now apply andb_true_iff in Hplain as [Hp _]. }
  rewrite <- Hl.
  unfold velocities, ou_update. folded. unfold mapi.
  apply map_mapi_const. intros i d Hi. folded.
  rewrite Forall_forall in Nb, NkT.
  rewrite (Nb d (nth_error_In _ _ Hi)), (NkT d (nth_error_In _ _ Hi)), Gb, GkT.
  cbn [nmul nsub lift2]. rewrite (nsqrt_neg (kT * (1 - b * b))) by exact Hneg.
  cbn [nmul ndiv lift2]. apply nadd_NaN_r.
Qed.

Lemma Langevin_O_step_negative_radicand_witness :
  exists I,
    LangevinSplittingIntegrator kB_md "BAOAB" unit_temperature (-1) 1
                                false false false false = Ok I
    /\ let E := harmonic_oscillator false in
       let c := createContext I (one_particle (Fin 1) (Fin 3)) (uniform_source 0.5) in
       List.length (dofs c) = 1%nat
       /\ velocities (exec E ou_update (after E [kick_update 2; drift_update 2] c))
          = repeat NaN (List.length (dofs c)).
Proof.
  eexists. split; [apply LangevinSplittingIntegrator_value; apply valid_BAOAB|].
  cbv zeta. split; [reflexivity|].
  apply (Langevin_O_step_negative_radicand
           (harmonic_oscillator false) kB_md "BAOAB"
           unit_temperature (-1) 1 false false false false _ _
           [kick_update 2; drift_update 2] [drift_update 2; kick_update 2]
           (kB_md * unit_temperature) (exp (- -1 * 1))
           (LangevinSplittingIntegrator_value _ _ _ _ _ _ _ _ _ valid_BAOAB)
           eq_refl eq_refl).
  - rewrite kT_unit.
    pose proof (decay_above_one (-1) 1 ltac:(lra)) as Hb. nra.
  - apply reachable_new.
  - reflexivity.
Defined.

(* ----------------------------------------------------------------- *)
(** ** Heat and shadow work of the Langevin splitting *)

Section Bookkeeping.

Variable E : Engine.

Lemma masses_exec (i : computation) (c : context) :
  masses (exec E i c) = masses c.
Proof.
  unfold masses.
  destruct i; cbn [exec]; try reflexivity.
  - apply map_mapi_same. reflexivity.
  - apply map_mapi_same. reflexivity.
  - apply map_mapi_same. reflexivity.
  - unfold compute_global.
    destruct (eval E (global_lookup E c) expression (ctx_rng c)) as [a r].
    unfold set_global. now destruct (variable =? "dt")%string.
  - unfold compute_per_dof. cbn [dofs with_dofs].
    apply map_mapi_same. intros k d.
    destruct (eval E (dof_lookup E c k d) expression (dof_rng d)) as [a r].
    unfold set_perdof.
    destruct (variable =? "x")%string; [reflexivity|].
    now destruct (variable =? "v")%string.
  - unfold compute_sum, set_global.
    destruct (variable =? "dt")%string; cbn [dofs with_dofs with_dt with_global];
      apply map_mapi_same; reflexivity.
Qed.

(** The kinetic energy is a function of the masses and the velocities. *)
Lemma kinetic_energy_observables (c c' : context) :
  masses c' = masses c -> velocities c' = velocities c ->
  kinetic_energy c' = kinetic_energy c.
Proof.
  unfold masses, velocities, kinetic_energy. intros Hm Hv. f_equal.
  revert Hm Hv. generalize (dofs c). generalize (dofs c').
  induction l as [|d' l' IH]; intros [|d l] Hm Hv; cbn in *;
    try discriminate Hm; [reflexivity|].
  injection Hm as Hm1 Hm. injection Hv as Hv1 Hv.
  rewrite Hm1, Hv1. f_equal. now apply IH.
Qed.

Lemma kinetic_energy_exec (i : computation) (c : context) :
  keeps_velocities i = true -> kinetic_energy (exec E i c) = kinetic_energy c.
Proof.
  intros Hk. apply kinetic_energy_observables;
    [apply masses_exec | now apply velocities_exec].
Qed.

(** A sum of [0.5*m*v*v] stores the kinetic energy. *)
Lemma ke_sum_exec (name : string) (c : context) :
  (name =? "dt")%string = false ->
  get_global (exec E (ComputeSum name (0.5 * "m" * "v" * "v")) c) name
  = kinetic_energy c.
Proof.
  intros Hdt. unfold get_global. cbn [exec]. unfold compute_sum, set_global.
  rewrite Hdt. cbn [globals with_global with_dofs]. rewrite String.eqb_refl.
  cbn. unfold kinetic_energy, mapi. rewrite map_mapi_from.
  now rewrite (mapi_from_map
                 (fun d => nmul (nmul (nmul (Fin 0.5) (mass d)) (vel d)) (vel d))).
Qed.

End Bookkeeping.

Lemma langevin_program_app (n_A n_B : nat) (mw mh pc vc : bool) (s1 s2 : list ascii) :
  langevin_program n_A n_B mw mh pc vc (s1 ++ s2)
  = langevin_program n_A n_B mw mh pc vc s1 ++ langevin_program n_A n_B mw mh pc vc s2.
Proof. unfold langevin_program. now rewrite map_app, concat_app. Qed.

Lemma langevin_program_one (n_A n_B : nat) (mw mh pc vc : bool) (a : ascii) :
  langevin_program n_A n_B mw mh pc vc [a] = langevin_block n_A n_B mw mh pc vc a.
Proof. unfold langevin_program. cbn. apply app_nil_r. Qed.

Lemma single_O (s1 s2 : list ascii) :
  valid_scheme (s1 ++ "O"%char :: s2) ->
  ~ In "O"%char s1 /\ ~ In "O"%char s2.
Proof.
  intros (_ & _ & _ & _ & Hc).
  rewrite count_occ_app in Hc. cbn in Hc.
  destruct (ascii_dec "O" "O") as [_|Hne]; [|now elim Hne].
  split; apply (count_occ_not_In ascii_dec); lia.
Qed.

Lemma block_keeps_heat (n_A n_B : nat) (mw mh pc vc : bool) (a : ascii) :
  a <> "O"%char ->
  forallb (keeps_global "heat") (langevin_block n_A n_B mw mh pc vc a) = true.
Proof.
  intros Ha. apply Ascii.eqb_neq in Ha.
  unfold langevin_block, update_of. cbv zeta. rewrite Ha.
  destruct (Ascii.eqb a "A"), (Ascii.eqb a "B"), mw, mh, pc, vc; reflexivity.
Qed.

Lemma program_keeps_heat (n_A n_B : nat) (mw mh pc vc : bool) (s : list ascii) :
  ~ In "O"%char s ->
  forallb (keeps_global "heat") (langevin_program n_A n_B mw mh pc vc s) = true.
Proof.
  intros Hs. unfold langevin_program. rewrite forallb_concat, forallb_of_map.
  apply forallb_forall. intros a Ha. apply block_keeps_heat.
  intros ->. now apply Hs.
Qed.

Lemma O_block_with_heat (n_A n_B : nat) (mw pc vc : bool) :
  langevin_block n_A n_B mw true pc vc "O"
  = ComputeSum "old_ke" (0.5 * "m" * "v" * "v")
    :: (ou_update :: (if vc then [ConstrainVelocities] else []))
    ++ [ComputeSum "new_ke" (0.5 * "m" * "v" * "v");
        ComputeGlobal "heat" ("heat" + ("new_ke" - "old_ke"))].
Proof. destruct mw, pc, vc; reflexivity. Qed.

(** X11.  With [monitor_heat], one step of [LangevinSplittingIntegrator]
    adds to the global [heat] the change of the kinetic energy over the O
    block, the O update with its velocity constraint, and nothing else:
    the kinetic energy when the block ends minus the kinetic energy when
    it starts. *)
Theorem Langevin_heat (E : Engine) (kB : R) (splitting : string)
        (temperature collision_rate timestep : R) (mw pc vc : bool)
        (I : CustomIntegrator) (s1 s2 : list ascii) (c : context) :
  LangevinSplittingIntegrator kB splitting temperature collision_rate timestep
                              mw true pc vc = Ok I ->
  upper splitting = s1 ++ "O"%char :: s2 ->
  let n_A := count_letter "A" (upper splitting) in
  let n_B := count_letter "B" (upper splitting) in
  let c_in := after E (langevin_program n_A n_B mw true pc vc s1) c in
  let c_out := after E (langevin_program n_A n_B mw true pc vc (s1 ++ ["O"%char])) c in
  get_global (step E I c) "heat"
  = nadd (get_global c "heat") (nsub (kinetic_energy c_out) (kinetic_energy c_in)).
Proof.
  intros H Hs. cbv zeta.
  destruct (LangevinSplittingIntegrator_ok _ _ _ _ _ _ _ _ _ _ H) as [Hvalid ->].
  cbv zeta in Hvalid. rewrite step_after. cbn [computations].
  set (n_A := count_letter "A" (upper splitting)).
  set (n_B := count_letter "B" (upper splitting)).
  rewrite Hs in Hvalid |- *.
  destruct (single_O s1 s2 Hvalid) as [H1 H2].
  change (s1 ++ "O"%char :: s2) with (s1 ++ ["O"%char] ++ s2).
  rewrite !langevin_program_app, langevin_program_one.
  rewrite !after_app by (apply plain_langevin_program ||
    (rewrite <- langevin_program_one; apply plain_langevin_program)).
  rewrite (get_global_after E "heat" (langevin_program n_A n_B mw true pc vc s2))
    by now apply program_keeps_heat.
  set (c0 := after E (langevin_program n_A n_B mw true pc vc s1) c).
  assert (Hh0 : get_global c0 "heat" = get_global c "heat")
    by (apply get_global_after; now apply program_keeps_heat).
  rewrite <- Hh0. clearbody c0. clear Hh0.
  rewrite O_block_with_heat.
  set (mid := ou_update :: (if vc then [ConstrainVelocities] else [])).
  assert (Pmid : forallb is_plain mid = true) by (unfold mid; now destruct vc).
  rewrite after_cons by reflexivity. rewrite after_app by exact Pmid.
  rewrite !after_cons by reflexivity. rewrite after_nil.
  set (c1 := exec E (ComputeSum "old_ke" (0.5 * "m" * "v" * "v")) c0).
  set (c2 := after E mid c1).
  set (c3 := exec E (ComputeSum "new_ke" (0.5 * "m" * "v" * "v")) c2).
  assert (K3 : get_global c3 "new_ke" = kinetic_energy c2) by now apply ke_sum_exec.
  assert (K1 : get_global c3 "old_ke" = kinetic_energy c0).
  { unfold c3, get_global. rewrite globals_exec by reflexivity.
    fold (get_global c2 "old_ke"). unfold c2.
    rewrite get_global_after by (unfold mid; now destruct vc).
    now apply ke_sum_exec. }
  assert (H3 : get_global c3 "heat" = get_global c0 "heat").
  { unfold c3, get_global. rewrite globals_exec by reflexivity.
    fold (get_global c2 "heat"). unfold c2.
    rewrite get_global_after by (unfold mid; now destruct vc).
    unfold c1, get_global. now rewrite globals_exec by reflexivity. }
  assert (Kout : kinetic_energy
                   (exec E (ComputeGlobal "heat" ("heat" + ("new_ke" - "old_ke"))) c3)
                 = kinetic_energy c2).
  { rewrite kinetic_energy_exec by reflexivity. now apply kinetic_energy_exec. }
  rewrite Kout, <- K3, <- K1, <- H3.
  reflexivity.
Qed.

Lemma Langevin_heat_witness :
  exists I,
    LangevinSplittingIntegrator kB_md "BAOAB" unit_temperature 1 1
                                false true true true = Ok I
    /\ let E := harmonic_oscillator false in
       let c := createContext I (one_particle (Fin 1) (Fin 3)) (uniform_source 0.5) in
       let c_in := after E (langevin_program 2 2 false true true true
                              ["B"%char; "A"%char]) c in
       let c_out := after E (langevin_program 2 2 false true true true
                               ["B"%char; "A"%char; "O"%char]) c in
       get_global (step E I c) "heat"
       = nadd (get_global c "heat") (nsub (kinetic_energy c_out) (kinetic_energy c_in)).
Proof.
  eexists. split; [apply LangevinSplittingIntegrator_value; apply valid_BAOAB|].
  cbv zeta.
  apply (Langevin_heat (harmonic_oscillator false) kB_md "BAOAB" unit_temperature 1 1
           false true true _ ["B"%char; "A"%char] ["A"%char; "B"%char] _
           (LangevinSplittingIntegrator_value _ _ _ _ _ _ _ _ _ valid_BAOAB) eq_refl).
Defined.

Lemma A_block_with_work (n_A n_B : nat) (mh pc vc : bool) :
  langevin_block n_A n_B true mh pc vc "A"
  = ComputeGlobal "old_pe" "energy"
    :: (drift_update n_A :: (if pc then [ConstrainPositions] else []))
    ++ [ComputeGlobal "new_pe" "energy";
        ComputeGlobal "shadow_work" ("shadow_work" + ("new_pe" - "old_pe"))].
Proof. destruct mh, pc, vc; reflexivity. Qed.

Lemma B_block_with_work (n_A n_B : nat) (mh pc vc : bool) :
  langevin_block n_A n_B true mh pc vc "B"
  = ComputeSum "old_ke" (0.5 * "m" * "v" * "v")
    :: (kick_update n_B :: (if vc then [ConstrainVelocities] else []))
    ++ [ComputeGlobal "shadow_work" ("shadow_work" + ("new_ke" - "old_ke"))].
Proof. destruct mh, pc, vc; reflexivity. Qed.

(** What an A block with [monitor_work] does to [shadow_work]. *)
Lemma A_block_shadow_work (E : Engine) (n_A n_B : nat) (mh pc vc : bool)
      (c : context) :
  let c' := after E (langevin_block n_A n_B true mh pc vc "A") c in
  get_global c' "shadow_work"
  = nadd (get_global c "shadow_work")
         (nsub (potential_energy E c') (potential_energy E c)).
Proof.
  cbv zeta.
  rewrite A_block_with_work.
  set (mid := drift_update n_A :: (if pc then [ConstrainPositions] else [])).
  assert (Pmid : forallb is_plain mid = true) by (unfold mid; now destruct pc).
  assert (Gmid : forall name, forallb (keeps_global name) mid = true)
    by (intros name; unfold mid; now destruct pc).
  rewrite after_cons by reflexivity. rewrite after_app by exact Pmid.
  rewrite !after_cons by reflexivity. rewrite after_nil.
  set (c1 := exec E (ComputeGlobal "old_pe" "energy") c).
  set (c2 := after E mid c1).
  set (c3 := exec E (ComputeGlobal "new_pe" "energy") c2).
  assert (P3 : get_global c3 "new_pe" = potential_energy E c2) by reflexivity.
  assert (P1 : get_global c3 "old_pe" = potential_energy E c).
  { unfold c3, get_global. rewrite globals_exec by reflexivity.
    fold (get_global c2 "old_pe"). unfold c2.
    now rewrite get_global_after by apply Gmid. }
  assert (S3 : get_global c3 "shadow_work" = get_global c "shadow_work").
  { unfold c3, get_global. rewrite globals_exec by reflexivity.
    fold (get_global c2 "shadow_work"). unfold c2.
    rewrite get_global_after by apply Gmid.
    unfold c1, get_global. now rewrite globals_exec by reflexivity. }
  assert (Pout : potential_energy E
                   (exec E (ComputeGlobal "shadow_work"
                              ("shadow_work" + ("new_pe" - "old_pe"))) c3)
                 = potential_energy E c2).
  { unfold potential_energy. rewrite positions_exec by reflexivity.
    unfold c3. now rewrite positions_exec by reflexivity. }
  rewrite Pout, <- P3, <- P1, <- S3. reflexivity.
Qed.

(** What a B block with [monitor_work] does to [shadow_work] and [new_ke]. *)
Lemma B_block_shadow_work (E : Engine) (n_A n_B : nat) (mh pc vc : bool)
      (c : context) :
  let c' := after E (langevin_block n_A n_B true mh pc vc "B") c in
  get_global c' "shadow_work"
  = nadd (get_global c "shadow_work")
         (nsub (get_global c "new_ke") (kinetic_energy c))
  /\ get_global c' "new_ke" = get_global c "new_ke".
Proof.
  cbv zeta.
  rewrite B_block_with_work.
  set (mid := kick_update n_B :: (if vc then [ConstrainVelocities] else [])).
  assert (Pmid : forallb is_plain mid = true) by (unfold mid; now destruct vc).
  assert (Gmid : forall name, forallb (keeps_global name) mid = true)
    by (intros name; unfold mid; now destruct vc).
  rewrite after_cons by reflexivity. rewrite after_app by exact Pmid.
  rewrite !after_cons by reflexivity. rewrite after_nil.
  set (c1 := exec E (ComputeSum "old_ke" (0.5 * "m" * "v" * "v")) c).
  set (c2 := after E mid c1).
  assert (K1 : get_global c2 "old_ke" = kinetic_energy c).
  { unfold c2. rewrite get_global_after by apply Gmid. now apply ke_sum_exec. }
  assert (N2 : get_global c2 "new_ke" = get_global c "new_ke").
  { unfold c2. rewrite get_global_after by apply Gmid.
    unfold c1, get_global. now rewrite globals_exec by reflexivity. }
  assert (S2 : get_global c2 "shadow_work" = get_global c "shadow_work").
  { unfold c2. rewrite get_global_after by apply Gmid.
    unfold c1, get_global. now rewrite globals_exec by reflexivity. }
  split.
  + rewrite <- K1, <- N2, <- S2. reflexivity.
  + rewrite <- N2. unfold get_global. now rewrite globals_exec by reflexivity.
Qed.

(** The program of the constructor and its step, cut around one letter of
    the splitting. *)
Lemma langevin_step_cut (E : Engine) (kB : R) (splitting : string)
      (temperature collision_rate timestep : R) (mw mh pc vc : bool)
      (I : CustomIntegrator) (s1 s2 : list ascii) (a : ascii) (c : context) :
  LangevinSplittingIntegrator kB splitting temperature collision_rate timestep
                              mw mh pc vc = Ok I ->
  upper splitting = s1 ++ a :: s2 ->
  let n_A := count_letter "A" (upper splitting) in
  let n_B := count_letter "B" (upper splitting) in
  let pre := langevin_program n_A n_B mw mh pc vc s1 in
  let block := langevin_block n_A n_B mw mh pc vc a in
  let post := langevin_program n_A n_B mw mh pc vc s2 in
  computations I = pre ++ block ++ post
  /\ after E (pre ++ block) c = after E block (after E pre c)
  /\ step E I c = after E post (after E (pre ++ block) c).
Proof.
  intros H Hs. cbv zeta.
  destruct (LangevinSplittingIntegrator_ok _ _ _ _ _ _ _ _ _ _ H) as [_ ->].
  rewrite step_after. cbn [computations].
  set (n_A := count_letter "A" (upper splitting)).
  set (n_B := count_letter "B" (upper splitting)).
  rewrite Hs.
  change (s1 ++ a :: s2) with (s1 ++ [a] ++ s2).
  rewrite !langevin_program_app, langevin_program_one.
  assert (P1 : forallb is_plain (langevin_program n_A n_B mw mh pc vc s1) = true)
    by apply plain_langevin_program.
  assert (P2 : forallb is_plain (langevin_block n_A n_B mw mh pc vc a) = true)
    by (rewrite <- langevin_program_one; apply plain_langevin_program).
  split; [reflexivity|]. split.
  - now apply after_app.
  - rewrite app_assoc. apply after_app.
    rewrite forallb_app, P1, P2. reflexivity.
Qed.

(** X12.  The shadow work of a kick.  With [monitor_work], the program of
    [LangevinSplittingIntegrator] is a block per letter of the splitting,
    and the block of a letter B adds [new_ke - old_ke] to the global
    [shadow_work], where [old_ke] is the kinetic energy before the kick and
    [new_ke] is the global as the block finds it: the block computes no
    [new_ke] and leaves the global as it was, so the kinetic energy after
    the kick does not enter the shadow work. *)
Theorem Langevin_shadow_work (E : Engine) (kB : R) (splitting : string)
        (temperature collision_rate timestep : R) (mh pc vc : bool)
        (I : CustomIntegrator) (s1 s2 : list ascii) (c : context) :
  LangevinSplittingIntegrator kB splitting temperature collision_rate timestep
                              true mh pc vc = Ok I ->
  upper splitting = s1 ++ "B"%char :: s2 ->
  let n_A := count_letter "A" (upper splitting) in
  let n_B := count_letter "B" (upper splitting) in
  let pre := langevin_program n_A n_B true mh pc vc s1 in
  let block := langevin_block n_A n_B true mh pc vc "B" in
  let post := langevin_program n_A n_B true mh pc vc s2 in
  let c_in := after E pre c in
  let c_out := after E (pre ++ block) c in
  computations I = pre ++ block ++ post
  /\ step E I c = after E post c_out
  /\ get_global c_out "shadow_work"
     = nadd (get_global c_in "shadow_work")
            (nsub (get_global c_in "new_ke") (kinetic_energy c_in))
  /\ get_global c_out "new_ke" = get_global c_in "new_ke".
Proof.
  intros H Hs. cbv zeta.
  destruct (langevin_step_cut E _ _ _ _ _ _ _ _ _ _ s1 s2 "B" c H Hs)
    as (Hp & Hc & Hstep). cbv zeta in *.
  split; [exact Hp|]. split; [exact Hstep|].
  rewrite Hc. apply B_block_shadow_work.
Qed.

Lemma Langevin_shadow_work_witness :
  exists I,
    LangevinSplittingIntegrator kB_md "BAOAB" unit_temperature 1 1
                                true false true true = Ok I
    /\ let E := harmonic_oscillator false in
       let c := createContext I (one_particle (Fin 1) (Fin 3)) (uniform_source 0.5) in
       let pre := langevin_program 2 2 true false true true
                    ["B"%char; "A"%char; "O"%char; "A"%char] in
       let c_in := after E pre c in
       let c_out := after E (pre ++ langevin_block 2 2 true false true true "B") c in
       step E I c = c_out
       /\ get_global c_out "shadow_work"
          = nadd (get_global c_in "shadow_work")
                 (nsub (get_global c_in "new_ke") (kinetic_energy c_in))
       /\ get_global c_out "new_ke" = get_global c_in "new_ke".
Proof.
  eexists. split; [apply LangevinSplittingIntegrator_value; apply valid_BAOAB|].
  cbv zeta.
  lazymatch goal with
  | |- context [createContext ?I ?sys ?r] =>
    pose proof (Langevin_shadow_work (harmonic_oscillator false) kB_md "BAOAB"
                  unit_temperature 1 1 false true true I
                  ["B"%char; "A"%char; "O"%char; "A"%char] []
                  (createContext I sys r)
                  (LangevinSplittingIntegrator_value _ _ _ _ _ _ _ _ _ valid_BAOAB)
                  eq_refl) as W
  end.
  cbv zeta in W.
  change (count_letter "A" (upper "BAOAB")) with 2%nat in *.
  change (count_letter "B" (upper "BAOAB")) with 2%nat in *.
  change (langevin_program 2 2 true false true true []) with (@nil computation) in W.
  destruct W as (_ & Hs & Hw & Hk).
  rewrite (after_nil (harmonic_oscillator false)) in Hs.
  split; [exact Hs|]. split; [exact Hw | exact Hk].
Defined.

(** X16.  The shadow work of a drift.  With [monitor_work], the block of a
    letter A in the program of [LangevinSplittingIntegrator] adds to the
    global [shadow_work] the change of the potential energy over the
    block: the potential energy when the block ends, after the drift and
    its position constraint, minus the potential energy when it starts. *)
Theorem Langevin_shadow_work_of_a_drift (E : Engine) (kB : R) (splitting : string)
        (temperature collision_rate timestep : R) (mh pc vc : bool)
        (I : CustomIntegrator) (s1 s2 : list ascii) (c : context) :
  LangevinSplittingIntegrator kB splitting temperature collision_rate timestep
                              true mh pc vc = Ok I ->
  upper splitting = s1 ++ "A"%char :: s2 ->
  let n_A := count_letter "A" (upper splitting) in
  let n_B := count_letter "B" (upper splitting) in
  let pre := langevin_program n_A n_B true mh pc vc s1 in
  let block := langevin_block n_A n_B true mh pc vc "A" in
  let post := langevin_program n_A n_B true mh pc vc s2 in
  let c_in := after E pre c in
  let c_out := after E (pre ++ block) c in
  computations I = pre ++ block ++ post
  /\ step E I c = after E post c_out
  /\ get_global c_out "shadow_work"
     = nadd (get_global c_in "shadow_work")
            (nsub (potential_energy E c_out) (potential_energy E c_in)).
Proof.
  intros H Hs. cbv zeta.
  destruct (langevin_step_cut E _ _ _ _ _ _ _ _ _ _ s1 s2 "A" c H Hs)
    as (Hp & Hc & Hstep). cbv zeta in *.
  split; [exact Hp|]. split; [exact Hstep|].
  rewrite Hc. apply A_block_shadow_work.
Qed.

Lemma Langevin_shadow_work_of_a_drift_witness :
  exists I,
    LangevinSplittingIntegrator kB_md "BAOAB" unit_temperature 1 1
                                true false true true = Ok I
    /\ let E := harmonic_oscillator false in
       let c := createContext I (one_particle (Fin 1) (Fin 3)) (uniform_source 0.5) in
       let c_in := after E (langevin_block 2 2 true false true true "B") c in
       let c_out := after E (langevin_block 2 2 true false true true "B"
                             ++ langevin_block 2 2 true false true true "A") c in
       get_global c_out "shadow_work"
       = nadd (get_global c_in "shadow_work")
              (nsub (potential_energy E c_out) (potential_energy E c_in)).
Proof.
  eexists. split; [apply LangevinSplittingIntegrator_value; apply valid_BAOAB|].
  cbv zeta.
  lazymatch goal with
  | |- context [createContext ?I ?sys ?r] =>
    destruct (Langevin_shadow_work_of_a_drift (harmonic_oscillator false) kB_md "BAOAB"
                unit_temperature 1 1 false true true I
                ["B"%char] ["O"%char; "A"%char; "B"%char]
                (createContext I sys r)
                (LangevinSplittingIntegrator_value _ _ _ _ _ _ _ _ _ valid_BAOAB)
                eq_refl)
      as (_ & _ & Hw)
  end.
  exact Hw.
Defined.

(* ----------------------------------------------------------------- *)
(** ** VVVR without collisions *)

Lemma Forall_map_P {A B : Type} (f : A -> B) (P : B -> Prop) (l l' : list A) :
  map f l' = map f l ->
  Forall (fun a => P (f a)) l -> Forall (fun a => P (f a)) l'.
Proof.
  intros Hm H.
  apply (Forall_map f P). rewrite Hm. now apply (Forall_map f P).
Qed.

Lemma map_mapi_when {A B : Type} (h : A -> B) (F : nat -> A -> A) (l : list A) (k : nat) :
  (forall i a, nth_error l i = Some a -> h (F (k + i)%nat a) = h a) ->
  map h (mapi_from k F l) = map h l.
Proof.
  revert k. induction l as [|a l IH]; intros k H; cbn; [reflexivity|].
  f_equal.
  - specialize (H O a eq_refl). now rewrite Nat.add_0_r in H.
  - apply IH. intros i b Hi. specialize (H (S i) b Hi).
    now rewrite Nat.add_succ_r in H.
Qed.

Lemma nmul_comm (a b : num) : nmul a b = nmul b a.
Proof. destruct a, b; cbn; try reflexivity. f_equal. apply Rmult_comm. Qed.

Section Draws.

Variable E : Engine.

(** Evaluation takes draws from a source and leaves its sequences alone. *)
Lemma eval_draws (rho : string -> num) (e : expr) (r : rng) :
  gaussian_draws (snd (eval E rho e r)) = gaussian_draws r.
Proof.
  revert r. induction e; intros r; cbn [eval];
    try reflexivity;
    try (specialize (IHe r); destruct (eval E rho e r) as [va r1]; exact IHe);
    try (specialize (IHe1 r); destruct (eval E rho e1 r) as [va r1];
         specialize (IHe2 r1); destruct (eval E rho e2 r1) as [vb r2];
         cbn [snd] in *; congruence).
  destruct (name =? "gaussian")%string; [reflexivity|].
  destruct (name =? "uniform")%string; reflexivity.
Qed.

Lemma draws_exec (i : computation) (c : context) :
  map (fun d => gaussian_draws (dof_rng d)) (dofs (exec E i c))
  = map (fun d => gaussian_draws (dof_rng d)) (dofs c).
Proof.
  destruct i; cbn [exec]; try reflexivity.
  - apply map_mapi_same. reflexivity.
  - apply map_mapi_same. reflexivity.
  - apply map_mapi_same. reflexivity.
  - unfold compute_global.
    destruct (eval E (global_lookup E c) expression (ctx_rng c)) as [a r].
    unfold set_global. now destruct (variable =? "dt")%string.
  - unfold compute_per_dof. cbn [dofs with_dofs].
    apply map_mapi_same. intros k d.
    pose proof (eval_draws (dof_lookup E c k d) expression (dof_rng d)) as Hd.
    destruct (eval E (dof_lookup E c k d) expression (dof_rng d)) as [a r].
    cbn [snd] in Hd. unfold set_perdof.
    destruct (variable =? "x")%string; [exact Hd|].
    destruct (variable =? "v")%string; exact Hd.
  - unfold compute_sum, set_global.
    destruct (variable =? "dt")%string; cbn [dofs with_dofs with_dt with_global];
      apply map_mapi_same; intros k d; apply eval_draws.
Qed.

Lemma draws_after (p : list computation) (c : context) :
  forallb is_plain p = true ->
  map (fun d => gaussian_draws (dof_rng d)) (dofs (after E p c))
  = map (fun d => gaussian_draws (dof_rng d)) (dofs c).
Proof.
  revert c. induction p as [|i p IH]; intros c Hp; [reflexivity|].
  cbn in Hp. apply andb_true_iff in Hp as [Hi Hp].
  rewrite after_cons by assumption. rewrite IH by assumption. apply draws_exec.
Qed.

Lemma masses_after (p : list computation) (c : context) :
  forallb is_plain p = true -> masses (after E p c) = masses c.
Proof.
  revert c. induction p as [|i p IH]; intros c Hp; [reflexivity|].
  cbn in Hp. apply andb_true_iff in Hp as [Hi Hp].
  rewrite after_cons by assumption. rewrite IH by assumption. apply masses_exec.
Qed.

(** With [b = 1] the velocity randomization changes no velocity. *)
Lemma randomization_identity (c : context) :
  globals c "b" = Some (Fin 1) ->
  Forall (fun d => perdof d "b" = None) (dofs c) ->
  Forall (fun d => exists s, perdof d "sigma" = Some (Fin s)) (dofs c) ->
  Forall (fun d => forall n, exists g, gaussian_draws (dof_rng d) n = Fin g) (dofs c) ->
  velocities (exec E velocity_randomization c) = velocities c.
Proof.
  intros Gb Nb Hs Hg. unfold velocities, velocity_randomization. folded.
  unfold mapi. apply map_mapi_when. intros i d Hi. folded.
  rewrite Forall_forall in Nb, Hs, Hg.
  pose proof (nth_error_In _ _ Hi) as Hin.
  rewrite (Nb d Hin), Gb.
  destruct (Hs d Hin) as [s ->].
  destruct (Hg d Hin (gaussian_used (dof_rng d))) as [g ->].
  cbn [nsub lift2]. rewrite !nsqrt_fin by lra.
  replace (1 - 1) with 0 by lra. rewrite sqrt_0, sqrt_1.
  destruct (vel d) as [v|]; cbn; [|reflexivity].
  f_equal. ring.
Qed.

End Draws.

Lemma Forall_mapi_from {A B : Type} (P : B -> Prop) (Q : A -> Prop)
      (F : nat -> A -> B) (l : list A) (k : nat) :
  (forall i a, Q a -> P (F i a)) -> Forall Q l -> Forall P (mapi_from k F l).
Proof.
  intros H HQ. revert k. induction HQ as [|a l Ha _ IH]; intros k; cbn; constructor.
  - now apply H.
  - apply IH.
Qed.

Section VVVR.

Variable E : Engine.
Hypothesis HE : free E.

Lemma drift_vdt_exec (c : context) :
  let c' := exec E (ComputePerDof "x" ("x" + "v" * "dt")) c in
  positions c' = drift (dt c) (positions c) (velocities c)
  /\ velocities c' = velocities c
  /\ masses c' = masses c
  /\ dt c' = dt c.
Proof.
  cbv zeta. split; [|split; [now apply velocities_exec|split; [|reflexivity]]].
  - unfold positions, drift, velocities. cbn. unfold mapi.
    apply map_mapi_at. intros i d Hi. cbn.
    now rewrite (component_map vel _ _ _ Hi), nmul_comm.
  - unfold masses. cbn. unfold mapi. now apply map_mapi_keep.
Qed.

(** The symplectic step of [VVVRIntegrator] on vectors. *)
Lemma ghmc_propose_after (c : context) :
  let c' := after E ghmc_propose c in
  let h := dt c in
  let ms := masses c in
  let vs1 := half_kick E h (positions c) (velocities c) ms in
  let xs1 := drift h (positions c) vs1 in
  positions c' = xs1
  /\ velocities c' = second_kick E h xs1 vs1 ms
  /\ masses c' = ms
  /\ dt c' = h.
Proof.
  cbv zeta. unfold ghmc_propose.
  rewrite !after_cons by reflexivity. rewrite after_nil.
  rewrite (free_constrain_positions E HE), (free_constrain_velocities E HE).
  destruct (half_kick_exec E c) as (Hx1 & Hv1 & Hm1 & Hd1). cbv zeta in *.
  set (c1 := exec E (ComputePerDof "v" ("v" + 0.5 * "dt" * "f" / "m")) c) in *.
  destruct (drift_vdt_exec c1) as (Hx2 & Hv2 & Hm2 & Hd2). cbv zeta in *.
  set (c2 := exec E (ComputePerDof "x" ("x" + "v" * "dt")) c1) in *.
  destruct (second_kick_exec E c2) as (Hx3 & Hv3 & Hm3 & Hd3). cbv zeta in *.
  rewrite Hx3, Hv3, Hm3, Hd3, Hx2, Hv2, Hm2, Hd2, Hx1, Hv1, Hm1, Hd1.
  repeat split.
Qed.

(** [sigma = sqrt(kT/m)] is finite for a positive mass. *)
Lemma vvvr_sigma (kT : R) (c : context) :
  0 <= kT ->
  globals c "kT" = Some (Fin kT) ->
  Forall (fun d => perdof d "kT" = None) (dofs c) ->
  Forall (fun d => exists m, mass d = Fin m /\ 0 < m) (dofs c) ->
  Forall (fun d => exists s, perdof d "sigma" = Some (Fin s))
         (dofs (exec E (ComputePerDof "sigma" (Sqrt ("kT" / "m"))) c)).
Proof.
  intros HkT Gk Nk Hm. folded. unfold mapi.
  apply (Forall_mapi_from _
           (fun d => perdof d "kT" = None /\ exists m, mass d = Fin m /\ 0 < m)).
  - intros i d (Hn & m & Hmd & Hpos). folded. rewrite Hn, Gk, Hmd.
    rewrite ndiv_fin by lra. rewrite nsqrt_fin.
    + eexists. reflexivity.
    + apply Rmult_le_pos; [exact HkT|]. left. now apply Rinv_0_lt_compat.
  - rewrite Forall_forall in *. intros d Hd. split; [now apply Nk|now apply Hm].
Qed.

End VVVR.

(** X13. [VVVRIntegrator] with a collision rate of zero is velocity Verlet.
    On an engine without constraints, when the thermal energy is not
    negative, every mass is finite and positive and every gaussian draw is
    finite, a step of [VVVRIntegrator(temperature, 0, timestep)] from any
    context of its simulation leaves the positions and velocities that a
    step of [VelocityVerletIntegrator(timestep)] leaves from a context with
    the same positions, velocities, masses and time step: with [b = 1] both
    velocity randomizations write every velocity back. *)
Theorem VVVR_without_collisions (E : Engine) (kB temperature timestep : R)
        (I J : CustomIntegrator) (c c' : context) :
  VVVRIntegrator kB temperature 0 timestep = Ok I ->
  VelocityVerletIntegrator timestep = Ok J ->
  free E ->
  0 <= kB * temperature ->
  reachable E I c ->
  Forall (fun d => exists m, mass d = Fin m /\ 0 < m) (dofs c) ->
  Forall (fun d => forall n, exists g, gaussian_draws (dof_rng d) n = Fin g) (dofs c) ->
  positions c' = positions c -> velocities c' = velocities c ->
  masses c' = masses c -> dt c' = dt c ->
  positions (step E I c) = positions (step E J c')
  /\ velocities (step E I c) = velocities (step E J c').
Proof.
  intros HI HJ HE HkT Hr Hm Hg Hx Hv Hms Hdt.
  rewrite VVVRIntegrator_value in HI. injection HI as <-.
  rewrite VelocityVerletIntegrator_value in HJ. injection HJ as <-.
  set (I := {| stepSize := timestep;
               globalVariables :=
                 [("kT", kB * temperature); ("b", exp (- 0 * timestep))];
               perDofVariables := [("sigma", 0); ("x1", 0)];
               computations := vvvr_program |}) in *.
  assert (Hplain : forallb is_plain (computations I) = true) by reflexivity.
  set (sigma := ComputePerDof "sigma" (Sqrt ("kT" / "m"))).
  set (p1 := [UpdateContextState; sigma]).
  set (p3 := p1 ++ ghmc_randomize ++ ghmc_propose).
  assert (Hb : forall p q, computations I = p ++ q ->
                           globals (after E p c) "b" = Some (Fin 1)).
  { intros p q Hpq.
    rewrite (prefix_global E I "b" c p q) by (assumption || reflexivity).
    cbn. do 2 f_equal.
    replace (- 0 * timestep) with 0 by ring. apply exp_0. }
  assert (Hnb : forall p q, computations I = p ++ q ->
                            Forall (fun d => perdof d "b" = None) (dofs (after E p c))).
  { intros p q Hpq.
    apply (prefix_perdof_none E I Hplain "b" c p q); (assumption || reflexivity). }
  assert (Hdr : forall p, forallb is_plain p = true ->
            Forall (fun d => forall n, exists g, gaussian_draws (dof_rng d) n = Fin g)
                   (dofs (after E p c))).
  { intros p Hp.
    apply (Forall_map_P (fun d => gaussian_draws (dof_rng d))
             (fun draws => forall n, exists g, draws n = Fin g) (dofs c));
      [now apply draws_after|exact Hg]. }
  (* the context in which sigma has been computed *)
  set (c1 := after E p1 c).
  assert (Hc1 : c1 = exec E sigma c).
  { unfold c1, p1. rewrite !after_cons by reflexivity. rewrite after_nil.
    now rewrite (free_update_context_state E HE). }
  assert (Hs1 : Forall (fun d => exists s, perdof d "sigma" = Some (Fin s)) (dofs c1)).
  { rewrite Hc1. apply (vvvr_sigma E (kB * temperature)); try assumption.
    - now rewrite (reachable_global E I "kT" c) by (assumption || reflexivity).
    - apply (reachable_perdof_none E I Hplain "kT" c); (assumption || reflexivity). }
  (* the first randomization *)
  set (c2 := after E ghmc_randomize c1).
  assert (Hc2 : c2 = exec E velocity_randomization c1).
  { unfold c2, ghmc_randomize. rewrite !after_cons by reflexivity. rewrite after_nil.
    now rewrite (free_constrain_velocities E HE). }
  assert (Hv2 : velocities c2 = velocities c).
  { rewrite Hc2, randomization_identity.
    - rewrite Hc1. now apply velocities_exec.
    - apply (Hb p1 (ghmc_randomize ++ ghmc_propose ++ ghmc_randomize)). reflexivity.
    - apply (Hnb p1 (ghmc_randomize ++ ghmc_propose ++ ghmc_randomize)). reflexivity.
    - exact Hs1.
    - apply Hdr. reflexivity. }
  assert (Hx2 : positions c2 = positions c).
  { rewrite Hc2, positions_exec by reflexivity. rewrite Hc1. now apply positions_exec. }
  assert (Hm2 : masses c2 = masses c).
  { rewrite Hc2, masses_exec, Hc1. apply masses_exec. }
  assert (Hd2 : dt c2 = dt c) by (rewrite Hc2, Hc1; reflexivity).
  (* the symplectic step *)
  set (c3 := after E ghmc_propose c2).
  assert (Hc3 : c3 = after E p3 c).
  { unfold c3, c2, c1, p3. now rewrite !after_app by reflexivity. }
  assert (Hs3 : Forall (fun d => exists s, perdof d "sigma" = Some (Fin s)) (dofs c3)).
  { apply (Forall_map_P (fun d => perdof d "sigma")
             (fun o => exists s, o = Some (Fin s)) (dofs c1)); [|exact Hs1].
    unfold c3, c2. rewrite <- after_app by reflexivity.
    now apply perdof_run_plain. }
  destruct (ghmc_propose_after E HE c2) as (Hx3 & Hv3 & _ & _). cbv zeta in *.
  fold c3 in Hx3, Hv3. rewrite Hx2, Hv2, Hm2, Hd2 in Hx3, Hv3.
  (* the second randomization *)
  assert (Hstep : step E I c = exec E velocity_randomization c3).
  { rewrite step_after.
    change (computations I) with (p3 ++ ghmc_randomize).
    rewrite after_app by reflexivity. rewrite <- Hc3.
    unfold ghmc_randomize. rewrite !after_cons by reflexivity. rewrite after_nil.
    now rewrite (free_constrain_velocities E HE). }
  assert (Hv4 : velocities (step E I c) = velocities c3).
  { rewrite Hstep. apply randomization_identity.
    - rewrite Hc3. apply (Hb p3 ghmc_randomize). reflexivity.
    - rewrite Hc3. apply (Hnb p3 ghmc_randomize). reflexivity.
    - exact Hs3.
    - rewrite Hc3. apply Hdr. reflexivity. }
  assert (Hx4 : positions (step E I c) = positions c3).
  { rewrite Hstep. now apply positions_exec. }
  (* velocity Verlet from the other context *)
  destruct (vv_after E HE c') as (Hxv & Hvv & _ & _). cbv zeta in *.
  rewrite Hx, Hv, Hms, Hdt in Hxv, Hvv.
  rewrite Hx4, Hv4, Hx3, Hv3. rewrite !step_after. cbn [computations].
  rewrite Hxv, Hvv. split; reflexivity.
Qed.

Lemma VVVR_without_collisions_witness :
  exists I J,
    VVVRIntegrator kB_md unit_temperature 0 1 = Ok I
    /\ VelocityVerletIntegrator 1 = Ok J
    /\ let E := harmonic_oscillator false in
       let c := createContext I (one_particle (Fin 1) (Fin 2)) (uniform_source 0.5) in
       let c' := createContext J (one_particle (Fin 1) (Fin 2)) (uniform_source 0.5) in
       positions (step E I c) = positions (step E J c')
       /\ velocities (step E I c) = velocities (step E J c').
Proof.
  eexists. eexists.
  split; [apply VVVRIntegrator_value|].
  split; [apply VelocityVerletIntegrator_value|]. cbv zeta.
  apply (VVVR_without_collisions (harmonic_oscillator false)
           kB_md unit_temperature 1); try reflexivity.
  - apply harmonic_oscillator_free.
  - rewrite kT_unit. lra.
  - apply reachable_new.
  - repeat constructor. exists 1. split; [reflexivity|lra].
  - repeat constructor. intros n. exists 2. reflexivity.
Defined.

(* ----------------------------------------------------------------- *)
(** ** VVVR with a negative collision rate *)

Lemma second_kick_NaN (E : Engine) (h : num) (xs ms : list num) (n : nat) :
  second_kick E h xs (repeat NaN n) ms = repeat NaN n.
Proof.
  apply component_ext.
  - unfold second_kick. now rewrite length_mapi.
  - intros i Hi. unfold second_kick in *. rewrite length_mapi in Hi.
    rewrite component_mapi by assumption.
    now rewrite !component_repeat_NaN.
Qed.

(** With [b > 1] the velocity randomization takes the square root of a
    negative number and leaves no velocity. *)
Lemma randomization_NaN (E : Engine) (b : R) (c : context) :
  1 < b ->
  globals c "b" = Some (Fin b) ->
  Forall (fun d => perdof d "b" = None) (dofs c) ->
  velocities (exec E velocity_randomization c) = repeat NaN (List.length (dofs c)).
Proof.
  intros Hb Gb Nb. unfold velocities, velocity_randomization. folded.
  unfold mapi. apply map_mapi_const. intros i d Hi. folded.
  rewrite Forall_forall in Nb.
  rewrite (Nb d (nth_error_In _ _ Hi)), Gb.
  cbn [nsub lift2]. rewrite (nsqrt_neg (1 - b)) by lra.
  cbn [nmul lift2]. apply nadd_NaN_r.
Qed.

(** X14. [VVVRIntegrator] does not check its collision rate, and a [b] above
    1 is fatal.  The constructor registers [b = exp(-gamma*dt)] whatever
    the sign of [gamma*dt].  When the value it registers is above 1, which
    takes a negative [gamma*dt], [1 - b] is negative and [sqrt(1-b)] is
    [NaN]: on an engine without constraints, one step from any context of
    the simulation leaves every position and every velocity [NaN],
    whatever the state, the masses and the draws. *)
Theorem VVVR_b_above_one (E : Engine)
        (kB temperature collision_rate timestep : R)
        (I : CustomIntegrator) (c : context) (b : R) :
  VVVRIntegrator kB temperature collision_rate timestep = Ok I ->
  free E ->
  initial_values (globalVariables I) "b" = Some (Fin b) ->
  1 < b ->
  reachable E I c ->
  positions (step E I c) = repeat NaN (List.length (dofs c))
  /\ velocities (step E I c) = repeat NaN (List.length (dofs c)).
Proof.
  intros HI HE Ib Hb1 Hr.
  rewrite VVVRIntegrator_value in HI. injection HI as <-.
  set (I := {| stepSize := timestep;
               globalVariables :=
                 [("kT", kB * temperature); ("b", exp (- collision_rate * timestep))];
               perDofVariables := [("sigma", 0); ("x1", 0)];
               computations := vvvr_program |}) in *.
  assert (Hplain : forallb is_plain (computations I) = true) by reflexivity.
  set (p1 := [UpdateContextState; ComputePerDof "sigma" (Sqrt ("kT" / "m"))]).
  set (p3 := p1 ++ ghmc_randomize ++ ghmc_propose).
  assert (Hb : forall p q, computations I = p ++ q ->
             globals (after E p c) "b" = Some (Fin b)).
  { intros p q Hpq. rewrite <- Ib.
    now apply (prefix_global E I "b" c p q). }
  assert (Hnb : forall p q, computations I = p ++ q ->
                            Forall (fun d => perdof d "b" = None) (dofs (after E p c))).
  { intros p q Hpq.
    apply (prefix_perdof_none E I Hplain "b" c p q); (assumption || reflexivity). }
  set (n := List.length (dofs c)).
  set (c1 := after E p1 c).
  set (c2 := after E ghmc_randomize c1).
  assert (Hc2 : c2 = exec E velocity_randomization c1).
  { unfold c2, ghmc_randomize. rewrite !after_cons by reflexivity. rewrite after_nil.
    now rewrite (free_constrain_velocities E HE). }
  assert (Hl1 : List.length (dofs c1) = n) by now apply length_dofs_after.
  assert (Hl2 : List.length (positions c2) = n).
  { destruct (length_observables c2) as (-> & _).
    unfold c2. rewrite length_dofs_after by reflexivity. exact Hl1. }
  assert (Hv2 : velocities c2 = repeat NaN n).
  { rewrite Hc2, <- Hl1. apply (randomization_NaN E _ c1 Hb1).
    - apply (Hb p1 (ghmc_randomize ++ ghmc_propose ++ ghmc_randomize)). reflexivity.
    - apply (Hnb p1 (ghmc_randomize ++ ghmc_propose ++ ghmc_randomize)). reflexivity. }
  set (c3 := after E ghmc_propose c2).
  assert (Hc3 : c3 = after E p3 c).
  { unfold c3, c2, c1, p3. now rewrite !after_app by reflexivity. }
  destruct (ghmc_propose_after E HE c2) as (Hx3 & Hv3 & _ & _). cbv zeta in *.
  fold c3 in Hx3, Hv3.
  rewrite Hv2, half_kick_NaN in Hx3, Hv3.
  rewrite second_kick_NaN in Hv3.
  rewrite <- Hl2, drift_NaN, Hl2 in Hx3.
  assert (Hstep : step E I c = exec E velocity_randomization c3).
  { rewrite step_after.
    change (computations I) with (p3 ++ ghmc_randomize).
    rewrite after_app by reflexivity. rewrite <- Hc3.
    unfold ghmc_randomize. rewrite !after_cons by reflexivity. rewrite after_nil.
    now rewrite (free_constrain_velocities E HE). }
  rewrite Hstep. split.
  - rewrite positions_exec by reflexivity. exact Hx3.
  - rewrite (randomization_NaN E _ c3 Hb1).
    + rewrite Hc3. fold n. f_equal. now apply length_dofs_after.
    + rewrite Hc3. apply (Hb p3 ghmc_randomize). reflexivity.
    + rewrite Hc3. apply (Hnb p3 ghmc_randomize). reflexivity.
Qed.

Lemma VVVR_b_above_one_witness :
  exists I,
    VVVRIntegrator kB_md unit_temperature (-1) 1 = Ok I
    /\ let E := harmonic_oscillator false in
       let c := createContext I (one_particle (Fin 1) (Fin 2)) (uniform_source 0.5) in
       List.length (dofs c) = 1%nat
       /\ positions (step E I c) = repeat NaN (List.length (dofs c))
       /\ velocities (step E I c) = repeat NaN (List.length (dofs c)).
Proof.
  eexists. split; [apply VVVRIntegrator_value|]. cbv zeta.
  split; [reflexivity|].
  apply (VVVR_b_above_one (harmonic_oscillator false)
           kB_md unit_temperature (-1) 1 _ _ (exp (- -1 * 1))
           (VVVRIntegrator_value _ _ _ _)
           (harmonic_oscillator_free false) eq_refl).
  - apply (decay_above_one (-1) 1). lra.
  - apply reachable_new.
Defined.
